(** * gitautosync: a shallow embedding of [gitautosync/__init__.py]

    The module synchronises a local clone with a remote branch by driving
    the [git] executable.  Everything the program decides is decided on
    three kinds of data: the exit status of a child process, the bytes
    the child wrote, and whether a path exists.  The embedding below
    keeps those three as an explicit, abstract world and threads it
    through the Python generators, which are modelled as run to
    exhaustion and yielding a trace. *)

From Stdlib Require Import List ZArith NArith String Ascii Bool Lia.
From Stdlib.Strings Require Import Byte.
Import ListNotations.

Set Implicit Arguments.
Local Open Scope list_scope.

(** ** Text

    A Python [str] is a sequence of Unicode code points; a [bytes] object
    is a sequence of bytes. *)

Definition char := N.
Definition text := list char.

(** An ASCII literal of the source, as a [str]. *)
Definition u (s : string) : text :=
  map N_of_ascii (list_ascii_of_string s).

Arguments u _ : simpl never.

Definition nl : char := 10%N.   (* '\n' *)
Definition cr : char := 13%N.   (* '\r' *)
Definition dq : char := 34%N.   (* the double quote *)

(** The characters [\s] accepts in a [str] pattern: the ASCII table of
    CPython ([\t\n\v\f\r], the separators 0x1C-0x1F and the space)
    followed by the Unicode white-space code points. *)
Definition is_space (c : char) : bool :=
  ((9 <=? c) && (c <=? 13) || (28 <=? c) && (c <=? 32)
   || (c =? 133) || (c =? 160) || (c =? 5760)
   || (8192 <=? c) && (c <=? 8202)
   || (c =? 8232) || (c =? 8233) || (c =? 8239) || (c =? 8287)
   || (c =? 12288))%N.

(** [sep.join(parts)]. *)
Fixpoint join (sep : text) (parts : list text) : text :=
  match parts with
  | [] => []
  | [p] => p
  | p :: ps => p ++ sep ++ join sep ps
  end.

(** ** The exceptions the module can end with *)

Inductive exn : Type :=
| CalledProcessError (returncode : Z) (cmd : list text)
| UnicodeDecodeError
| AssertionError
| TypeError
| SystemExit (code : Z).

(** ** The fragment of [re] the module uses

    Both patterns of the class are concatenations of anchors, single
    characters and starred character sets, with one capturing group.  An
    item carries a flag saying whether it lies inside group 1. *)

Module Re.

Inductive cset : Type :=
| Lit (c : char)      (* a literal character *)
| Space               (* \s *)
| Dot                 (* .   : anything but '\n' *)
| NotNlCr.            (* [^\n\r] *)

Definition accepts (k : cset) (c : char) : bool :=
  match k with
  | Lit d => (c =? d)%N
  | Space => is_space c
  | Dot => negb (c =? nl)%N
  | NotNlCr => negb (c =? nl)%N && negb (c =? cr)%N
  end.

Inductive item : Type :=
| Bol                               (* ^ under re.MULTILINE *)
| Eol                               (* $ under re.MULTILINE *)
| One (grp : bool) (k : cset)       (* one character of the set *)
| Star (grp : bool) (k : cset).     (* greedy repetition *)

Definition pattern := list item.

(** [k+] is [k k*]; a literal word is one [One] per character. *)
Definition plus (grp : bool) (k : cset) : pattern := [One grp k; Star grp k].
Definition word (s : string) : pattern := map (fun c => One false (Lit c)) (u s).

(** [^] matches at the start of the string and right after a newline,
    [$] at the end of the string and right before a newline. *)
Definition at_bol (prev : option char) : bool :=
  match prev with
  | None => true
  | Some c => (c =? nl)%N
  end.

Definition at_eol (s : text) : bool :=
  match s with
  | [] => true
  | c :: _ => (c =? nl)%N
  end.

(** A successful match: the text of group 1, the last character
    consumed so far and what is left of the subject. *)
Record found : Type := Found { group1 : text; last : option char; rest : text }.

Definition capture (grp : bool) (cap : text) (c : char) : text :=
  if grp then cap ++ [c] else cap.

(** The backtracking matcher: a starred set first tries to take one
    more character and falls back to the continuation. *)
Fixpoint rmatch (p : pattern) (prev : option char) (s : text) (cap : text)
  : option found :=
  match p with
  | [] => Some (Found cap prev s)
  | Bol :: p' => if at_bol prev then rmatch p' prev s cap else None
  | Eol :: p' => if at_eol s then rmatch p' prev s cap else None
  | One g k :: p' =>
      match s with
      | c :: s' => if accepts k c then rmatch p' (Some c) s' (capture g cap c) else None
      | [] => None
      end
  | Star g k :: p' =>
      (fix star (prev : option char) (s : text) (cap : text) : option found :=
         match s with
         | c :: s' =>
             if accepts k c then
               match star (Some c) s' (capture g cap c) with
               | Some r => Some r
               | None => rmatch p' prev s cap
               end
             else rmatch p' prev s cap
         | [] => rmatch p' prev s cap
         end) prev s cap
  end.

(** [pattern.search(s)]: the leftmost position at which the pattern
    matches. *)
Fixpoint search_from (p : pattern) (prev : option char) (s : text) : option found :=
  match rmatch p prev s [] with
  | Some r => Some r
  | None =>
      match s with
      | c :: s' => search_from p (Some c) s'
      | [] => None
      end
  end.

Definition search (p : pattern) (s : text) : option found := search_from p None s.

(** [pattern.findall(s)] for a pattern with one group: the group of
    every match, scanning left to right and resuming where the previous
    match ended.  A match that consumed nothing resumes one character
    further.  [fuel] bounds the number of resumptions; the length of the
    subject plus one is enough, since every resumption drops at least
    one character. *)
Fixpoint findall_from (fuel : nat) (p : pattern) (prev : option char) (s : text) : list text :=
  match fuel with
  | O => []
  | S fuel' =>
      match rmatch p prev s [] with
      | Some r =>
          if (List.length (rest r) <? List.length s)%nat
          then group1 r :: findall_from fuel' p (last r) (rest r)
          else group1 r ::
               match s with
               | c :: s' => findall_from fuel' p (Some c) s'
               | [] => []
               end
      | None =>
          match s with
          | c :: s' => findall_from fuel' p (Some c) s'
          | [] => []
          end
      end
  end.

Definition findall (p : pattern) (s : text) : list text :=
  findall_from (S (List.length s)) p None s.

End Re.

(** ** The two patterns of [GitAutoSync] *)

(** The pattern [deleted:\s+([^\n\r]+)]. *)
Definition DELETED_FILE_REGEX : Re.pattern :=
  Re.word "deleted:" ++ Re.plus false Re.Space ++ Re.plus true Re.NotNlCr.

(** The multi-line pattern [^ \s* M \s+ ( .* ) $], its parts spaced out
    here for readability. *)
Definition MODIFIED_FILE_REGEX : Re.pattern :=
  [Re.Bol; Re.Star false Re.Space; Re.One false (Re.Lit 77%N)]
    ++ Re.plus false Re.Space ++ [Re.Star true Re.Dot; Re.Eol].

(** What the pattern asks for after the leading white space. *)
Definition after_indent : Re.pattern :=
  Re.One false (Re.Lit 77%N) :: Re.plus false Re.Space ++ [Re.Star true Re.Dot; Re.Eol].

Definition is_some {A} (o : option A) : bool :=
  match o with
  | Some _ => true
  | None => false
  end.

(** [MODIFIED_FILE_REGEX.search(output) is not None] *)
Definition modified_found (output : text) : bool :=
  match Re.search MODIFIED_FILE_REGEX output with
  | Some _ => true
  | None => false
  end.

Definition is_byte (b : byte) (c : byte) : bool := Byte.eqb b c.

(** ** Lines of a text

    The lines of a text, each with its terminating newline when it has
    one: the text is cut after every ['\n'], the only character the
    anchors of a multi-line pattern look at. *)
Fixpoint lines (s : text) : list text :=
  match s with
  | [] => []
  | c :: s' =>
      if (c =? nl)%N then [c] :: lines s'
      else match lines s' with
           | [] => [[c]]
           | l :: ls => (c :: l) :: ls
           end
  end.

(** A line that reads: optional white space, the letter M, white space,
    and then the rest of the line. *)
Definition marker_line (l : text) : Prop :=
  exists (ws : text) (sp : char) (path : text),
    l = ws ++ 77%N :: sp :: path
    /\ forallb is_space ws = true /\ is_space sp = true.

Fixpoint marker_lineb (l : text) : bool :=
  match l with
  | [] => false
  | c :: l' =>
      if is_space c then marker_lineb l'
      else (c =? 77)%N && match l' with
                          | sp :: _ => is_space sp
                          | [] => false
                          end
  end.

(** A line of the porcelain format: two status columns, a space and the
    path, with its newline. *)
Definition porcelain_line (x y : char) (path : text) : text :=
  x :: y :: 32%N :: path ++ [nl].

(** Equality of texts and of commands. *)
Fixpoint text_eqb (a b : text) : bool :=
  match a, b with
  | [], [] => true
  | x :: a', y :: b' => (x =? y)%N && text_eqb a' b'
  | _, _ => false
  end.

Fixpoint cmd_eqb (a b : list text) : bool :=
  match a, b with
  | [], [] => true
  | x :: a', y :: b' => text_eqb x y && cmd_eqb a' b'
  | _, _ => false
  end.

(** ** Values of the namespace

    What an attribute of the namespace of [main] holds: a [str], or the
    empty list, which is what [argparse] stores when the one argument
    string of an option is the separator of two dashes. *)
Inductive value : Type :=
| Str (s : text)
| EmptyList.

(** ** The command line of [main]

    [argparse] as CPython 3.11 has it, for a parser built the way [main]
    builds its own: prefix character [-], abbreviations allowed, no
    positional argument, and besides the [-h] and [--help] that
    [ArgumentParser] adds itself only arguments added as
    [add_argument(flag, default=..., required=...)], each storing the one
    string that follows it. *)

Module Argparse.

Record argument : Type :=
  Argument { flag : text; default : option text; required : bool }.

(** The two kinds of action: [_HelpAction], which takes no argument, and
    [_StoreAction] with [nargs=None]. *)
Inductive action : Type :=
| Help
| Store (a : argument).

(** [parser._option_string_actions], in the order of insertion. *)
Definition option_string_actions (spec : list argument) : list (text * action) :=
  (u "-h", Help) :: (u "--help", Help) :: map (fun a => (flag a, Store a)) spec.

Fixpoint action_of (s : text) (m : list (text * action)) : option action :=
  match m with
  | [] => None
  | (o, act) :: m' => if text_eqb s o then Some act else action_of s m'
  end.

(** [s.startswith(p)] *)
Fixpoint startswith (s p : text) {struct p} : bool :=
  match p, s with
  | [], _ => true
  | c :: p', d :: s' => (c =? d)%N && startswith s' p'
  | _ :: _, [] => false
  end.

(** [s.split('=', 1)] when [s] has an equals sign. *)
Fixpoint split_eq (s : text) : option (text * text) :=
  match s with
  | [] => None
  | c :: s' =>
      if (c =? 61)%N then Some ([], s')
      else match split_eq s' with
           | Some (a, b) => Some (c :: a, b)
           | None => None
           end
  end.

(** The characters [\d] accepts in a [str] pattern: the decimal digits
    of Unicode 14, in ranges. *)
Definition digit_ranges : list (N * N) :=
  [(48, 57); (1632, 1641); (1776, 1785); (1984, 1993); (2406, 2415);
   (2534, 2543); (2662, 2671); (2790, 2799); (2918, 2927); (3046, 3055);
   (3174, 3183); (3302, 3311); (3430, 3439); (3558, 3567); (3664, 3673);
   (3792, 3801); (3872, 3881); (4160, 4169); (4240, 4249); (6112, 6121);
   (6160, 6169); (6470, 6479); (6608, 6617); (6784, 6793); (6800, 6809);
   (6992, 7001); (7088, 7097); (7232, 7241); (7248, 7257); (42528, 42537);
   (43216, 43225); (43264, 43273); (43472, 43481); (43504, 43513);
   (43600, 43609); (44016, 44025); (65296, 65305); (66720, 66729);
   (68912, 68921); (69734, 69743); (69872, 69881); (69942, 69951);
   (70096, 70105); (70384, 70393); (70736, 70745); (70864, 70873);
   (71248, 71257); (71360, 71369); (71472, 71481); (71904, 71913);
   (72016, 72025); (72784, 72793); (73040, 73049); (73120, 73129);
   (92768, 92777); (92864, 92873); (93008, 93017); (120782, 120831);
   (123200, 123209); (123632, 123641); (125264, 125273);
   (130032, 130041)]%N.

Definition is_digit (c : char) : bool :=
  existsb (fun r => (fst r <=? c) && (c <=? snd r))%N digit_ranges.

Fixpoint skip_digits (s : text) : text :=
  match s with
  | c :: s' => if is_digit c then skip_digits s' else s
  | [] => []
  end.

(** Where [$] matches without [re.MULTILINE]: at the end, and before a
    newline that ends the string. *)
Definition at_end (s : text) : bool :=
  match s with
  | [] => true
  | [c] => (c =? nl)%N
  | _ => false
  end.

(** [digits(s)] is what follows one or more digits at the start of [s]. *)
Definition digits (s : text) : option text :=
  match s with
  | c :: s' => if is_digit c then Some (skip_digits s') else None
  | [] => None
  end.

(** [parser._negative_number_matcher.match(s)], the pattern being
    [^-\d+$|^-\d*\.\d+$]. *)
Definition negative_number (s : text) : bool :=
  match s with
  | 45%N :: r =>
      match digits r with
      | Some r' => at_end r'
      | None => false
      end
      || match skip_digits r with
         | 46%N :: r' =>
             match digits r' with
             | Some r'' => at_end r''
             | None => false
             end
         | _ => false
         end
  | _ => false
  end.

(** [parser._has_negative_number_optionals] *)
Definition has_negative_number_optionals (m : list (text * action)) : bool :=
  existsb (fun e => negative_number (fst e)) m.

Definition is_prefix_char (c : char) : bool := (c =? 45)%N.

(** [parser._get_option_tuples(option_string)] *)
Definition get_option_tuples (m : list (text * action)) (option_string : text)
  : list (action * text * option text) :=
  match option_string with
  | c0 :: c1 :: explicit =>
      if is_prefix_char c0 && is_prefix_char c1 then
        let '(option_prefix, explicit_arg) :=
          match split_eq option_string with
          | Some (p, e) => (p, Some e)
          | None => (option_string, None)
          end in
        flat_map (fun e => if startswith (fst e) option_prefix
                           then [(snd e, fst e, explicit_arg)] else []) m
      else if is_prefix_char c0 then
        flat_map (fun e => if text_eqb (fst e) [c0; c1]
                           then [(snd e, fst e, Some explicit)]
                           else if startswith (fst e) option_string
                                then [(snd e, fst e, None)] else []) m
      else []
  | _ => []
  end.

(** What [parser._parse_optional(arg_string)] answers: [None] for a
    positional, a triple of action (none for an option the parser does
    not have), option string and explicit argument, or the error of an
    ambiguous abbreviation. *)
Inductive parsed : Type :=
| Positional
| Optional (act : option action) (option_string : text) (explicit_arg : option text)
| Ambiguous.

Definition parse_optional (m : list (text * action)) (arg_string : text) : parsed :=
  match arg_string with
  | [] => Positional
  | c :: rest =>
      if negb (is_prefix_char c) then Positional
      else
        match action_of arg_string m with
        | Some act => Optional (Some act) arg_string None
        | None =>
            match rest with
            | [] => Positional
            | _ :: _ =>
                let split :=
                  match split_eq arg_string with
                  | Some (option_string, explicit_arg) =>
                      match action_of option_string m with
                      | Some act => Some (Optional (Some act) option_string (Some explicit_arg))
                      | None => None
                      end
                  | None => None
                  end in
                match split with
                | Some r => r
                | None =>
                    match get_option_tuples m arg_string with
                    | _ :: _ :: _ => Ambiguous
                    | [(act, option_string, explicit_arg)] =>
                        Optional (Some act) option_string explicit_arg
                    | [] =>
                        if negative_number arg_string
                           && negb (has_negative_number_optionals m)
                        then Positional
                        else if existsb (fun c => (c =? 32)%N) arg_string then Positional
                        else Optional None arg_string None
                    end
                end
            end
        end
  end.

(** One letter of [arg_strings_pattern], with what the first pass noted
    for an option. *)
Inductive mark : Type :=
| A
| O (act : option action) (option_string : text) (explicit_arg : option text)
| Dashes.

(** The first pass of [_parse_known_args]: every argument string with
    its mark.  Everything after [--] is an argument; an ambiguous
    abbreviation is an error. *)
Fixpoint arg_strings_pattern (m : list (text * action)) (arg_strings : list text)
  : exn + list (text * mark) :=
  match arg_strings with
  | [] => inr []
  | s :: rest =>
      if text_eqb s (u "--") then inr ((s, Dashes) :: map (fun a => (a, A)) rest)
      else
        match parse_optional m s with
        | Ambiguous => inl (SystemExit 2)
        | r =>
            match arg_strings_pattern m rest with
            | inl e => inl e
            | inr marks =>
                inr ((s, match r with
                         | Optional act o e => O act o e
                         | _ => A
                         end) :: marks)
            end
        end
  end.

(** [option_string[1] not in chars] *)
Definition single_dash (option_string : text) : bool :=
  match option_string with
  | _ :: c :: _ => negb (is_prefix_char c)
  | _ => false
  end.

(** The actions one option string stands for, each with its argument
    strings, and whether the following argument string was taken.
    [next] is the following argument string when its mark is [A]. *)
Definition tuples : Type := list (action * list text) * bool.

(** [consume_optional] without an explicit argument: the action matches
    its pattern against what follows. *)
Definition match_following (act : action) (next : option text) : exn + tuples :=
  match act with
  | Help => inr ([(Help, [])], false)
  | Store a =>
      match next with
      | Some v => inr ([(Store a, [v])], true)
      | None => inl (SystemExit 2)
      end
  end.

(** The loop of [consume_optional] with an explicit argument.  A store
    action takes it.  The help action takes none: behind a single dash
    the first character of the explicit argument is read as a further
    short option, and anything else is an error. *)
Fixpoint match_explicit (m : list (text * action)) (act : action)
  (option_string : text) (explicit_arg : text) (next : option text) : exn + tuples :=
  match act with
  | Store a => inr ([(Store a, [explicit_arg])], false)
  | Help =>
      match explicit_arg, option_string with
      | c :: new_explicit_arg, prefix_char :: _ =>
          if single_dash option_string then
            match action_of [prefix_char; c] m with
            | Some act' =>
                match
                  match new_explicit_arg with
                  | [] => match_following act' next
                  | _ :: _ => match_explicit m act' [prefix_char; c] new_explicit_arg next
                  end
                with
                | inr (ts, took) => inr ((Help, []) :: ts, took)
                | inl e => inl e
                end
            | None => inl (SystemExit 2)
            end
          else inl (SystemExit 2)
      | _, _ => inl (SystemExit 2)
      end
  end.

(** The values seen so far, by flag; a later occurrence wins. *)
Definition seen := list (text * value).

Fixpoint lookup (f : text) (ns : seen) : option value :=
  match ns with
  | [] => None
  | (g, v) :: ns' => if text_eqb f g then Some v else lookup f ns'
  end.

(** [arg_strings.remove('--')] *)
Fixpoint remove_dashes (arg_strings : list text) : list text :=
  match arg_strings with
  | [] => []
  | s :: rest => if text_eqb s (u "--") then rest else s :: remove_dashes rest
  end.

(** [_get_values] for a store action: the one string, or, when removing
    [--] left none, the list of what is left. *)
Definition get_values (arg_strings : list text) : value :=
  match remove_dashes arg_strings with
  | [v] => Str v
  | _ => EmptyList
  end.

(** [take_action] on each tuple in turn; the help action prints the
    help and exits with status 0. *)
Fixpoint take_actions (ts : list (action * list text)) (ns : seen) : exn + seen :=
  match ts with
  | [] => inr ns
  | (Help, _) :: _ => inl (SystemExit 0)
  | (Store a, args) :: ts' => take_actions ts' ((flag a, get_values args) :: ns)
  end.

(** The second pass: options are consumed from left to right, and what
    is neither an option of the parser nor taken by one is collected in
    [extras].  [skip] says that the string at the head was taken by the
    option before it. *)
Fixpoint consume (m : list (text * action)) (skip : bool) (args : list (text * mark))
  (ns : seen) (extras : list text) : exn + seen * list text :=
  match args with
  | [] => inr (ns, extras)
  | (s, k) :: rest =>
      if skip then consume m false rest ns extras
      else
        match k with
        | O (Some act) option_string explicit_arg =>
            let next :=
              match rest with
              | (v, A) :: _ => Some v
              | _ => None
              end in
            match
              match explicit_arg with
              | Some e => match_explicit m act option_string e next
              | None => match_following act next
              end
            with
            | inl e => inl e
            | inr (ts, took) =>
                match take_actions ts ns with
                | inl e => inl e
                | inr ns' => consume m took rest ns' extras
                end
            end
        | _ => consume m false rest ns (extras ++ [s])
        end
  end.

Definition missing (spec : list argument) (ns : seen) : list argument :=
  filter (fun a => required a && match lookup (flag a) ns with
                                 | Some _ => false
                                 | None => true
                                 end) spec.

(** [parser.parse_args(argv)] up to the namespace: a usage error exits
    with status 2. *)
Definition parse (spec : list argument) (argv : list text) : exn + seen :=
  let m := option_string_actions spec in
  match arg_strings_pattern m argv with
  | inl e => inl e
  | inr args =>
      match consume m false args [] [] with
      | inl e => inl e
      | inr (ns, extras) =>
          match missing spec ns, extras with
          | [], [] => inr ns
          | _, _ => inl (SystemExit 2)
          end
      end
  end.

(** The attribute of the namespace for one argument: the value stored,
    else the default. *)
Definition attribute (ns : seen) (a : argument) : option value :=
  match lookup (flag a) ns with
  | Some v => Some v
  | None => option_map Str (default a)
  end.

End Argparse.

Definition git_url_arg : Argparse.argument :=
  Argparse.Argument (u "--git-url") None true.
Definition branch_name_arg : Argparse.argument :=
  Argparse.Argument (u "--branch-name") (Some (u "master")) false.
Definition repo_dir_arg : Argparse.argument :=
  Argparse.Argument (u "--repo-dir") (Some (u "./")) false.
Definition parser : list Argparse.argument :=
  [git_url_arg; branch_name_arg; repo_dir_arg].

(** [args]: the namespace [parse_args] returns. *)
Record Namespace : Type :=
  { args_git_url : option value;
    args_branch_name : option value;
    args_repo_dir : option value }.

Definition parse_args (argv : list text) : exn + Namespace :=
  match Argparse.parse parser argv with
  | inl e => inl e
  | inr ns =>
      inr {| args_git_url := Argparse.attribute ns git_url_arg;
             args_branch_name := Argparse.attribute ns branch_name_arg;
             args_repo_dir := Argparse.attribute ns repo_dir_arg |}
  end.

(** *** Vocabulary of the command line *)

(** The table of option strings of [main]. *)
Definition options : list (text * Argparse.action) := Argparse.option_string_actions parser.

(** The part of an argument string before its first equals sign. *)
Definition stem (a : text) : text :=
  match Argparse.split_eq a with
  | Some (p, _) => p
  | None => a
  end.

(** The argument string [a] names the option [f]: up to its equals
    sign, if it has one, it is [f] or an abbreviation of [f] that keeps
    the two dashes and at least one more character. *)
Definition names (f a : text) : bool :=
  (2 <? List.length (stem a))%nat && Argparse.startswith f (stem a).

(** The argument string asks for the help: it starts with the short
    option, or names the long one. *)
Definition asks_help (a : text) : bool :=
  Argparse.startswith a (u "-h") || names (u "--help") a.

Definition dash_led (a : text) : bool :=
  match a with
  | c :: _ => Argparse.is_prefix_char c
  | [] => false
  end.

(** A marked argument string carries what [parse_optional] read. *)
Definition marked (x : text * Argparse.mark) : Prop :=
  match snd x with
  | Argparse.O act o e => Argparse.parse_optional options (fst x) = Argparse.Optional act o e
  | _ => True
  end.

(** ** [class GitAutoSync]: the instance, its constructor and the commands
    it builds *)

Record GitAutoSync : Type :=
  { git_url : text; branch_name : text; repo_dir : text }.

(** Truth value of a [str], and the value of [a and b]. *)
Definition truthy (s : text) : bool :=
  match s with
  | [] => false
  | _ :: _ => true
  end.

Definition py_and (a b : text) : text := if truthy a then b else a.

(** [GitAutoSync.__init__]: the constructor either fails its assertion
    or returns the instance. *)
Definition __init__ (git_url branch_name repo_dir : text) : exn + GitAutoSync :=
  if truthy (py_and git_url branch_name)
  then inr {| git_url := git_url; branch_name := branch_name; repo_dir := repo_dir |}
  else inl AssertionError.

Definition git (args : list string) : list text := u "git" :: map u args.

(** [cwd=self.repo_dir] *)
Definition cwd (self : GitAutoSync) : option text := Some (repo_dir self).

Definition clone_cmd (self : GitAutoSync) : list text :=
  git ["clone"%string] ++ [git_url self; repo_dir self].
Definition checkout_cmd (self : GitAutoSync) : list text :=
  git ["checkout"%string] ++ [branch_name self].
Definition restore_cmd (filename : text) : list text :=
  git ["checkout"%string; "--"%string] ++ [filename].
Definition fetch_cmd : list text := git ["fetch"%string].
Definition cat_file_cmd (self : GitAutoSync) (filename : text) : list text :=
  git ["cat-file"%string; "-e"%string]
      ++ [u "origin/" ++ branch_name self ++ u ":" ++ filename].
Definition merge_cmd (self : GitAutoSync) : list text :=
  git ["merge"%string; "-Xours"%string] ++ [u "origin/" ++ branch_name self].
Definition status_cmd : list text := git ["status"%string].
Definition porcelain_cmd : list text := git ["status"%string; "--porcelain"%string].
Definition add_cmd : list text := git ["add"%string; "-A"%string].
Definition config_email_cmd : list text :=
  git ["config"%string; "user.email"%string]
      ++ [[dq] ++ u "gitautopull@email.com" ++ [dq]].
Definition config_name_cmd : list text :=
  git ["config"%string; "user.name"%string] ++ [[dq] ++ u "GitAutoPull" ++ [dq]].
Definition commit_cmd : list text := git ["commit"%string; "-m"%string; "WIP"%string].

(** ** A scripted host

    A host whose child processes answer from a table: the [n]-th process
    started gets the output and exit status the table gives for its
    command.  It decodes ASCII and replaces every other byte. *)

Module Script.

Record world : Type :=
  World { present : bool; started : nat; table : nat -> list text -> list byte * Z }.

Definition path_exists (_ : text) (w : world) : bool := present w.

Definition spawn (cmd : list text) (_ : option text) (_ : bool) (w : world)
  : list byte * Z * world :=
  (table w (started w) cmd, World (present w) (S (started w)) (table w)).

Definition decode_replace (bs : list byte) : text :=
  map (fun b => let n := Byte.to_N b in if (n <? 128)%N then n else 65533%N) bs.

Definition decode_strict (bs : list byte) : option text :=
  if forallb (fun b => (Byte.to_N b <? 128)%N) bs
  then Some (decode_replace bs) else None.

Definition bytes (s : string) : list byte := map byte_of_ascii (list_ascii_of_string s).

End Script.

(** ** Sample runs

    One instance and a few hosts, used to run the program on. *)

Module Sample.

Definition self : GitAutoSync :=
  {| git_url := u "https://example.org/repo.git";
     branch_name := u "main";
     repo_dir := u "work" |}.

(** Every process succeeds and prints nothing. *)
Definition quiet : nat -> list text -> list byte * Z := fun _ _ => ([], 0%Z).

(** The answer [reply] to the command [cmd], and [otherwise] to the rest. *)
Definition answer (cmd : list text) (reply : list byte * Z)
  (otherwise : nat -> list text -> list byte * Z) : nat -> list text -> list byte * Z :=
  fun n c => if cmd_eqb c cmd then reply else otherwise n c.

(** No local directory yet. *)
Definition fresh : Script.world := Script.World false 0 quiet.

(** A clean clone with nothing new upstream. *)
Definition clean : Script.world := Script.World true 0 quiet.

(** A clone with one tracked file modified. *)
Definition modified : Script.world :=
  Script.World true 0
    (answer porcelain_cmd (Script.bytes " M notes.txt" ++ [x0a], 0%Z) quiet).

(** A clone with one new file that is not tracked. *)
Definition untracked : Script.world :=
  Script.World true 0
    (answer porcelain_cmd (Script.bytes "?? new.txt" ++ [x0a], 0%Z) quiet).

(** The merge stops on a conflict every time it is tried. *)
Definition conflict : Script.world :=
  Script.World true 0 (answer (merge_cmd self) ([], 1%Z) quiet).

(** The merge dies with a fatal error. *)
Definition fatal_merge : Script.world :=
  Script.World true 0 (answer (merge_cmd self) ([], 128%Z) quiet).

Definition status_deleted : list byte :=
  Script.bytes "	deleted:    gone.txt" ++ [x0a].

(** One file deleted locally; the fetch of the existence check exits
    with 128. *)
Definition fetch_128 : Script.world :=
  Script.World true 0
    (answer status_cmd (status_deleted, 0%Z) (answer fetch_cmd ([], 128%Z) quiet)).

(** A process whose output ends in a progress update closed by a
    carriage return. *)
Definition progress : Script.world :=
  Script.World true 0
    (fun _ _ => (Script.bytes "10%" ++ [x0d] ++ Script.bytes "50%" ++ [x0d], 0%Z)).

(** A failing process whose last line has no newline. *)
Definition partial_line : Script.world :=
  Script.World true 0
    (fun _ _ => (Script.bytes "ok" ++ [x0a] ++ Script.bytes "partial", 3%Z)).

(** A process that reports progress and ends its output with a newline. *)
Definition progress_done : Script.world :=
  Script.World true 0
    (fun _ _ => (Script.bytes "10%" ++ [x0d] ++ Script.bytes "done" ++ [x0d; x0a], 0%Z)).

(** The status query prints a byte that is not UTF-8. *)
Definition garbled_status : Script.world :=
  Script.World true 0 (answer status_cmd ([xff], 0%Z) quiet).

(** The directory is not a repository: the status query exits with 128. *)
Definition not_a_repository : Script.world :=
  Script.World true 0 (answer status_cmd ([], 128%Z) quiet).

(** A modified tracked file and a merge that stops on a conflict. *)
Definition modified_conflict : Script.world :=
  Script.World true 0
    (answer porcelain_cmd (Script.bytes " M notes.txt" ++ [x0a], 0%Z)
       (answer (merge_cmd self) ([], 1%Z) quiet)).

(** One file deleted locally and still present upstream. *)
Definition deleted_one : Script.world :=
  Script.World true 0 (answer status_cmd (status_deleted, 0%Z) quiet).

Definition status_two_deleted : list byte :=
  Script.bytes "	deleted:    gone.txt" ++ [x0a]
    ++ Script.bytes "	deleted:    next.txt" ++ [x0a].

(** What the status query leaves of a world: one more process has been
    started. *)
Definition queried (w : Script.world) : Script.world :=
  Script.World (Script.present w) (S (Script.started w)) (Script.table w).

(** Two files deleted locally.  Both are still there upstream. *)
Definition two_deleted : Script.world :=
  Script.World true 0 (answer status_cmd (status_two_deleted, 0%Z) quiet).

(** Two files deleted locally.  The first is absent upstream, so that
    [cat-file] exits with 128 for it. *)
Definition first_absent_upstream : Script.world :=
  Script.World true 0
    (answer status_cmd (status_two_deleted, 0%Z)
       (answer (cat_file_cmd self (u "gone.txt")) ([], 128%Z) quiet)).

(** Two files deleted locally.  [cat-file] exits with 1 for the first. *)
Definition first_check_fails : Script.world :=
  Script.World true 0
    (answer status_cmd (status_two_deleted, 0%Z)
       (answer (cat_file_cmd self (u "gone.txt")) ([], 1%Z) quiet)).

(** Two files deleted locally.  Both are there upstream, but restoring
    the first exits with 128. *)
Definition first_restore_128 : Script.world :=
  Script.World true 0
    (answer status_cmd (status_two_deleted, 0%Z)
       (answer (restore_cmd (u "gone.txt")) ([], 128%Z) quiet)).

(** Two files deleted locally, and no way to reach the remote: every
    fetch exits with 128. *)
Definition two_deleted_fetch_128 : Script.world :=
  Script.World true 0
    (answer status_cmd (status_two_deleted, 0%Z) (answer fetch_cmd ([], 128%Z) quiet)).

(** A clone whose one changed file is staged and then modified again. *)
Definition staged_and_modified : Script.world :=
  Script.World true 0
    (answer porcelain_cmd (Script.bytes "MM notes.txt" ++ [x0a], 0%Z) quiet).

(** No local directory yet, and a remote whose primary branch is not
    called [master]: the clone succeeds, and [git checkout master] finds
    no such branch. *)
Definition no_master : Script.world :=
  Script.World false 0
    (answer (git ["checkout"%string; "master"%string])
       (Script.bytes "error: pathspec 'master' did not match any file(s) known to git"
          ++ [x0a], 1%Z)
       quiet).

End Sample.

(** ** Traces and programs *)

(** What a run leaves behind, in order: the lines a generator yields,
    the child processes it starts, the messages it logs and the lines
    [main] prints. *)
Inductive event : Type :=
| Yield (line : text)
| Exec (cmd : list text) (cwd : option text)
| Log (msg : text)
| Print (line : text).

Definition yielded (t : list event) : list text :=
  flat_map (fun e => match e with Yield l => [l] | _ => [] end) t.

Definition commands (t : list event) : list (list text) :=
  flat_map (fun e => match e with Exec c _ => [c] | _ => [] end) t.

Section Host.

(** The operating system, as far as the module looks at it. *)
Variable World : Type.
(** [os.path.exists] *)
Variable path_exists : text -> World -> bool.
(** A child process run to its end: command, working directory and
    whether stderr is merged into stdout; the bytes read from its
    stdout pipe and its exit status.  The process is taken to start and
    to end: a missing executable or working directory, and a child that
    never closes its output, are outside the model. *)
Variable spawn : list text -> option text -> bool -> World -> list byte * Z * World.
(** [bytes.decode('utf8', 'replace')] and [bytes.decode('utf-8')] *)
Variable decode_replace : list byte -> text.
Variable decode_strict : list byte -> option text.

Record result (A : Type) : Type :=
  Res { trace : list event; final : World; outcome : exn + A }.

(** A function or a generator driven to exhaustion. *)
Definition prog (A : Type) : Type := World -> result A.

Definition ret {A} (a : A) : prog A := fun w => Res [] w (inr a).
Definition raise {A} (e : exn) : prog A := fun w => Res [] w (inl e).
Definition emit (e : event) : prog unit := fun w => Res [e] w (inr tt).

Definition bind {A B} (m : prog A) (f : A -> prog B) : prog B :=
  fun w =>
    let r := m w in
    match outcome r with
    | inl e => Res (trace r) (final r) (inl e)
    | inr a =>
        let r' := f a (final r) in
        Res (trace r ++ trace r') (final r') (outcome r')
    end.

(** [try: m  except CalledProcessError as e: h e]; any other exception
    passes through. *)
Definition try_except {A} (m : prog A) (h : Z -> list text -> prog A) : prog A :=
  fun w =>
    let r := m w in
    match outcome r with
    | inl (CalledProcessError rc cmd) =>
        let r' := h rc cmd (final r) in
        Res (trace r ++ trace r') (final r') (outcome r')
    | _ => r
    end.

Notation "x <- m ;; k" := (bind m (fun x => k))
  (at level 61, m at next level, right associativity).
Notation "m ;; k" := (bind m (fun _ => k))
  (at level 61, right associativity).

Fixpoint for_each {A} (xs : list A) (body : A -> prog unit) : prog unit :=
  match xs with
  | [] => ret tt
  | x :: xs' => body x ;; for_each xs' body
  end.

Definition logging_info (msg : text) : prog unit := emit (Log msg).
Definition os_path_exists (p : text) : prog bool :=
  fun w => Res [] w (inr (path_exists p w)).

(** *** [execute_cmd] *)

(** The body of [for c in iter(partial(proc.stdout.read, 1), b'')]:
    [buf] and [c_last] are the loop's two variables, [flush] is the local
    function of that name (it joins and decodes [buf]; emptying [buf] is
    written out at its two call sites), and the result is the lines
    yielded while the remaining bytes [cs] are read.  When [cs] runs out
    the loop ends and [buf] is not looked at again. *)
Fixpoint read_loop {L : Type} (flush : list byte -> L)
  (cs : list byte) (buf : list byte) (c_last : option byte) : list L :=
  match cs with
  | [] => []
  | c :: cs' =>
      let after_cr :=
        match c_last with
        | Some l => is_byte l x0d
        | None => false
        end in
      let flush1 :=
        after_cr && negb (Nat.eqb (List.length buf) 0) && negb (is_byte c x0a) in
      let out1 := if flush1 then [flush buf] else [] in
      let buf1 := (if flush1 then [] else buf) ++ [c] in
      let flush2 := is_byte c x0a in
      let out2 := if flush2 then [flush buf1] else [] in
      let buf2 := if flush2 then [] else buf1 in
      out1 ++ out2 ++ read_loop flush cs' buf2 (Some c)
  end.

(** The value of [buf] when the loop ends; the generator never reads it. *)
Fixpoint leftover (cs : list byte) (buf : list byte) (c_last : option byte)
  : list byte :=
  match cs with
  | [] => buf
  | c :: cs' =>
      let after_cr :=
        match c_last with
        | Some l => is_byte l x0d
        | None => false
        end in
      let flush1 :=
        after_cr && negb (Nat.eqb (List.length buf) 0) && negb (is_byte c x0a) in
      let buf1 := (if flush1 then [] else buf) ++ [c] in
      let buf2 := if is_byte c x0a then [] else buf1 in
      leftover cs' buf2 (Some c)
  end.

(** [c_last] when the loop ends. *)
Definition last_read (cs : list byte) (c_last : option byte) : option byte :=
  fold_left (fun _ c => Some c) cs c_last.

(** A byte that is neither a newline nor a carriage return. *)
Definition plain (b : byte) : Prop := b <> x0a /\ b <> x0d.

Definition echo (cmd : list text) : text :=
  u "$ " ++ join (u " ") cmd ++ [nl].

Definition execute_cmd (cmd : list text) (cwd : option text) : prog unit :=
  fun w =>
    let '(out, ret, w') := spawn cmd cwd true w in
    Res (Yield (echo cmd) :: Exec cmd cwd :: map Yield (read_loop decode_replace out [] None))
        w'
        (if (ret =? 0)%Z then inr tt else inl (CalledProcessError ret cmd)).

(** [subprocess.check_output]: stdout only, raising on a nonzero exit. *)
Definition check_output (cmd : list text) (cwd : option text) : prog (list byte) :=
  fun w =>
    let '(out, ret, w') := spawn cmd cwd false w in
    Res [Exec cmd cwd] w'
        (if (ret =? 0)%Z then inr out else inl (CalledProcessError ret cmd)).

Definition decode (b : list byte) : prog text :=
  match decode_strict b with
  | Some s => ret s
  | None => raise UnicodeDecodeError
  end.

(** *** The methods of [GitAutoSync] *)

Definition _initialize_repo (self : GitAutoSync) : prog unit :=
  logging_info (u "Repo " ++ repo_dir self ++ u " doesn't exist. Cloning...") ;;
  execute_cmd (clone_cmd self) None ;;
  execute_cmd (checkout_cmd self) (cwd self) ;;
  logging_info (u "Repo " ++ repo_dir self ++ u " initialized").

(** The handler both [except] clauses of the deleted-file path share:
    [if git_err.returncode != code: raise]. *)
Definition reraise_unless (code : Z) (returncode : Z) (cmd : list text) : prog unit :=
  if negb (returncode =? code)%Z
  then raise (CalledProcessError returncode cmd)
  else ret tt.

Definition _raise_error_if_git_file_not_exists (self : GitAutoSync) (filename : text)
  : prog unit :=
  try_except (execute_cmd fetch_cmd (cwd self)) (reraise_unless 1) ;;
  execute_cmd (cat_file_cmd self filename) (cwd self).

(** The body of the loop of [_reset_deleted_files]. *)
Definition reset_one (self : GitAutoSync) (filename : text) : prog unit :=
  try_except
    (_raise_error_if_git_file_not_exists self filename ;;
     execute_cmd (restore_cmd filename) (cwd self) ;;
     logging_info (u "Resetted " ++ filename))
    (reraise_unless 128).

Definition _reset_deleted_files (self : GitAutoSync) : prog unit :=
  status <- check_output status_cmd (cwd self) ;;
  status_text <- decode status ;;
  let deleted_files := Re.findall DELETED_FILE_REGEX status_text in
  for_each deleted_files (reset_one self).

Definition _make_commit (self : GitAutoSync) : prog unit :=
  execute_cmd add_cmd (cwd self) ;;
  execute_cmd config_email_cmd (cwd self) ;;
  execute_cmd config_name_cmd (cwd self) ;;
  execute_cmd commit_cmd (cwd self) ;;
  logging_info (u "Made WIP commit").

Definition _save_local_changes (self : GitAutoSync) : prog unit :=
  execute_cmd (checkout_cmd self) (cwd self) ;;
  _make_commit self.

Definition _pull_and_resolve_conflicts (self : GitAutoSync) : prog unit :=
  logging_info (u "Starting pull from " ++ git_url self) ;;
  execute_cmd (checkout_cmd self) (cwd self) ;;
  execute_cmd fetch_cmd (cwd self) ;;
  try_except (execute_cmd (merge_cmd self) (cwd self))
    (fun returncode cmd =>
       if (returncode =? 1)%Z
       then _make_commit self ;; execute_cmd (merge_cmd self) (cwd self)
       else raise (CalledProcessError returncode cmd)) ;;
  logging_info (u "Pulled from " ++ git_url self).

Definition repo_is_dirty (self : GitAutoSync) : prog bool :=
  output <- check_output porcelain_cmd (cwd self) ;;
  output_text <- decode output ;;
  ret (modified_found output_text).

Definition _update_repo (self : GitAutoSync) : prog unit :=
  _reset_deleted_files self ;;
  dirty <- repo_is_dirty self ;;
  (if dirty : bool then _save_local_changes self else ret tt) ;;
  _pull_and_resolve_conflicts self.

Definition pull_from_remote (self : GitAutoSync) : prog unit :=
  logging_info (u "Pulling into " ++ repo_dir self ++ u " from " ++ git_url self
                  ++ u ", branch " ++ branch_name self) ;;
  present <- os_path_exists (repo_dir self) ;;
  (if negb present then _initialize_repo self else _update_repo self) ;;
  logging_info (u "Pulled from repo: " ++ git_url self).

(** [for line in gen: print(line)] *)
Definition print_each (gen : prog unit) : prog unit :=
  fun w =>
    let r := gen w in
    Res (flat_map (fun e => match e with
                            | Yield l => [Yield l; Print l]
                            | _ => [e]
                            end) (trace r))
        (final r) (outcome r).

(** Truth value of an attribute, and how [str.format] renders it. *)
Definition value_truthy (v : option value) : bool :=
  match v with
  | Some (Str s) => truthy s
  | _ => false
  end.

Definition format (v : option value) : text :=
  match v with
  | Some (Str s) => s
  | Some EmptyList => u "[]"
  | None => u "None"
  end.

(** [main], on the arguments after the program name.  With three
    strings the constructor and the generator are the ones above.  An
    attribute that is not a string fails the assertion of the constructor
    when it is the URL or the branch; a directory that is not a string is
    kept by the constructor, and [os.path.exists] raises [TypeError] on
    it when the generator is started, after the first message is
    logged. *)
Definition main (argv : list text) : prog unit :=
  match parse_args argv with
  | inl e => raise e
  | inr args =>
      match args_git_url args, args_branch_name args, args_repo_dir args with
      | Some (Str g), Some (Str b), Some (Str d) =>
          match __init__ g b d with
          | inl e => raise e
          | inr self => print_each (pull_from_remote self)
          end
      | g, b, d =>
          if value_truthy g && value_truthy b
          then print_each
                 (logging_info (u "Pulling into " ++ format d ++ u " from " ++ format g
                                  ++ u ", branch " ++ format b) ;;
                  raise TypeError)
          else raise AssertionError
      end
  end.

(** *** Vocabulary of the statements *)

(** What a child process started in [w] would exit with, and the world
    it leaves. *)
Definition exit_status (cmd : list text) (cwd : option text) (w : World) : Z :=
  snd (fst (spawn cmd cwd true w)).
Definition world_after (cmd : list text) (cwd : option text) (w : World) : World :=
  snd (spawn cmd cwd true w).

Definition output_of (cmd : list text) (cwd : option text) (w : World) : list byte :=
  fst (fst (spawn cmd cwd true w)).

(** The commands a program starts from [w], in order. *)
Definition cmds {A} (m : prog A) (w : World) : list (list text) :=
  commands (trace (m w)).

(** How often the merge command occurs in a list of commands. *)
Definition merges (self : GitAutoSync) (cs : list (list text)) : nat :=
  List.length (filter (cmd_eqb (merge_cmd self)) cs).

(** [r] with the events [t] in front of its trace. *)
Definition after {A} (t : list event) (r : result A) : result A :=
  Res (t ++ trace r) (final r) (outcome r).

(** What [_pull_and_resolve_conflicts] does before the merge, and what
    it does after the merge came back with status 1. *)
Definition before_merge (self : GitAutoSync) : prog unit :=
  logging_info (u "Starting pull from " ++ git_url self) ;;
  execute_cmd (checkout_cmd self) (cwd self) ;;
  execute_cmd fetch_cmd (cwd self).

Definition remediation (self : GitAutoSync) : prog unit :=
  (_make_commit self ;; execute_cmd (merge_cmd self) (cwd self)) ;;
  logging_info (u "Pulled from " ++ git_url self).

(** The restore step the loop body runs after the existence check. *)
Definition restore (self : GitAutoSync) (filename : text) : prog unit :=
  execute_cmd (restore_cmd filename) (cwd self) ;;
  logging_info (u "Resetted " ++ filename).

(** The first log message of [pull_from_remote], and the end of its
    update path: the pull and the closing log message. *)
Definition announce (self : GitAutoSync) : event :=
  Log (u "Pulling into " ++ repo_dir self ++ u " from " ++ git_url self
         ++ u ", branch " ++ branch_name self).

Definition finish (self : GitAutoSync) : prog unit :=
  _pull_and_resolve_conflicts self ;;
  logging_info (u "Pulled from repo: " ++ git_url self).

(** *** Vocabulary of the further properties *)

(** A line as the splitter cuts it: bytes that are neither newline nor
    carriage return, closed by a newline, by a carriage return or by the
    two in that order. *)
Definition terminated_line (l : list byte) : Prop :=
  exists p, Forall plain p
            /\ (l = p ++ [x0a] \/ l = p ++ [x0d] \/ l = p ++ [x0d; x0a]).

(** What the loop of [execute_cmd] can hold between two bytes: plain
    bytes, followed by a carriage return exactly when the last byte read
    was one. *)
Definition pending (buf : list byte) (c_last : option byte) : Prop :=
  exists p, Forall plain p
            /\ ((buf = p
                 /\ match c_last with Some l => is_byte l x0d | None => false end = false)
                \/ (buf = p ++ [x0d] /\ c_last = Some x0d)).

(** A result that ends in [CalledProcessError] names the last command
    the run started, with the nonzero status it exited with. *)
Definition reports_last {A} (r : result A) : Prop :=
  forall rc cmd,
    outcome r = inl (CalledProcessError rc cmd) ->
    rc <> 0%Z /\ exists t, commands (trace r) = t ++ [cmd].

Definition faithful {A} (m : prog A) : Prop := forall w, reports_last (m w).

(** A handler that raises again the error it was given. *)
Definition reraises (h : prog unit) (rc : Z) (cmd : list text) : Prop :=
  forall w, h w = Res [] w (inl (CalledProcessError rc cmd)).

(** A program that, when it ends normally, has started the command [c]
    last; and a program that starts no command. *)
Definition succeeds_after {A} (c : list text) (m : prog A) : Prop :=
  forall w a, outcome (m w) = inr a -> exists t, commands (trace (m w)) = t ++ [c].

Definition silent {A} (m : prog A) : Prop :=
  forall w, commands (trace (m w)) = [].

(** The five commands of [_save_local_changes], in order. *)
Definition save_commands (self : GitAutoSync) : list (list text) :=
  [checkout_cmd self; add_cmd; config_email_cmd; config_name_cmd; commit_cmd].

(** A property of traces holds of a program when it holds of the trace
    of every run; it is closed when it holds of the empty trace and of
    the concatenation of two traces it holds of. *)
Definition always {A} (P : list event -> Prop) (m : prog A) : Prop :=
  forall w, P (trace (m w)).

Definition closed (P : list event -> Prop) : Prop :=
  P [] /\ forall a b, P a -> P b -> P (a ++ b).

(** A trace in which every line yielded belongs to a command: it is
    made of log messages, of the two status queries, which are started
    without an echo, and of commands that are each announced by their
    echo line and followed by their output lines. *)
Inductive narrated : list event -> Prop :=
| narrated_nil : narrated []
| narrated_log msg t : narrated t -> narrated (Log msg :: t)
| narrated_query cmd cwd t :
    cmd = status_cmd \/ cmd = porcelain_cmd ->
    narrated t -> narrated (Exec cmd cwd :: t)
| narrated_command cmd cwd ls t :
    narrated t -> narrated (Yield (echo cmd) :: Exec cmd cwd :: map Yield ls ++ t).

(** The commands the deleted-file loop may start for the files [files]. *)
Definition reset_command (self : GitAutoSync) (files : list text) (c : list text)
  : Prop :=
  c = fetch_cmd
  \/ exists f, In f files /\ (c = cat_file_cmd self f \/ c = restore_cmd f).

(** How often the command [c] occurs in a list of commands, and a
    program that starts it at most [n] times. *)
Definition count (c : list text) (cs : list (list text)) : nat :=
  List.length (filter (cmd_eqb c) cs).

Definition at_most {A} (n : nat) (c : list text) (m : prog A) : Prop :=
  forall w, (count c (cmds m w) <= n)%nat.

(** The lines [main] printed. *)
Definition printed (t : list event) : list text :=
  flat_map (fun e => match e with Print l => [l] | _ => [] end) t.

(** What the loop of [main] makes of one event of the generator. *)
Definition echo_print (e : event) : list event :=
  match e with
  | Yield l => [Yield l; Print l]
  | _ => [e]
  end.

(** How many single characters of a pattern lie inside the group. *)
Definition ones (p : Re.pattern) : nat :=
  List.length (filter (fun it => match it with Re.One true _ => true | _ => false end) p).

(** The last character consumed after [xs], and the group after [xs]
    was taken by an item with flag [g]. *)
Definition lastc (prev : option char) (xs : text) : option char :=
  fold_left (fun _ c => Some c) xs prev.

Definition caps (g : bool) (cap xs : text) : text := if g then cap ++ xs else cap.

(** A character that is neither newline nor carriage return. *)
Definition inline (c : char) : Prop := c <> nl /\ c <> cr.

(** A file name as [git status] prints it on a line of its own: not
    empty, on one line, and not starting with white space. *)
Definition file_name (n : text) : Prop :=
  n <> [] /\ Forall inline n /\ (forall c rest, n = c :: rest -> is_space c = false).

(** The line [git status] prints for a deleted file: a tab, the word,
    four spaces and the name. *)
Definition deleted_entry (name : text) : text :=
  9%N :: u "deleted:" ++ u "    " ++ name ++ [nl].


(** * Properties *)

(** ** The dirtiness pattern *)

Lemma rmatch_star_nil g k p prev cap :
  Re.rmatch (Re.Star g k :: p) prev [] cap = Re.rmatch p prev [] cap.
Proof. reflexivity. Qed.

Lemma rmatch_star_cons g k p prev c s cap :
  Re.rmatch (Re.Star g k :: p) prev (c :: s) cap =
  if Re.accepts k c then
    match Re.rmatch (Re.Star g k :: p) (Some c) s (Re.capture g cap c) with
    | Some r => Some r
    | None => Re.rmatch p prev (c :: s) cap
    end
  else Re.rmatch p prev (c :: s) cap.
Proof. reflexivity. Qed.

Lemma is_some_true {A} (o : option A) :
  is_some o = true -> exists a, o = Some a.
Proof. destruct o; [eauto | discriminate]. Qed.

(** The group and the closing anchor can always be satisfied: [.*] stops
    at the first newline or at the end, where [$] holds. *)
Lemma group_then_eol prev s cap :
  is_some (Re.rmatch [Re.Star true Re.Dot; Re.Eol] prev s cap) = true.
Proof.
  revert prev cap; induction s as [|c s IH]; intros prev cap.
  - reflexivity.
  - rewrite rmatch_star_cons.
    destruct (Re.accepts Re.Dot c) eqn:Hc.
    + destruct (is_some_true _ (IH (Some c) (Re.capture true cap c))) as [r ->].
      reflexivity.
    + cbn in Hc. apply negb_false_iff in Hc. cbn. now rewrite Hc.
Qed.

Lemma spaces_then_group prev s cap :
  is_some (Re.rmatch [Re.Star false Re.Space; Re.Star true Re.Dot; Re.Eol] prev s cap)
  = true.
Proof.
  revert prev cap; induction s as [|c s IH]; intros prev cap.
  - rewrite rmatch_star_nil. apply group_then_eol.
  - rewrite rmatch_star_cons.
    destruct (Re.accepts Re.Space c).
    + destruct (is_some_true _ (IH (Some c) (Re.capture false cap c))) as [r ->].
      reflexivity.
    + apply group_then_eol.
Qed.

Lemma rmatch_after_indent prev s cap :
  is_some (Re.rmatch after_indent prev s cap) =
  match s with
  | c :: sp :: _ => (c =? 77)%N && is_space sp
  | _ => false
  end.
Proof.
  destruct s as [|c [|sp s]]; cbn -[is_space].
  - reflexivity.
  - now destruct (c =? 77)%N.
  - destruct (c =? 77)%N; [|reflexivity].
    destruct (is_space sp) eqn:Hsp; [|reflexivity].
    apply (spaces_then_group (Some sp) s cap).
Qed.

Lemma space_not_M c : is_space c = true -> (c =? 77)%N = false.
Proof.
  intros H. destruct (c =? 77)%N eqn:E; [|reflexivity].
  apply N.eqb_eq in E. subst c. discriminate H.
Qed.

Lemma rmatch_indent prev s cap :
  is_some (Re.rmatch (Re.Star false Re.Space :: after_indent) prev s cap)
  = marker_lineb s.
Proof.
  revert prev cap; induction s as [|c s IH]; intros prev cap.
  - reflexivity.
  - rewrite rmatch_star_cons. cbn [Re.accepts marker_lineb].
    destruct (is_space c) eqn:Hc.
    + specialize (IH (Some c) (Re.capture false cap c)).
      destruct (Re.rmatch (Re.Star false Re.Space :: after_indent) (Some c) s _).
      * exact IH.
      * rewrite rmatch_after_indent. rewrite <- IH.
        rewrite (space_not_M c Hc). now destruct s.
    + rewrite rmatch_after_indent. destruct s; [apply eq_sym, andb_false_r | reflexivity].
Qed.

Lemma rmatch_modified prev s :
  is_some (Re.rmatch MODIFIED_FILE_REGEX prev s []) = Re.at_bol prev && marker_lineb s.
Proof.
  change MODIFIED_FILE_REGEX with (Re.Bol :: Re.Star false Re.Space :: after_indent).
  cbn [Re.rmatch]. destruct (Re.at_bol prev); [|reflexivity].
  apply (rmatch_indent prev s []).
Qed.

Lemma search_from_unfold p prev s :
  is_some (Re.search_from p prev s) =
  is_some (Re.rmatch p prev s []) ||
  match s with
  | c :: s' => is_some (Re.search_from p (Some c) s')
  | [] => false
  end.
Proof.
  destruct s; cbn [Re.search_from]; destruct (Re.rmatch p prev _ []); reflexivity.
Qed.

(** [findall] has all the fuel it can use: any larger amount gives the
    same list. *)
Lemma findall_from_fuel p :
  forall n m prev s,
    (List.length s < n)%nat -> (List.length s < m)%nat ->
    Re.findall_from n p prev s = Re.findall_from m p prev s.
Proof.
  induction n as [|n IH]; intros m prev s Hn Hm; [lia|].
  destruct m as [|m]; [lia|].
  cbn [Re.findall_from].
  destruct (Re.rmatch p prev s []) as [r|].
  - destruct (List.length (Re.rest r) <? List.length s)%nat eqn:L.
    + apply Nat.ltb_lt in L. f_equal. apply IH; lia.
    + f_equal. destruct s as [|c s]; [reflexivity|]. cbn in Hn, Hm. apply IH; lia.
  - destruct s as [|c s]; [reflexivity|]. cbn in Hn, Hm. apply IH; lia.
Qed.

Lemma findall_enough_fuel p s n :
  (List.length s < n)%nat -> Re.findall_from n p None s = Re.findall p s.
Proof. intros H. apply findall_from_fuel; [exact H | lia]. Qed.

(** The first character of a text is the first character of its first
    line. *)
Lemma lines_head c s :
  exists l ls, lines (c :: s) = (c :: l) :: ls.
Proof.
  cbn [lines]. destruct (c =? nl)%N; [eauto|].
  destruct (lines s); eauto.
Qed.

(** White space before the letter may run over line ends, and the white
    space after it may be the line end itself; either way the letter
    stands on a line of its own that is a marker line. *)
Lemma marker_first_or_later s :
  marker_lineb s || existsb marker_lineb (tl (lines s))
  = existsb marker_lineb (lines s).
Proof.
  induction s as [|c s IH]; [reflexivity|].
  cbn [lines]. destruct (c =? nl)%N eqn:Hnl.
  - apply N.eqb_eq in Hnl. subst c.
    cbn [tl existsb]. change (marker_lineb (nl :: s)) with (marker_lineb s).
    change (marker_lineb [nl]) with false. cbn [orb].
    rewrite <- IH. now destruct (marker_lineb s).
  - cbn [marker_lineb]. destruct (is_space c) eqn:Hc.
    + destruct (lines s) as [|l ls] eqn:Hl.
      * cbn [tl existsb marker_lineb]. rewrite Hc. cbn in IH.
        rewrite orb_false_r in IH. rewrite IH. reflexivity.
      * cbn [tl existsb marker_lineb] in *. rewrite Hc. exact IH.
    + destruct s as [|sp s'].
      * cbn. rewrite Hc. reflexivity.
      * destruct (lines_head sp s') as (l & ls & ->).
        cbn [tl existsb marker_lineb]. rewrite Hc. reflexivity.
Qed.

Lemma search_modified_lines s :
  forall prev,
    is_some (Re.search_from MODIFIED_FILE_REGEX prev s) =
    if Re.at_bol prev then existsb marker_lineb (lines s)
    else existsb marker_lineb (tl (lines s)).
Proof.
  induction s as [|c s IH]; intros prev.
  - rewrite search_from_unfold, rmatch_modified. now destruct (Re.at_bol prev).
  - rewrite search_from_unfold, rmatch_modified, IH.
    assert (Hrest : (if Re.at_bol (Some c) then existsb marker_lineb (lines s)
                     else existsb marker_lineb (tl (lines s)))
                    = existsb marker_lineb (tl (lines (c :: s)))).
    { cbn [Re.at_bol lines]. destruct (c =? nl)%N; [reflexivity|].
      now destruct (lines s). }
    rewrite Hrest. destruct (Re.at_bol prev); cbn [andb orb].
    + apply marker_first_or_later.
    + reflexivity.
Qed.

Lemma modified_found_lines output :
  modified_found output = existsb marker_lineb (lines output).
Proof.
  unfold modified_found, Re.search.
  change (match Re.search_from MODIFIED_FILE_REGEX None output with
          | Some _ => true
          | None => false
          end) with (is_some (Re.search_from MODIFIED_FILE_REGEX None output)).
  apply (search_modified_lines output None).
Qed.

Lemma marker_lineb_iff l : marker_lineb l = true <-> marker_line l.
Proof.
  split.
  - induction l as [|c l IH]; [discriminate|].
    cbn [marker_lineb]. destruct (is_space c) eqn:Hc.
    + intros H. destruct (IH H) as (ws & sp & path & -> & Hws & Hsp).
      exists (c :: ws), sp, path. cbn [forallb]. rewrite Hc. auto.
    + intros H. apply andb_true_iff in H. destruct H as [HM Hsp].
      apply N.eqb_eq in HM. subst c.
      destruct l as [|sp path]; [discriminate|].
      exists [], sp, path. auto.
  - intros (ws & sp & path & -> & Hws & Hsp).
    induction ws as [|c ws IH].
    + cbn -[is_space]. exact Hsp.
    + cbn [forallb] in Hws. apply andb_true_iff in Hws. destruct Hws as [Hc Hws].
      cbn [app marker_lineb]. rewrite Hc. auto.
Qed.

(** The pattern finds something exactly when some line of the output is
    a marker line.  A line is taken with its newline, which is white
    space for the pattern; the path may be empty. *)
Lemma modified_found_marker_line (output : text) :
  modified_found output = true <->
  exists l, In l (lines output) /\ marker_line l.
Proof.
  rewrite modified_found_lines, existsb_exists.
  split; intros (l & Hin & Hl); exists l; split; auto; now apply marker_lineb_iff.
Qed.

Lemma repo_is_dirty_answer self w out w' output :
  spawn porcelain_cmd (cwd self) false w = (out, 0%Z, w') ->
  decode_strict out = Some output ->
  repo_is_dirty self w = Res [Exec porcelain_cmd (cwd self)] w' (inr (modified_found output)).
Proof.
  intros Hs Hd. unfold repo_is_dirty, bind, check_output, decode.
  rewrite Hs. cbn [trace final outcome Z.eqb]. rewrite Hd. reflexivity.
Qed.

(** C4.  When the porcelain status query succeeds and its output decodes
    to [output], [repo_is_dirty] returns true exactly when some line of
    [output] reads: optional white space, the letter M, white space, then
    the rest of the line.  In particular an output all of whose lines
    start with the two question marks of an untracked entry gives false,
    and an output with the line of a modification that has M in one
    status column and a blank in the other, staged (M in the first
    column) or not staged (M in the second column), gives true.  A line
    with both status columns set, such as the one of a file staged and
    then modified again, is not such a line: an output all of whose
    lines have both columns set gives false. *)
Theorem repo_is_dirty_marker_line
  (self : GitAutoSync) (w w' : World) (out : list byte) (output : text) :
  spawn porcelain_cmd (cwd self) false w = (out, 0%Z, w') ->
  decode_strict out = Some output ->
  (outcome (repo_is_dirty self w) = inr true <->
   exists l, In l (lines output) /\ marker_line l)
  /\ ((forall l, In l (lines output) -> exists r, l = 63%N :: 63%N :: r) ->
      outcome (repo_is_dirty self w) = inr false)
  /\ (forall path,
        In (porcelain_line 77%N 32%N path) (lines output)
        \/ In (porcelain_line 32%N 77%N path) (lines output) ->
        outcome (repo_is_dirty self w) = inr true)
  /\ ((forall l, In l (lines output) ->
         exists x y path,
           l = porcelain_line x y path /\ is_space x = false /\ is_space y = false) ->
      outcome (repo_is_dirty self w) = inr false).
Proof.
  intros Hs Hd. rewrite (repo_is_dirty_answer Hs Hd). cbn [outcome].
  pose proof (modified_found_marker_line output) as Hiff.
  split; [|split; [|split]].
  - rewrite <- Hiff. split; [now intros [= ->] | now intros ->].
  - intros Hall. f_equal. apply not_true_is_false. intros E.
    apply Hiff in E. destruct E as (l & Hin & ws & sp & path & Hl & Hws & Hsp).
    destruct (Hall l Hin) as (r & Hr). subst l.
    destruct ws as [|c ws]; cbn in Hr; injection Hr as Hc _.
    + discriminate Hc.
    + subst c. discriminate Hws.
  - intros path [Hin | Hin]; f_equal; apply Hiff; eexists; (split; [exact Hin|]).
    + exists [], 32%N, (32%N :: path ++ [nl]). repeat split.
    + exists [32%N], 32%N, (path ++ [nl]). repeat split.
  - intros Hall. f_equal. apply not_true_is_false. intros E.
    apply Hiff in E. destruct E as (l & Hin & ws & sp & path & Hl & Hws & Hsp).
    destruct (Hall l Hin) as (x & y & p & Hp & Hx & Hy). subst l.
    unfold porcelain_line in Hp.
    destruct ws as [|c ws]; cbn in Hp.
    + injection Hp as _ Hp _. subst sp. rewrite Hsp in Hy. discriminate Hy.
    + injection Hp as Hp _. subst c. cbn in Hws. rewrite Hx in Hws. discriminate Hws.
Qed.

(** ** The program monad *)

Lemma after_after {A} t1 t2 (r : result A) :
  after t1 (after t2 r) = after (t1 ++ t2) r.
Proof. unfold after. cbn. now rewrite app_assoc. Qed.

Lemma bind_ok {A B} (m : prog A) (f : A -> prog B) w a :
  outcome (m w) = inr a ->
  bind m f w = after (trace (m w)) (f a (final (m w))).
Proof. intros H. unfold bind. now rewrite H. Qed.

Lemma bind_raise {A B} (m : prog A) (f : A -> prog B) w e :
  outcome (m w) = inl e ->
  bind m f w = Res (trace (m w)) (final (m w)) (inl e).
Proof. intros H. unfold bind. now rewrite H. Qed.

Lemma bind_assoc {A B C} (m : prog A) (f : A -> prog B) (g : B -> prog C) w :
  bind (bind m f) g w = bind m (fun x => bind (f x) g) w.
Proof.
  unfold bind. destruct (outcome (m w)); cbn; [reflexivity|].
  destruct (outcome (f a (final (m w)))); cbn; [reflexivity|].
  now rewrite app_assoc.
Qed.

Lemma bind_ext {A B} (m : prog A) (f g : A -> prog B) w :
  (forall a w', f a w' = g a w') -> bind m f w = bind m g w.
Proof. intros H. unfold bind. destruct (outcome (m w)); [reflexivity|]. now rewrite H. Qed.

Lemma ret_bind {A B} (a : A) (f : A -> prog B) w : bind (ret a) f w = f a w.
Proof. unfold bind, ret. cbn. now destruct (f a w). Qed.

Lemma bind_ret {A} (m : prog A) w : bind m ret w = m w.
Proof.
  unfold bind, ret. destruct (m w) as [t w' [e|a]]; cbn; [reflexivity|].
  now rewrite app_nil_r.
Qed.

(** A program that runs as [m'] from [w'] after the events [t] still does
    so when something is bound after it. *)
Lemma bind_after {A B} (m m' : prog A) (f : A -> prog B) w w' t :
  m w = after t (m' w') -> bind m f w = after t (bind m' f w').
Proof.
  intros H. unfold bind. rewrite H. unfold after. cbn.
  destruct (outcome (m' w')); cbn; [reflexivity|]. now rewrite app_assoc.
Qed.

Lemma try_except_ok {A} (m : prog A) h w a :
  outcome (m w) = inr a -> try_except m h w = m w.
Proof. intros H. unfold try_except. now rewrite H. Qed.

Lemma try_except_caught {A} (m : prog A) h w rc cmd :
  outcome (m w) = inl (CalledProcessError rc cmd) ->
  try_except m h w = after (trace (m w)) (h rc cmd (final (m w))).
Proof. intros H. unfold try_except. now rewrite H. Qed.

(** ** One command *)

Lemma execute_cmd_run cmd cwd w :
  execute_cmd cmd cwd w =
  Res (Yield (echo cmd) :: Exec cmd cwd
         :: map Yield (read_loop decode_replace (output_of cmd cwd w) [] None))
      (world_after cmd cwd w)
      (if (exit_status cmd cwd w =? 0)%Z then inr tt
       else inl (CalledProcessError (exit_status cmd cwd w) cmd)).
Proof.
  unfold execute_cmd, output_of, world_after, exit_status.
  now destruct (spawn cmd cwd true w) as [[out rc] w'].
Qed.

Lemma execute_cmd_final cmd cwd w :
  final (execute_cmd cmd cwd w) = world_after cmd cwd w.
Proof. now rewrite execute_cmd_run. Qed.

Lemma execute_cmd_ok cmd cwd w :
  exit_status cmd cwd w = 0%Z -> outcome (execute_cmd cmd cwd w) = inr tt.
Proof. intros H. rewrite execute_cmd_run. cbn. now rewrite H. Qed.

Lemma execute_cmd_fails cmd cwd w :
  exit_status cmd cwd w <> 0%Z ->
  outcome (execute_cmd cmd cwd w)
  = inl (CalledProcessError (exit_status cmd cwd w) cmd).
Proof.
  intros H. rewrite execute_cmd_run. cbn.
  apply Z.eqb_neq in H. now rewrite H.
Qed.

Lemma commands_app t1 t2 : commands (t1 ++ t2) = commands t1 ++ commands t2.
Proof. apply flat_map_app. Qed.

Lemma commands_yields ls : commands (map Yield ls) = [].
Proof. induction ls; [reflexivity | exact IHls]. Qed.

Lemma cmds_execute_cmd cmd cwd w : cmds (execute_cmd cmd cwd) w = [cmd].
Proof.
  unfold cmds. rewrite execute_cmd_run. cbn. now rewrite commands_yields.
Qed.

Lemma cmds_logging_info msg w : cmds (logging_info msg) w = [].
Proof. reflexivity. Qed.

Lemma cmds_bind {A B} (m : prog A) (f : A -> prog B) w :
  cmds (bind m f) w =
  cmds m w ++ match outcome (m w) with
              | inr a => cmds (f a) (final (m w))
              | inl _ => []
              end.
Proof.
  unfold cmds, bind. destruct (outcome (m w)); cbn.
  - now rewrite app_nil_r.
  - apply commands_app.
Qed.

Lemma cmds_try_except {A} (m : prog A) h w :
  cmds (try_except m h) w =
  cmds m w ++ match outcome (m w) with
              | inl (CalledProcessError rc cmd) => cmds (h rc cmd) (final (m w))
              | _ => []
              end.
Proof.
  unfold cmds, try_except. destruct (outcome (m w)) as [[]|] eqn:E; cbn;
    rewrite ?commands_app, ?app_nil_r; reflexivity.
Qed.

Lemma cmds_after {A} t (r : result A) :
  commands (trace (after t r)) = commands t ++ commands (trace r).
Proof. apply commands_app. Qed.

(** ** Pulling and resolving conflicts *)

Lemma pull_and_resolve_split self w :
  _pull_and_resolve_conflicts self w =
  bind (before_merge self)
       (fun _ =>
          try_except (execute_cmd (merge_cmd self) (cwd self))
            (fun returncode cmd =>
               if (returncode =? 1)%Z
               then _make_commit self ;; execute_cmd (merge_cmd self) (cwd self)
               else raise (CalledProcessError returncode cmd)) ;;
          logging_info (u "Pulled from " ++ git_url self)) w.
Proof.
  unfold _pull_and_resolve_conflicts, before_merge.
  rewrite bind_assoc. apply bind_ext. intros _ w1.
  rewrite bind_assoc. reflexivity.
Qed.

Lemma merges_app self a b : merges self (a ++ b) = (merges self a + merges self b)%nat.
Proof. unfold merges. now rewrite filter_app, length_app. Qed.

Lemma merges_one self c : (merges self [c] <= 1)%nat.
Proof. unfold merges. cbn [filter]. destruct (cmd_eqb _ _); cbn; lia. Qed.

Lemma make_commit_no_merge self w : merges self (cmds (_make_commit self) w) = 0%nat.
Proof.
  unfold _make_commit.
  repeat (rewrite cmds_bind, cmds_execute_cmd, merges_app;
          match goal with
          | |- context [match ?o with inl _ => _ | inr _ => _ end] => destruct o
          end).
  all: rewrite ?cmds_logging_info; reflexivity.
Qed.

Lemma before_merge_no_merge self w : merges self (cmds (before_merge self) w) = 0%nat.
Proof.
  unfold before_merge.
  rewrite cmds_bind, cmds_logging_info. cbn [outcome logging_info emit app].
  rewrite cmds_bind, cmds_execute_cmd, merges_app.
  destruct (outcome _); [reflexivity|].
  rewrite cmds_execute_cmd. reflexivity.
Qed.

Lemma pull_and_resolve_merges self w :
  (merges self (cmds (_pull_and_resolve_conflicts self) w) <= 2)%nat.
Proof.
  unfold cmds. rewrite pull_and_resolve_split.
  match goal with
  | |- context [commands (trace (bind ?m ?f w))] =>
      change (commands (trace (bind m f w))) with (cmds (bind m f) w)
  end.
  rewrite cmds_bind, merges_app, before_merge_no_merge.
  destruct (outcome (before_merge self w)); [cbn; lia|].
  rewrite cmds_bind, cmds_try_except, cmds_execute_cmd, !merges_app.
  pose proof (merges_one self (merge_cmd self)) as H1.
  match goal with
  | |- context [merges self (match ?o with
                             | inl _ => []
                             | inr _ => cmds (logging_info ?m) ?w'
                             end)] =>
      replace (merges self (match o with
                            | inl _ => []
                            | inr _ => cmds (logging_info m) w'
                            end)) with 0%nat by (destruct o; reflexivity)
  end.
  destruct (outcome (execute_cmd _ _ _)) as [[rc cmd| | | |]|[]];
    try (change (merges self []) with 0%nat; lia).
  destruct (rc =? 1)%Z.
  - rewrite cmds_bind, merges_app, make_commit_no_merge.
    destruct (outcome (_make_commit self _)).
    + change (merges self []) with 0%nat. lia.
    + rewrite cmds_execute_cmd. lia.
  - change (cmds (raise _) _) with (@nil (list text)).
    change (merges self []) with 0%nat. lia.
Qed.

(** C2.  Once the branch is checked out and fetched, the merge decides
    the rest of the run.  Status 0: nothing but the closing log message
    follows.  Status 1: exactly the remediation follows, that is the
    checkpoint commit and then the same merge command once more; when
    the commit went through and that second merge fails, its error is
    the outcome of the run.  Any other status: the error of the first
    merge is the outcome and nothing was started after it.  In every run
    the merge command is started at most twice. *)
Theorem pull_and_resolve_single_remediation (self : GitAutoSync) (w : World) :
  let pre := before_merge self w in
  let w1 := final pre in
  let merge := execute_cmd (merge_cmd self) (cwd self) in
  let rc := exit_status (merge_cmd self) (cwd self) w1 in
  let w2 := world_after (merge_cmd self) (cwd self) w1 in
  let run := _pull_and_resolve_conflicts self w in
  outcome pre = inr tt ->
  (rc = 0%Z ->
     run = after (trace pre ++ trace (merge w1))
                 (logging_info (u "Pulled from " ++ git_url self) w2))
  /\ (rc = 1%Z ->
        run = after (trace pre ++ trace (merge w1)) (remediation self w2)
        /\ forall rc',
            outcome (_make_commit self w2) = inr tt ->
            exit_status (merge_cmd self) (cwd self) (final (_make_commit self w2)) = rc' ->
            rc' <> 0%Z ->
            outcome run = inl (CalledProcessError rc' (merge_cmd self)))
  /\ (rc <> 0%Z -> rc <> 1%Z ->
        run = after (trace pre) (merge w1)
        /\ outcome run = inl (CalledProcessError rc (merge_cmd self)))
  /\ (merges self (commands (trace run)) <= 2)%nat.
Proof.
  intros pre w1 merge rc w2 run Hpre.
  assert (Hrun : run = after (trace pre)
            (bind (try_except merge
                     (fun returncode cmd =>
                        if (returncode =? 1)%Z
                        then _make_commit self ;; merge
                        else raise (CalledProcessError returncode cmd)))
                  (fun _ => logging_info (u "Pulled from " ++ git_url self)) w1)).
  { unfold run. rewrite pull_and_resolve_split.
    exact (bind_ok (before_merge self) _ w Hpre). }
  assert (Hfin : final (merge w1) = w2) by apply execute_cmd_final.
  assert (Hcaught : forall c, outcome (merge w1) = inl (CalledProcessError c (merge_cmd self)) ->
            try_except merge
              (fun returncode cmd =>
                 if (returncode =? 1)%Z
                 then _make_commit self ;; merge
                 else raise (CalledProcessError returncode cmd)) w1
            = after (trace (merge w1))
                ((if (c =? 1)%Z then _make_commit self ;; merge
                  else raise (CalledProcessError c (merge_cmd self))) w2)).
  { intros c Hm. rewrite (try_except_caught _ _ _ Hm). now rewrite Hfin. }
  split; [|split; [|split]].
  - intros Hrc. rewrite Hrun, <- after_after. f_equal.
    assert (Hm : outcome (merge w1) = inr tt) by now apply execute_cmd_ok.
    rewrite (bind_ok _ _ _ (a:=tt)); rewrite (try_except_ok _ _ _ Hm); [|exact Hm].
    now rewrite Hfin.
  - intros Hrc.
    assert (Hm : outcome (merge w1) = inl (CalledProcessError 1 (merge_cmd self))).
    { unfold merge. rewrite execute_cmd_fails; fold w1; fold rc; rewrite Hrc;
        [reflexivity|lia]. }
    assert (Heq : run = after (trace pre ++ trace (merge w1)) (remediation self w2)).
    { rewrite Hrun, <- after_after. f_equal.
      unfold remediation. apply bind_after. exact (Hcaught 1%Z Hm). }
    split; [exact Heq|].
    intros rc' Hc Hrc' Hne. rewrite Heq. cbn [outcome after]. unfold remediation.
    rewrite (bind_raise _ _ _ (e:=CalledProcessError rc' (merge_cmd self)));
      [reflexivity|].
    rewrite (bind_ok _ _ _ Hc). cbn [outcome after].
    rewrite execute_cmd_fails; rewrite Hrc'; [reflexivity|exact Hne].
  - intros Hne0 Hne1.
    assert (Hm : outcome (merge w1) = inl (CalledProcessError rc (merge_cmd self))).
    { unfold merge. now rewrite execute_cmd_fails. }
    assert (Heq : run = after (trace pre) (merge w1)).
    { rewrite Hrun. f_equal.
      rewrite (bind_raise _ _ _ (e:=CalledProcessError rc (merge_cmd self))).
      - rewrite (Hcaught rc Hm). apply Z.eqb_neq in Hne1. rewrite Hne1.
        unfold after, raise. cbn [trace final outcome]. rewrite app_nil_r, <- Hm, <- Hfin.
        now destruct (merge w1).
      - rewrite (Hcaught rc Hm). apply Z.eqb_neq in Hne1. now rewrite Hne1. }
    split; [exact Heq|]. rewrite Heq. exact Hm.
  - apply pull_and_resolve_merges.
Qed.

(** ** Resetting deleted files *)

Lemma try_except_bind_ok {A B} (m : prog A) (k : A -> prog B) h w a :
  outcome (m w) = inr a ->
  try_except (bind m k) h w = after (trace (m w)) (try_except (k a) h (final (m w))).
Proof.
  intros H. unfold try_except, bind, after. rewrite H. cbn.
  destruct (k a (final (m w))) as [t' w' [[]|]]; cbn; try reflexivity.
  now rewrite app_assoc.
Qed.

Lemma try_except_bind_raise {A B} (m : prog A) (k : A -> prog B) h w rc cmd :
  outcome (m w) = inl (CalledProcessError rc cmd) ->
  try_except (bind m k) h w = after (trace (m w)) (h rc cmd (final (m w))).
Proof. intros H. unfold try_except, bind, after. rewrite H. reflexivity. Qed.

Lemma reraise_unless_same code cmd w :
  reraise_unless code code cmd w = Res [] w (inr tt).
Proof. unfold reraise_unless. now rewrite Z.eqb_refl. Qed.

Lemma reraise_unless_other code rc cmd w :
  rc <> code ->
  reraise_unless code rc cmd w = Res [] w (inl (CalledProcessError rc cmd)).
Proof. intros H. unfold reraise_unless. apply Z.eqb_neq in H. now rewrite H. Qed.

Lemma cmds_reraise_unless code rc cmd w : cmds (reraise_unless code rc cmd) w = [].
Proof. unfold reraise_unless. now destruct (negb _). Qed.

Lemma after_nil_raise {A} (r : result A) e :
  outcome r = inl e -> after (trace r) (Res [] (final r) (inl e)) = r.
Proof.
  intros H. unfold after. cbn. rewrite app_nil_r, <- H. now destruct r.
Qed.

Lemma for_each_cons {A} (x : A) xs body w :
  for_each (x :: xs) body w = bind (body x) (fun _ => for_each xs body) w.
Proof. reflexivity. Qed.

Lemma reset_one_after_check self filename w :
  outcome (_raise_error_if_git_file_not_exists self filename w) = inr tt ->
  reset_one self filename w =
  after (trace (_raise_error_if_git_file_not_exists self filename w))
        (try_except (restore self filename) (reraise_unless 128)
           (final (_raise_error_if_git_file_not_exists self filename w))).
Proof. intros Hok. exact (try_except_bind_ok _ _ _ _ Hok). Qed.

Lemma reset_one_check_fails self filename w rc cmd :
  outcome (_raise_error_if_git_file_not_exists self filename w)
  = inl (CalledProcessError rc cmd) ->
  reset_one self filename w =
  if (rc =? 128)%Z
  then Res (trace (_raise_error_if_git_file_not_exists self filename w))
           (final (_raise_error_if_git_file_not_exists self filename w)) (inr tt)
  else _raise_error_if_git_file_not_exists self filename w.
Proof.
  intros Herr. unfold reset_one.
  rewrite (try_except_bind_raise _ _ _ _ Herr).
  destruct (rc =? 128)%Z eqn:E.
  - apply Z.eqb_eq in E. subst rc. rewrite reraise_unless_same.
    unfold after. cbn. now rewrite app_nil_r.
  - apply Z.eqb_neq in E. rewrite reraise_unless_other by exact E.
    now apply after_nil_raise.
Qed.

Lemma reset_deleted_files_run self w out w0 status :
  spawn status_cmd (cwd self) false w = (out, 0%Z, w0) ->
  decode_strict out = Some status ->
  _reset_deleted_files self w
  = after [Exec status_cmd (cwd self)]
          (for_each (Re.findall DELETED_FILE_REGEX status) (reset_one self) w0).
Proof.
  intros Hs Hd. unfold _reset_deleted_files, bind, check_output, decode, after.
  rewrite Hs. cbn [trace final outcome Z.eqb]. rewrite Hd. reflexivity.
Qed.

Lemma for_each_app {A} (xs ys : list A) body :
  forall w,
    outcome (for_each xs body w) = inr tt ->
    for_each (xs ++ ys) body w
    = after (trace (for_each xs body w))
            (for_each ys body (final (for_each xs body w))).
Proof.
  induction xs as [|x xs IH]; intros w H.
  - cbn. unfold after. cbn. now destruct (for_each ys body w).
  - cbn [app for_each] in *.
    destruct (outcome (body x w)) as [e|[]] eqn:Hb.
    + rewrite (bind_raise _ _ _ Hb) in H. discriminate H.
    + rewrite (bind_ok _ _ _ Hb) in H.
      rewrite (bind_ok (body x) (fun _ => for_each (xs ++ ys) body) w Hb).
      rewrite (bind_ok (body x) (fun _ => for_each xs body) w Hb).
      cbn [outcome after] in H. rewrite (IH _ H), after_after. reflexivity.
Qed.

(** The run of [_reset_deleted_files] up to a path its status output
    lists: the query, the paths listed before it, and then the loop body
    for the path followed by the paths listed after it. *)
Lemma reset_deleted_files_reaches self w out w0 status earlier filename later :
  spawn status_cmd (cwd self) false w = (out, 0%Z, w0) ->
  decode_strict out = Some status ->
  Re.findall DELETED_FILE_REGEX status = earlier ++ filename :: later ->
  outcome (for_each earlier (reset_one self) w0) = inr tt ->
  _reset_deleted_files self w
  = after (Exec status_cmd (cwd self) :: trace (for_each earlier (reset_one self) w0))
          (bind (reset_one self filename) (fun _ => for_each later (reset_one self))
             (final (for_each earlier (reset_one self) w0))).
Proof.
  intros Hs Hd Hfind Hbefore.
  rewrite (@reset_deleted_files_run self w out w0 status Hs Hd), Hfind.
  rewrite (@for_each_app _ earlier (filename :: later) (reset_one self) w0 Hbefore).
  rewrite after_after. reflexivity.
Qed.

(** The existence check ends normally or with the error of one of its
    two commands. *)
Lemma existence_check_outcome self filename w :
  outcome (_raise_error_if_git_file_not_exists self filename w) = inr tt
  \/ exists rc cmd,
       outcome (_raise_error_if_git_file_not_exists self filename w)
       = inl (CalledProcessError rc cmd).
Proof.
  unfold _raise_error_if_git_file_not_exists, bind, try_except, reraise_unless.
  rewrite execute_cmd_run. cbn [outcome trace final].
  destruct (exit_status fetch_cmd (cwd self) w =? 0)%Z; cbn [outcome trace final].
  - rewrite execute_cmd_run. cbn [outcome]. destruct (_ =? 0)%Z; eauto.
  - destruct (negb (exit_status fetch_cmd (cwd self) w =? 1)%Z); cbn [outcome trace final raise ret].
    + eauto.
    + rewrite execute_cmd_run. cbn [outcome]. destruct (_ =? 0)%Z; eauto.
Qed.

(** The restore step by the exit status of its command. *)
Lemma restore_run self filename w :
  let attempt := execute_cmd (restore_cmd filename) (cwd self) w in
  let rc := exit_status (restore_cmd filename) (cwd self) w in
  try_except (restore self filename) (reraise_unless 128) w
  = if (rc =? 0)%Z
    then Res (trace attempt ++ [Log (u "Resetted " ++ filename)]) (final attempt) (inr tt)
    else if (rc =? 128)%Z
         then Res (trace attempt) (final attempt) (inr tt)
         else Res (trace attempt) (final attempt)
                  (inl (CalledProcessError rc (restore_cmd filename))).
Proof.
  intros attempt rc. destruct (rc =? 0)%Z eqn:E0.
  - apply Z.eqb_eq in E0.
    assert (Hok : outcome attempt = inr tt) by now apply execute_cmd_ok.
    assert (Hr : restore self filename w
                 = Res (trace attempt ++ [Log (u "Resetted " ++ filename)])
                       (final attempt) (inr tt)).
    { unfold restore. now rewrite (bind_ok _ _ _ Hok). }
    rewrite (try_except_ok _ _ _ (a:=tt)); rewrite Hr; reflexivity.
  - apply Z.eqb_neq in E0.
    assert (Herr : outcome attempt = inl (CalledProcessError rc (restore_cmd filename)))
      by now apply execute_cmd_fails.
    assert (Hr : restore self filename w
                 = Res (trace attempt) (final attempt)
                       (inl (CalledProcessError rc (restore_cmd filename)))).
    { unfold restore. now rewrite (bind_raise _ _ _ Herr). }
    assert (Hout : outcome (restore self filename w)
                   = inl (CalledProcessError rc (restore_cmd filename))) by now rewrite Hr.
    rewrite (try_except_caught _ _ _ Hout), Hr. cbn [trace final].
    destruct (rc =? 128)%Z eqn:E128.
    + apply Z.eqb_eq in E128. rewrite E128, reraise_unless_same.
      unfold after. cbn. now rewrite app_nil_r.
    + apply Z.eqb_neq in E128. rewrite reraise_unless_other by exact E128.
      unfold after. cbn. now rewrite app_nil_r.
Qed.

(** C3.  Take any path [filename] that the status output lists as
    deleted and that the loop of [_reset_deleted_files] gets to: the
    query succeeded, and the paths listed before it were dealt with
    without an error.  The run then makes the existence check for
    [filename].  When the check passes, the restore command for
    [filename] is the next command started, and when that command exits
    with status 0 the run logs the path and goes on with the paths listed
    after it.  When the check fails with status 128, nothing is started
    or logged for [filename] and the run goes on with the paths listed
    after it.  When the check fails with any other status, the run ends
    there with that error.  The check has no other outcome. *)
Theorem reset_deleted_file_cases
  (self : GitAutoSync) (w w0 : World) (out : list byte) (status : text)
  (earlier : list text) (filename : text) (later : list text) :
  spawn status_cmd (cwd self) false w = (out, 0%Z, w0) ->
  decode_strict out = Some status ->
  Re.findall DELETED_FILE_REGEX status = earlier ++ filename :: later ->
  let before := for_each earlier (reset_one self) w0 in
  outcome before = inr tt ->
  let check := _raise_error_if_git_file_not_exists self filename (final before) in
  let reached := Exec status_cmd (cwd self) :: trace before ++ trace check in
  let attempt := execute_cmd (restore_cmd filename) (cwd self) (final check) in
  let run := _reset_deleted_files self w in
  (outcome check = inr tt ->
     (exists more,
         commands (trace run) = commands reached ++ restore_cmd filename :: more)
     /\ (exit_status (restore_cmd filename) (cwd self) (final check) = 0%Z ->
         run = after (reached ++ trace attempt ++ [Log (u "Resetted " ++ filename)])
                     (for_each later (reset_one self) (final attempt))))
  /\ (forall cmd, outcome check = inl (CalledProcessError 128 cmd) ->
        run = after reached (for_each later (reset_one self) (final check)))
  /\ (forall rc cmd,
        outcome check = inl (CalledProcessError rc cmd) -> rc <> 128%Z ->
        run = Res reached (final check) (inl (CalledProcessError rc cmd)))
  /\ (outcome check = inr tt
      \/ exists rc cmd, outcome check = inl (CalledProcessError rc cmd)).
Proof.
  intros Hs Hd Hfind before Hbefore check reached attempt run.
  assert (Hrun : run = after (Exec status_cmd (cwd self) :: trace before)
                         (bind (reset_one self filename)
                               (fun _ => for_each later (reset_one self)) (final before))).
  { exact (@reset_deleted_files_reaches self w out w0 status earlier filename later
             Hs Hd Hfind Hbefore). }
  split; [|split; [|split]].
  - intros Hok.
    assert (Hbody : run = after reached
              (bind (try_except (restore self filename) (reraise_unless 128))
                    (fun _ => for_each later (reset_one self)) (final check))).
    { rewrite Hrun.
      rewrite (@bind_after _ _ (reset_one self filename)
               (try_except (restore self filename) (reraise_unless 128))
               (fun _ => for_each later (reset_one self))
               (final before) (final check) (trace check)
               (reset_one_after_check self filename (final before) Hok)).
      now rewrite after_after. }
    split.
    + rewrite Hbody, cmds_after.
      change (commands (trace (bind (try_except (restore self filename)
                                       (reraise_unless 128))
                                    (fun _ => for_each later (reset_one self))
                                    (final check))))
        with (cmds (bind (try_except (restore self filename) (reraise_unless 128))
                         (fun _ => for_each later (reset_one self))) (final check)).
      rewrite cmds_bind, cmds_try_except. unfold restore at 1.
      rewrite cmds_bind, cmds_execute_cmd. cbn [app].
      eexists. reflexivity.
    + intros H0. rewrite Hbody.
      pose proof (restore_run self filename (final check)) as Hr. cbn zeta in Hr.
      rewrite H0 in Hr. cbn [Z.eqb] in Hr.
      rewrite (bind_ok _ _ _ (a:=tt)); rewrite Hr; [|reflexivity].
      cbn [trace final]. rewrite after_after. reflexivity.
  - intros cmd Herr. rewrite Hrun.
    pose proof (reset_one_check_fails self filename (final before) Herr) as Hone.
    cbn [Z.eqb Pos.eqb] in Hone.
    rewrite (bind_ok _ _ _ (a:=tt)); rewrite Hone; [|reflexivity].
    cbn [trace final]. now rewrite after_after.
  - intros rc cmd Herr Hrc. rewrite Hrun.
    pose proof (reset_one_check_fails self filename (final before) Herr) as Hone.
    apply Z.eqb_neq in Hrc. rewrite Hrc in Hone.
    rewrite (bind_raise _ _ _ (e:=CalledProcessError rc cmd)); rewrite Hone;
      [|exact Herr].
    reflexivity.
  - apply existence_check_outcome.
Qed.

(** C8.  For a listed path the loop gets to and whose existence check
    passes, the restore command is started under the handler of the
    check.  When it exits with status 128 the error is swallowed like a
    failed check: nothing is logged for the path and the run goes on
    with the paths listed after it.  With any other nonzero status the
    run ends there with the error of the restore command. *)
Theorem restore_failure_128_swallowed
  (self : GitAutoSync) (w w0 : World) (out : list byte) (status : text)
  (earlier : list text) (filename : text) (later : list text) :
  spawn status_cmd (cwd self) false w = (out, 0%Z, w0) ->
  decode_strict out = Some status ->
  Re.findall DELETED_FILE_REGEX status = earlier ++ filename :: later ->
  let before := for_each earlier (reset_one self) w0 in
  outcome before = inr tt ->
  let check := _raise_error_if_git_file_not_exists self filename (final before) in
  outcome check = inr tt ->
  let attempt := execute_cmd (restore_cmd filename) (cwd self) (final check) in
  let rc := exit_status (restore_cmd filename) (cwd self) (final check) in
  let reached := Exec status_cmd (cwd self) :: trace before ++ trace check ++ trace attempt in
  let run := _reset_deleted_files self w in
  In (Exec (restore_cmd filename) (cwd self)) (trace attempt)
  /\ (rc = 128%Z ->
      run = after reached (for_each later (reset_one self) (final attempt)))
  /\ (rc <> 0%Z -> rc <> 128%Z ->
      run = Res reached (final attempt)
                (inl (CalledProcessError rc (restore_cmd filename)))).
Proof.
  intros Hs Hd Hfind before Hbefore check Hok attempt rc reached run.
  assert (Hbody : run = after (Exec status_cmd (cwd self) :: trace before ++ trace check)
            (bind (try_except (restore self filename) (reraise_unless 128))
                  (fun _ => for_each later (reset_one self)) (final check))).
  { assert (Hrun : run = after (Exec status_cmd (cwd self) :: trace before)
                           (bind (reset_one self filename)
                                 (fun _ => for_each later (reset_one self))
                                 (final before))).
    { exact (@reset_deleted_files_reaches self w out w0 status earlier filename later
               Hs Hd Hfind Hbefore). }
    rewrite Hrun.
    rewrite (@bind_after _ _ (reset_one self filename)
               (try_except (restore self filename) (reraise_unless 128))
               (fun _ => for_each later (reset_one self))
               (final before) (final check) (trace check)
               (reset_one_after_check self filename (final before) Hok)).
    now rewrite after_after. }
  pose proof (restore_run self filename (final check)) as Hr. cbn zeta in Hr.
  fold rc in Hr. fold attempt in Hr.
  split; [|split].
  - unfold attempt. rewrite execute_cmd_run. cbn [trace]. right. now left.
  - intros H128. rewrite Hbody. rewrite H128 in Hr. cbn [Z.eqb Pos.eqb] in Hr.
    rewrite (bind_ok _ _ _ (a:=tt)); rewrite Hr; [|reflexivity].
    cbn [trace final]. rewrite after_after. unfold reached.
    cbn [app]. now rewrite <- app_assoc.
  - intros H0 H128. rewrite Hbody.
    apply Z.eqb_neq in H0. apply Z.eqb_neq in H128. rewrite H0, H128 in Hr.
    rewrite (bind_raise _ _ _ (e:=CalledProcessError rc (restore_cmd filename)));
      rewrite Hr; [|reflexivity].
    unfold after, reached. cbn [trace final outcome app]. now rewrite <- app_assoc.
Qed.

(** ** The fetch inside the existence check *)

(** Inside the existence check a fetch that exits with status 0 or 1 is
    followed by the [cat-file] query; with any other status the error of
    the fetch is the outcome of the check and [cat-file] is not
    started. *)
Lemma existence_check_fetch (self : GitAutoSync) (filename : text) (w : World) :
  let rc := exit_status fetch_cmd (cwd self) w in
  let fetch := execute_cmd fetch_cmd (cwd self) w in
  let check := _raise_error_if_git_file_not_exists self filename w in
  (rc = 0%Z \/ rc = 1%Z ->
     check = after (trace fetch)
                   (execute_cmd (cat_file_cmd self filename) (cwd self) (final fetch)))
  /\ (rc <> 0%Z -> rc <> 1%Z ->
        check = fetch /\ outcome check = inl (CalledProcessError rc fetch_cmd)).
Proof.
  intros rc fetch check. split.
  - intros Hrc.
    assert (Htry : try_except (execute_cmd fetch_cmd (cwd self)) (reraise_unless 1) w
                   = Res (trace fetch) (final fetch) (inr tt)).
    { destruct Hrc as [Hrc | Hrc].
      - assert (Hf : outcome fetch = inr tt) by now apply execute_cmd_ok.
        rewrite (try_except_ok _ _ _ Hf). fold fetch. rewrite <- Hf. now destruct fetch.
      - assert (Hf : outcome fetch = inl (CalledProcessError 1 fetch_cmd)).
        { unfold fetch. rewrite execute_cmd_fails; fold rc; rewrite Hrc; [reflexivity|lia]. }
        rewrite (try_except_caught _ _ _ Hf), reraise_unless_same.
        unfold after. cbn. now rewrite app_nil_r. }
    unfold check, _raise_error_if_git_file_not_exists.
    rewrite (bind_ok _ _ _ (a:=tt)); rewrite Htry; reflexivity.
  - intros Hne0 Hne1.
    assert (Hf : outcome fetch = inl (CalledProcessError rc fetch_cmd)).
    { unfold fetch. now rewrite execute_cmd_fails. }
    assert (Htry : try_except (execute_cmd fetch_cmd (cwd self)) (reraise_unless 1) w
                   = fetch).
    { rewrite (try_except_caught _ _ _ Hf).
      rewrite reraise_unless_other by exact Hne1. now apply after_nil_raise. }
    assert (Hcheck : check = fetch).
    { unfold check, _raise_error_if_git_file_not_exists.
      rewrite (bind_raise _ _ _ (e:=CalledProcessError rc fetch_cmd)); rewrite Htry.
      - rewrite <- Hf. now destruct fetch.
      - exact Hf. }
    split; [exact Hcheck | now rewrite Hcheck].
Qed.

(** C5, what the code does.  For a listed path the loop of
    [_reset_deleted_files] gets to, the fetch of the existence check is
    tolerated when it exits with status 0 or 1: the [cat-file] query
    follows.  With any other status the check ends with the error of the
    fetch.  That error ends the run, except when the status is 128: the
    handler of the loop, written for a path that is absent upstream, then
    swallows the failed fetch, and the run goes on with the paths listed
    after this one as if nothing had failed. *)
Theorem fetch_failure_in_existence_check
  (self : GitAutoSync) (w w0 : World) (out : list byte) (status : text)
  (earlier : list text) (filename : text) (later : list text) :
  spawn status_cmd (cwd self) false w = (out, 0%Z, w0) ->
  decode_strict out = Some status ->
  Re.findall DELETED_FILE_REGEX status = earlier ++ filename :: later ->
  let before := for_each earlier (reset_one self) w0 in
  outcome before = inr tt ->
  let rc := exit_status fetch_cmd (cwd self) (final before) in
  let fetch := execute_cmd fetch_cmd (cwd self) (final before) in
  let check := _raise_error_if_git_file_not_exists self filename (final before) in
  let reached := Exec status_cmd (cwd self) :: trace before ++ trace fetch in
  let run := _reset_deleted_files self w in
  (rc = 0%Z \/ rc = 1%Z ->
     check = after (trace fetch)
                   (execute_cmd (cat_file_cmd self filename) (cwd self) (final fetch)))
  /\ (rc <> 0%Z -> rc <> 1%Z -> rc <> 128%Z ->
      run = Res reached (final fetch) (inl (CalledProcessError rc fetch_cmd)))
  /\ (rc = 128%Z ->
      run = after reached (for_each later (reset_one self) (final fetch))).
Proof.
  intros Hs Hd Hfind before Hbefore rc fetch check reached run.
  assert (Hrun : run = after (Exec status_cmd (cwd self) :: trace before)
                         (bind (reset_one self filename)
                               (fun _ => for_each later (reset_one self)) (final before))).
  { exact (@reset_deleted_files_reaches self w out w0 status earlier filename later
             Hs Hd Hfind Hbefore). }
  destruct (existence_check_fetch self filename (final before)) as [Hpass Hfail].
  split; [exact Hpass|].
  assert (Hone : rc <> 0%Z -> rc <> 1%Z ->
                 reset_one self filename (final before)
                 = if (rc =? 128)%Z then Res (trace fetch) (final fetch) (inr tt)
                   else fetch).
  { intros H0 H1. destruct (Hfail H0 H1) as [Hcheck Hout].
    rewrite (reset_one_check_fails self filename (final before) Hout).
    rewrite Hcheck. reflexivity. }
  split.
  - intros H0 H1 H128. rewrite Hrun.
    specialize (Hone H0 H1). apply Z.eqb_neq in H128. rewrite H128 in Hone.
    assert (Hf : outcome fetch = inl (CalledProcessError rc fetch_cmd)).
    { unfold fetch. now rewrite execute_cmd_fails. }
    rewrite (bind_raise _ _ _ (e:=CalledProcessError rc fetch_cmd)); rewrite Hone;
      [|exact Hf].
    reflexivity.
  - intros H128. rewrite Hrun.
    assert (H0 : rc <> 0%Z) by (rewrite H128; discriminate).
    assert (H1 : rc <> 1%Z) by (rewrite H128; discriminate).
    specialize (Hone H0 H1). rewrite H128 in Hone. cbn [Z.eqb Pos.eqb] in Hone.
    rewrite (bind_ok _ _ _ (a:=tt)); rewrite Hone; [|reflexivity].
    cbn [trace final]. now rewrite after_after.
Qed.

(** ** The orchestrator *)

Lemma pull_from_remote_branch self w :
  pull_from_remote self w =
  after [announce self]
    (bind (if negb (path_exists (repo_dir self) w)
           then _initialize_repo self else _update_repo self)
          (fun _ => logging_info (u "Pulled from repo: " ++ git_url self)) w).
Proof.
  unfold pull_from_remote.
  rewrite (bind_ok _ _ _ (a:=tt)) by reflexivity.
  cbn [trace final logging_info emit].
  rewrite (bind_ok _ _ _ (a:=path_exists (repo_dir self) w)) by reflexivity.
  cbn [trace final os_path_exists]. unfold after at 2. cbn [trace final outcome app].
  reflexivity.
Qed.

Lemma cmds_initialize_repo self w :
  cmds (_initialize_repo self) w =
  clone_cmd self ::
    (if (exit_status (clone_cmd self) None w =? 0)%Z then [checkout_cmd self] else []).
Proof.
  unfold _initialize_repo.
  rewrite cmds_bind, cmds_logging_info. cbn [outcome logging_info emit final app].
  rewrite cmds_bind, cmds_execute_cmd.
  rewrite execute_cmd_run at 1. cbn [outcome].
  destruct (exit_status (clone_cmd self) None w =? 0)%Z; [|reflexivity].
  rewrite cmds_bind, cmds_execute_cmd.
  destruct (outcome (execute_cmd (checkout_cmd self) _ _)); [reflexivity|].
  now rewrite cmds_logging_info.
Qed.

Lemma repo_is_dirty_commands self w : cmds (repo_is_dirty self) w = [porcelain_cmd].
Proof.
  unfold repo_is_dirty, cmds, bind, check_output, decode.
  destruct (spawn porcelain_cmd (cwd self) false w) as [[out rc] w'].
  cbn [trace final outcome].
  destruct (rc =? 0)%Z; cbn [trace final outcome]; [|reflexivity].
  destruct (decode_strict out); reflexivity.
Qed.

(** C1.  When the local directory does not exist, the run starts the
    clone and, if the clone succeeded, the checkout of the branch, and no
    other command.  When it exists, the run is the update path; once the
    deleted files are reset and the dirtiness check has answered, what
    follows is the saving of local changes and then the pull when the
    answer is dirty, and the pull alone when it is clean. *)
Theorem pull_from_remote_order (self : GitAutoSync) (w : World) :
  let run := pull_from_remote self w in
  (path_exists (repo_dir self) w = false ->
     commands (trace run) =
     clone_cmd self ::
       (if (exit_status (clone_cmd self) None w =? 0)%Z
        then [checkout_cmd self] else []))
  /\ (path_exists (repo_dir self) w = true ->
        forall dirty,
          let reset := _reset_deleted_files self w in
          let check := repo_is_dirty self (final reset) in
          outcome reset = inr tt ->
          outcome check = inr dirty ->
          commands (trace check) = [porcelain_cmd]
          /\ run = after (announce self :: trace reset ++ trace check)
                     ((if dirty
                       then _save_local_changes self ;; finish self
                       else finish self) (final check))).
Proof.
  intros run. split.
  - intros Habsent. unfold run. rewrite pull_from_remote_branch, Habsent.
    cbn [negb]. rewrite cmds_after. cbn [commands announce flat_map app].
    match goal with
    | |- commands (trace (bind ?m ?f w)) = _ =>
        change (commands (trace (bind m f w))) with (cmds (bind m f) w)
    end.
    rewrite cmds_bind, cmds_initialize_repo.
    destruct (outcome (_initialize_repo self w)).
    + now rewrite app_nil_r.
    + rewrite cmds_logging_info. now rewrite app_nil_r.
  - intros Hpresent dirty reset check Hreset Hcheck.
    split; [apply repo_is_dirty_commands|].
    unfold run. rewrite pull_from_remote_branch, Hpresent. cbn [negb].
    change (announce self :: trace reset ++ trace check)
      with ([announce self] ++ trace reset ++ trace check).
    rewrite <- after_after. f_equal.
    unfold _update_repo. rewrite bind_assoc.
    rewrite (bind_ok _ _ _ Hreset). fold reset.
    rewrite <- after_after. f_equal.
    rewrite bind_assoc.
    rewrite (bind_ok _ _ _ Hcheck). fold check. f_equal.
    rewrite bind_assoc. unfold finish.
    destruct dirty; [reflexivity|]. now rewrite ret_bind.
Qed.

(** ** The line splitter of [execute_cmd] *)

Lemma read_loop_map {L} (flush : list byte -> L) cs :
  forall buf c_last,
    read_loop flush cs buf c_last = map flush (read_loop (fun b => b) cs buf c_last).
Proof.
  induction cs as [|c cs IH]; intros buf c_last; [reflexivity|].
  cbn [read_loop]. rewrite IH, !map_app.
  destruct (_ && _ && _); destruct (is_byte c x0a); reflexivity.
Qed.

(** Nothing is lost inside the loop: the chunks flushed so far and the
    bytes still buffered are the bytes read. *)
Lemma chunks_and_leftover cs :
  forall buf c_last,
    List.concat (read_loop (fun b => b) cs buf c_last) ++ leftover cs buf c_last
    = buf ++ cs.
Proof.
  induction cs as [|c cs IH]; intros buf c_last.
  - cbn. now rewrite app_nil_r.
  - cbn [read_loop leftover]. rewrite !concat_app, <- !app_assoc, IH.
    destruct (_ && _ && _); destruct (is_byte c x0a); cbn;
      rewrite <- ?app_assoc; reflexivity.
Qed.

Lemma leftover_app a b :
  forall buf c_last,
    leftover (a ++ b) buf c_last
    = leftover b (leftover a buf c_last) (last_read a c_last).
Proof.
  induction a as [|c a IH]; intros buf c_last; [reflexivity|].
  cbn [app leftover last_read fold_left]. apply IH.
Qed.

Lemma last_read_app a b c_last :
  last_read (a ++ b) c_last = last_read b (last_read a c_last).
Proof. apply fold_left_app. Qed.

Lemma is_byte_false b c : b <> c -> is_byte b c = false.
Proof.
  intros H. unfold is_byte. destruct (Byte.eqb b c) eqn:E; [|reflexivity].
  apply Byte.byte_dec_bl in E. contradiction.
Qed.

Lemma is_byte_refl b : is_byte b b = true.
Proof. unfold is_byte. apply Byte.byte_dec_lb. reflexivity. Qed.

(** Bytes that are neither newline nor carriage return just pile up,
    unless the byte before them was a carriage return. *)
Lemma leftover_plain tail :
  (forall b, In b tail -> plain b) ->
  forall buf c_last,
    match c_last with Some l => is_byte l x0d | None => false end = false ->
    leftover tail buf c_last = buf ++ tail.
Proof.
  induction tail as [|c tail IH]; intros Hplain buf c_last Hlast.
  - cbn. now rewrite app_nil_r.
  - destruct (Hplain c (or_introl eq_refl)) as [Hn Hr].
    cbn [leftover]. rewrite Hlast, (is_byte_false Hn). cbn [andb].
    rewrite IH.
    + now rewrite <- app_assoc.
    + intros b Hb. apply Hplain. now right.
    + cbn. now apply is_byte_false.
Qed.

Lemma leftover_tail body tail :
  body = [] \/ (exists body', body = body' ++ [x0a] \/ body = body' ++ [x0d]) ->
  tail <> [] ->
  (forall b, In b tail -> plain b) ->
  leftover (body ++ tail) [] None = tail.
Proof.
  intros Hbody Hne Hplain.
  destruct Hbody as [-> | (body' & [-> | ->])].
  - cbn [app]. now rewrite leftover_plain.
  - rewrite leftover_app, last_read_app, (leftover_app body' [x0a]).
    cbn [leftover last_read fold_left]. rewrite is_byte_refl.
    rewrite leftover_plain; [reflexivity|exact Hplain|reflexivity].
  - rewrite leftover_app, last_read_app, (leftover_app body' [x0d]).
    destruct tail as [|c tail]; [contradiction|].
    destruct (Hplain c (or_introl eq_refl)) as [Hn Hr].
    cbn [leftover last_read fold_left].
    change (is_byte x0d x0a) with false. change (is_byte x0d x0d) with true.
    rewrite (is_byte_false Hn).
    assert (Hlen : forall (x : list byte), Nat.eqb (List.length (x ++ [x0d])) 0 = false).
    { intros x. rewrite length_app. cbn. now rewrite Nat.add_comm. }
    rewrite Hlen. cbn [andb negb app].
    rewrite leftover_plain; [reflexivity| |].
    + intros b Hb. apply Hplain. now right.
    + cbn. now apply is_byte_false.
Qed.

Lemma yielded_yields ls : yielded (map Yield ls) = ls.
Proof.
  unfold yielded. induction ls as [|l ls IH]; [reflexivity|].
  cbn [map flat_map app]. now rewrite IH.
Qed.

Lemma yielded_execute_cmd cmd cwd w :
  yielded (trace (execute_cmd cmd cwd w)) =
  echo cmd :: map decode_replace (read_loop (fun b => b) (output_of cmd cwd w) [] None).
Proof.
  rewrite execute_cmd_run. cbn [trace].
  change (yielded (Yield (echo cmd) :: Exec cmd cwd
                     :: map Yield (read_loop decode_replace (output_of cmd cwd w) [] None)))
    with (echo cmd
            :: yielded (map Yield (read_loop decode_replace (output_of cmd cwd w) [] None))).
  now rewrite yielded_yields, read_loop_map.
Qed.

(** Whatever the child writes, the lines yielded after the echo are cut
    from the front of its output, and what they leave out is the buffer
    the loop ended with. *)
Lemma execute_cmd_lines_are_a_prefix cmd cwd w :
  exists chunks,
    yielded (trace (execute_cmd cmd cwd w)) = echo cmd :: map decode_replace chunks
    /\ List.concat chunks ++ leftover (output_of cmd cwd w) [] None
       = output_of cmd cwd w.
Proof.
  exists (read_loop (fun b => b) (output_of cmd cwd w) [] None). split.
  - apply yielded_execute_cmd.
  - apply (chunks_and_leftover (output_of cmd cwd w) [] None).
Qed.

(** C9.  When the output of the child ends in a piece that no newline
    or carriage return closes, the lines yielded after the echo are made
    of the bytes before that piece and of nothing else, whatever the exit
    status; a nonzero status is raised as the error all the same. *)
Theorem execute_cmd_drops_unterminated_tail
  (cmd : list text) (cwd : option text) (w : World) (body tail : list byte) :
  output_of cmd cwd w = body ++ tail ->
  body = [] \/ (exists body', body = body' ++ [x0a] \/ body = body' ++ [x0d]) ->
  tail <> [] ->
  (forall b, In b tail -> plain b) ->
  (exists chunks,
      yielded (trace (execute_cmd cmd cwd w)) = echo cmd :: map decode_replace chunks
      /\ List.concat chunks = body)
  /\ outcome (execute_cmd cmd cwd w)
     = if (exit_status cmd cwd w =? 0)%Z then inr tt
       else inl (CalledProcessError (exit_status cmd cwd w) cmd).
Proof.
  intros Hout Hbody Hne Hplain. split.
  - exists (read_loop (fun b => b) (body ++ tail) [] None). split.
    + now rewrite yielded_execute_cmd, Hout.
    + pose proof (chunks_and_leftover (body ++ tail) [] None) as H.
      rewrite (leftover_tail Hbody Hne Hplain) in H. cbn [app] in H.
      now apply app_inv_tail in H.
  - now rewrite execute_cmd_run.
Qed.

(** ** The constructor and the command line *)

(** C10.  The constructor fails its assertion exactly when the URL or
    the branch name is the empty string, and otherwise returns the
    instance with the three values as given; the directory is not looked
    at, so the empty directory is accepted. *)
Theorem init_asserts_url_and_branch (g b d : text) :
  (__init__ g b d = inl AssertionError <-> g = [] \/ b = [])
  /\ (g <> [] -> b <> [] ->
      __init__ g b d = inr {| git_url := g; branch_name := b; repo_dir := d |})
  /\ (g <> [] -> b <> [] ->
      __init__ g b [] = inr {| git_url := g; branch_name := b; repo_dir := [] |}).
Proof.
  unfold __init__, py_and.
  destruct g as [|c g], b as [|c' b]; cbn; repeat split;
    try discriminate; try congruence; auto; intros [H | H]; discriminate.
Qed.

(** A failed assertion ends [main] before anything is started. *)
Lemma main_assertion_first argv args (g b d : text) w :
  parse_args argv = inr args ->
  args_git_url args = Some (Str g) -> args_branch_name args = Some (Str b) ->
  args_repo_dir args = Some (Str d) ->
  g = [] \/ b = [] ->
  main argv w = Res [] w (inl AssertionError).
Proof.
  intros Hp Hg Hb Hd He. unfold main. rewrite Hp, Hg, Hb, Hd.
  assert (H : __init__ g b d = inl AssertionError).
  { unfold __init__, py_and. destruct He as [-> | ->]; [reflexivity | now destruct g]. }
  now rewrite H.
Qed.

Lemma text_eqb_eq a : forall b, text_eqb a b = true -> a = b.
Proof.
  induction a as [|x a IH]; intros [|y b] H; try discriminate; [reflexivity|].
  cbn in H. apply andb_true_iff in H. destruct H as [Hx Ha].
  apply N.eqb_eq in Hx. f_equal; auto.
Qed.

Lemma text_eqb_refl a : text_eqb a a = true.
Proof. induction a as [|x a IH]; [reflexivity|]. cbn. now rewrite N.eqb_refl. Qed.

Lemma action_of_in s m act : Argparse.action_of s m = Some act -> In (s, act) m.
Proof.
  induction m as [|[o b] m IH]; [discriminate|]. cbn.
  destruct (text_eqb s o) eqn:E.
  - intros [= <-]. apply text_eqb_eq in E. subst o. now left.
  - intros H. right. auto.
Qed.

Lemma split_eq_stem s p e : Argparse.split_eq s = Some (p, e) -> stem s = p /\ s = p ++ 61%N :: e.
Proof.
  unfold stem. intros H. rewrite H. split; [reflexivity|].
  revert p e H. induction s as [|c s IH]; intros p e H; [discriminate|].
  cbn in H. destruct (c =? 61)%N eqn:E.
  - injection H as <- <-. apply N.eqb_eq in E. now subst c.
  - destruct (Argparse.split_eq s) as [[a b]|]; [|discriminate].
    injection H as <- <-. cbn. f_equal. now apply IH.
Qed.

(** The entries of the table of [main]. *)
Lemma options_in o act :
  In (o, act) options ->
  (act = Argparse.Help /\ (o = u "-h" \/ o = u "--help"))
  \/ (exists a, act = Argparse.Store a /\ o = Argparse.flag a /\ In a parser).
Proof.
  intros [H | [H | [H | [H | [H | []]]]]]; injection H as <- <-.
  - left. split; [reflexivity | now left].
  - left. split; [reflexivity | now right].
  - right. exists git_url_arg. repeat split. now left.
  - right. exists branch_name_arg. repeat split. right. now left.
  - right. exists repo_dir_arg. repeat split. right. right. now left.
Qed.

Lemma in_tuples_long m s t :
  In t (flat_map (fun e : text * Argparse.action =>
                    if Argparse.startswith (fst e) (stem s)
                    then [(snd e, fst e, option_map snd (Argparse.split_eq s))] else []) m) ->
  In (snd (fst t), fst (fst t)) m /\ Argparse.startswith (snd (fst t)) (stem s) = true.
Proof.
  intros H. apply in_flat_map in H. destruct H as ([o act] & Hin & Ht). cbn in Ht.
  destruct (Argparse.startswith o (stem s)) eqn:E; [|contradiction].
  destruct Ht as [<- | []]. cbn. auto.
Qed.

Lemma get_option_tuples_long m (c0 c1 : char) (tl : text) :
  c0 = 45%N -> c1 = 45%N ->
  let s := c0 :: c1 :: tl in
  Argparse.get_option_tuples m s
  = flat_map (fun e : text * Argparse.action =>
                if Argparse.startswith (fst e) (stem s)
                then [(snd e, fst e, option_map snd (Argparse.split_eq s))] else []) m.
Proof.
  intros -> -> s. unfold Argparse.get_option_tuples, s, stem.
  cbn [Argparse.is_prefix_char]. change (45 =? 45)%N with true. cbn [andb].
  destruct (Argparse.split_eq _) as [[p e]|]; reflexivity.
Qed.

Lemma stem_long (c0 c1 : char) (tl : text) :
  c0 = 45%N -> c1 = 45%N -> stem (c0 :: c1 :: tl) = c0 :: c1 :: stem tl.
Proof.
  intros -> ->. unfold stem. cbn. destruct (Argparse.split_eq tl) as [[p e]|]; reflexivity.
Qed.

Lemma startswith_app s : forall p, Argparse.startswith s p = true -> exists r, s = p ++ r.
Proof.
  induction s as [|d s IH]; intros [|c p] H; try discriminate.
  - now exists [].
  - now exists (d :: s).
  - cbn in H. apply andb_true_iff in H. destruct H as [Hc Hp].
    apply N.eqb_eq in Hc. subst d. destruct (IH p Hp) as [r ->]. now exists r.
Qed.

Lemma in_tuples_short m (c0 c1 : char) (tl : text) t :
  In t (flat_map (fun e : text * Argparse.action =>
                    if text_eqb (fst e) [c0; c1]
                    then [(snd e, fst e, Some tl)]
                    else if Argparse.startswith (fst e) (c0 :: c1 :: tl)
                         then [(snd e, fst e, None)] else []) m) ->
  In (snd (fst t), fst (fst t)) m /\ exists r, snd (fst t) = c0 :: c1 :: r.
Proof.
  intros H. apply in_flat_map in H. destruct H as ([o act] & Hin & Ht). cbn [fst snd] in Ht.
  destruct (text_eqb o [c0; c1]) eqn:E.
  - destruct Ht as [<- | []]. cbn. split; [exact Hin|].
    apply text_eqb_eq in E. now exists [].
  - destruct (Argparse.startswith o (c0 :: c1 :: tl)) eqn:E'; [|contradiction].
    destruct Ht as [<- | []]. cbn. split; [exact Hin|].
    apply startswith_app in E'. destruct E' as [r ->]. now exists (tl ++ r).
Qed.

(** What an argument string is read as, on the table of [main]. *)
Lemma parse_optional_reads s act o e :
  Argparse.parse_optional options s = Argparse.Optional (Some act) o e ->
  match act with
  | Argparse.Help => asks_help s = true
  | Argparse.Store a => In a parser /\ o = Argparse.flag a /\ names (Argparse.flag a) s = true
  end.
Proof.
  unfold Argparse.parse_optional.
  destruct s as [|c rest]; [discriminate|].
  destruct (Argparse.is_prefix_char c) eqn:Hc; [|discriminate]. cbn [negb].
  apply N.eqb_eq in Hc.
  destruct (Argparse.action_of _ options) as [act0|] eqn:Hexact.
  { intros [= <- <- <-]. apply action_of_in, options_in in Hexact.
    destruct Hexact as [[-> [H | H]] | (a & -> & H & Ha)].
    - now rewrite H.
    - now rewrite H.
    - split; [exact Ha|]. split; [exact H|]. rewrite H.
      destruct Ha as [<- | [<- | [<- | []]]]; reflexivity. }
  destruct rest as [|c1 tl]; [discriminate|].
  set (s := c :: c1 :: tl) in *.
  destruct (match Argparse.split_eq s with
            | Some (option_string, explicit_arg) =>
                match Argparse.action_of option_string options with
                | Some act => Some (Argparse.Optional (Some act) option_string
                                      (Some explicit_arg))
                | None => None
                end
            | None => None
            end) as [r|] eqn:Hsp.
  { destruct (Argparse.split_eq s) as [[p x]|] eqn:Hsplit; [|discriminate].
    destruct (Argparse.action_of p options) as [act0|] eqn:Hp; [|discriminate].
    injection Hsp as <-. intros [= <- <- <-].
    apply split_eq_stem in Hsplit. destruct Hsplit as [Hstem Hs].
    apply action_of_in, options_in in Hp.
    destruct Hp as [[-> [H | H]] | (a & -> & H & Ha)].
    - unfold asks_help. rewrite Hs, H. reflexivity.
    - unfold asks_help, names. rewrite Hstem, H. apply orb_true_r.
    - split; [exact Ha|]. split; [exact H|]. unfold names. rewrite Hstem, H.
      destruct Ha as [<- | [<- | [<- | []]]]; reflexivity. }
  destruct (Argparse.get_option_tuples options s) as [|[[act0 o0] e0] [|t2 ts]] eqn:Ht.
  - destruct (_ && _); [discriminate|]. destruct (existsb _ _); discriminate.
  - intros [= <- <- <-]. destruct (N.eqb_spec c1 45) as [Hc1 | Hc1].
    + unfold s in Ht. rewrite (get_option_tuples_long _ _ Hc Hc1) in Ht.
      assert (Hin : In (act0, o0, e0)
                (flat_map (fun e : text * Argparse.action =>
                    if Argparse.startswith (fst e) (stem s)
                    then [(snd e, fst e, option_map snd (Argparse.split_eq s))] else [])
                   options)).
      { unfold s. rewrite Ht. now left. }
      apply in_tuples_long in Hin. cbn [fst snd] in Hin. destruct Hin as [Hin Hsw].
      assert (Hlen : (2 <? List.length (stem s))%nat = true).
      { unfold s in *. rewrite (stem_long _ Hc Hc1) in *.
        destruct (stem tl) as [|x q]; [|reflexivity].
        subst c c1. discriminate Ht. }
      apply options_in in Hin.
      destruct Hin as [[-> [H | H]] | (a & -> & H & Ha)].
      * subst o0. unfold s in Hsw. rewrite (stem_long _ Hc Hc1) in Hsw.
        subst c c1. discriminate Hsw.
      * unfold asks_help, names. rewrite Hlen, <- H, Hsw. apply orb_true_r.
      * split; [exact Ha|]. split; [exact H|]. unfold names. now rewrite Hlen, <- H, Hsw.
    + assert (Hin : In (act0, o0, e0) (Argparse.get_option_tuples options s)).
      { rewrite Ht. now left. }
      unfold s, Argparse.get_option_tuples, Argparse.is_prefix_char in Hin.
      apply N.eqb_neq in Hc1. rewrite Hc1, andb_false_r in Hin.
      destruct (c =? 45)%N; [|contradiction].
      apply in_tuples_short in Hin. cbn [fst snd] in Hin. destruct Hin as [Hin [r Hr]].
      apply N.eqb_neq in Hc1. subst c.
      apply options_in in Hin.
      destruct Hin as [[-> [H | H]] | (a & -> & H & Ha)].
      * rewrite H in Hr. injection Hr as <- _. reflexivity.
      * rewrite H in Hr. injection Hr as Hr _. now contradiction Hc1.
      * rewrite H in Hr.
        destruct Ha as [<- | [<- | [<- | []]]]; injection Hr as Hr _; now contradiction Hc1.
  - discriminate.
Qed.

(** A two-character option string of [main] is the short help option. *)
Lemma short_option_is_help (c0 c : char) act :
  Argparse.action_of [c0; c] options = Some act -> act = Argparse.Help.
Proof.
  intros H. apply action_of_in, options_in in H.
  destruct H as [[-> _] | (a & _ & H & Ha)]; [reflexivity|].
  destruct Ha as [<- | [<- | [<- | []]]]; discriminate H.
Qed.

Lemma match_following_actions act next ts took :
  Argparse.match_following act next = inr (ts, took) ->
  Forall (fun t => fst t = act) ts.
Proof.
  destruct act as [|a]; cbn.
  - intros [= <- _]. now repeat constructor.
  - destruct next; [|discriminate]. intros [= <- _]. now repeat constructor.
Qed.

Lemma match_explicit_actions e :
  forall act o next ts took,
    Argparse.match_explicit options act o e next = inr (ts, took) ->
    Forall (fun t => fst t = act) ts.
Proof.
  induction e as [|c e IH]; intros act o next ts took; destruct act as [|a];
    cbn [Argparse.match_explicit];
    try discriminate; try (intros [= <- _]; now repeat constructor).
  destruct o as [|c0 o]; [discriminate|].
  destruct (Argparse.single_dash (c0 :: o)); [|discriminate].
  destruct (Argparse.action_of _ options) as [act'|] eqn:Hact; [|discriminate].
  apply short_option_is_help in Hact. subst act'.
  destruct e as [|c' e'].
  - cbn. intros [= <- _]. now repeat constructor.
  - destruct (Argparse.match_explicit options Argparse.Help _ (c' :: e') next)
      as [x|[ts' took']] eqn:Hrec; [discriminate|].
    intros [= <- _]. constructor; [reflexivity|]. exact (IH _ _ _ _ _ Hrec).
Qed.

Lemma match_following_exits act next x :
  Argparse.match_following act next = inl x -> x = SystemExit 2.
Proof.
  destruct act as [|a]; cbn; [discriminate|]. destruct next; [discriminate|]. now intros [= <-].
Qed.

Lemma match_explicit_exits e :
  forall act o next x,
    Argparse.match_explicit options act o e next = inl x -> x = SystemExit 2.
Proof.
  induction e as [|c e IH]; intros act o next x; destruct act as [|a];
    cbn [Argparse.match_explicit];
    try discriminate; try (now intros [= <-]).
  destruct o as [|c0 o]; [now intros [= <-]|].
  destruct (Argparse.single_dash (c0 :: o)); [|now intros [= <-]].
  destruct (Argparse.action_of _ options) as [act'|] eqn:Hact; [|now intros [= <-]].
  destruct e as [|c' e'].
  - destruct (Argparse.match_following act' next) as [y|[ts' took']] eqn:Hrec;
      [|discriminate].
    intros [= <-]. exact (match_following_exits _ _ Hrec).
  - destruct (Argparse.match_explicit options act' _ (c' :: e') next)
      as [y|[ts' took']] eqn:Hrec; [|discriminate].
    intros [= <-]. exact (IH _ _ _ _ Hrec).
Qed.

(** What one option leaves in the namespace, or how it ends the run. *)
Lemma take_actions_reads act ts :
  Forall (fun t => fst t = act) ts ->
  forall ns,
    match Argparse.take_actions ts ns with
    | inr ns' =>
        forall f, Argparse.lookup f ns' <> None ->
                  Argparse.lookup f ns <> None
                  \/ exists a, act = Argparse.Store a /\ Argparse.flag a = f
    | inl x => x = SystemExit 0 /\ act = Argparse.Help
    end.
Proof.
  induction 1 as [|[act' vs] ts Hact _ IH]; intros ns; cbn.
  - auto.
  - cbn in Hact. subst act'. destruct act as [|a]; [auto|].
    specialize (IH ((Argparse.flag a, Argparse.get_values vs) :: ns)).
    destruct (Argparse.take_actions ts _) as [x|ns']; [exact IH|].
    intros f Hf. destruct (IH f Hf) as [Hl | Hs]; [|now right].
    cbn in Hl. destruct (text_eqb f (Argparse.flag a)) eqn:E; [|now left].
    right. exists a. split; [reflexivity|]. symmetry. now apply text_eqb_eq.
Qed.

Lemma arg_strings_pattern_marks argv :
  match Argparse.arg_strings_pattern options argv with
  | inr args => map fst args = argv /\ Forall marked args
  | inl x => x = SystemExit 2
  end.
Proof.
  induction argv as [|s rest IH]; cbn [Argparse.arg_strings_pattern].
  - split; [reflexivity | constructor].
  - destruct (text_eqb s (u "--")).
    + split.
      * cbn. f_equal. rewrite map_map. cbn. apply map_id.
      * constructor; [exact I|]. apply Forall_forall. intros x Hx.
        apply in_map_iff in Hx. destruct Hx as (a & <- & _). exact I.
    + destruct (Argparse.parse_optional options s) as [|act o e|] eqn:Hp;
        [| |reflexivity];
        (destruct (Argparse.arg_strings_pattern options rest) as [x|marks];
         [exact IH|]; destruct IH as [Hm Hf]; split; [cbn; now f_equal|];
         constructor; [|exact Hf]).
      * exact I.
      * exact Hp.
Qed.

(** The second pass stores a value only for an option that an argument
    string names, and exits with status 0 only when one asks for help. *)
Lemma consume_reads args :
  Forall marked args ->
  forall skip ns extras,
    match Argparse.consume options skip args ns extras with
    | inr (ns', _) =>
        forall f, Argparse.lookup f ns' <> None ->
                  Argparse.lookup f ns <> None
                  \/ exists s, In s (map fst args) /\ names f s = true
    | inl x =>
        x = SystemExit 2
        \/ (x = SystemExit 0 /\ exists s, In s (map fst args) /\ asks_help s = true)
    end.
Proof.
  induction 1 as [|[s k] rest Hk _ IH]; intros skip ns extras; cbn [Argparse.consume].
  - auto.
  - assert (Hlater : forall skip' ns0 extras0,
               match Argparse.consume options skip' rest ns0 extras0 with
               | inr (ns', _) =>
                   forall f, Argparse.lookup f ns' <> None ->
                             Argparse.lookup f ns0 <> None
                             \/ exists s0, In s0 (map fst ((s, k) :: rest))
                                           /\ names f s0 = true
               | inl x =>
                   x = SystemExit 2
                   \/ (x = SystemExit 0
                       /\ exists s0, In s0 (map fst ((s, k) :: rest))
                                     /\ asks_help s0 = true)
               end).
    { intros skip' ns0 extras0. specialize (IH skip' ns0 extras0).
      destruct (Argparse.consume options skip' rest ns0 extras0) as [x|[ns' ex']].
      - destruct IH as [IH | (Hx & s0 & Hin & Hs)]; [now left|].
        right. split; [exact Hx|]. exists s0. split; [now right | exact Hs].
      - intros f Hf. destruct (IH f Hf) as [Hl | (s0 & Hin & Hs)]; [now left|].
        right. exists s0. split; [now right | exact Hs]. }
    destruct skip; [apply Hlater|].
    destruct k as [|[act|] o e|]; try apply Hlater.
    unfold marked in Hk. cbn [fst snd] in Hk. apply parse_optional_reads in Hk.
    set (next := match rest with
                 | (v, Argparse.A) :: _ => Some v
                 | _ => None
                 end).
    destruct (match e with
              | Some e0 => Argparse.match_explicit options act o e0 next
              | None => Argparse.match_following act next
              end) as [x|[ts took]] eqn:Hm.
    { left. destruct e; [exact (match_explicit_exits _ _ _ _ Hm)
                        | exact (match_following_exits _ _ Hm)]. }
    assert (Hts : Forall (fun t => fst t = act) ts).
    { destruct e; [exact (match_explicit_actions _ _ _ _ Hm)
                  | exact (match_following_actions _ _ Hm)]. }
    pose proof (take_actions_reads Hts ns) as Htake.
    destruct (Argparse.take_actions ts ns) as [x|ns1].
    { destruct Htake as [-> ->]. right. split; [reflexivity|].
      exists s. split; [now left | exact Hk]. }
    specialize (Hlater took ns1 extras).
    destruct (Argparse.consume options took rest ns1 extras) as [x|[ns' ex']];
      [exact Hlater|].
    intros f Hf. destruct (Hlater f Hf) as [Hl | Hn]; [|now right].
    destruct (Htake f Hl) as [Hl0 | (a & -> & Hfa)]; [now left|].
    right. exists s. split; [now left|]. destruct Hk as (_ & _ & Hk). now rewrite <- Hfa.
Qed.

(** [parse_args] up to the namespace: a value is stored only for an
    option some argument string names, and the exit status is 2 unless
    an argument string asks for the help. *)
Lemma parse_reads argv :
  match Argparse.parse parser argv with
  | inr ns =>
      forall f, Argparse.lookup f ns <> None ->
                exists s, In s argv /\ names f s = true
  | inl x =>
      x = SystemExit 2
      \/ (x = SystemExit 0 /\ exists s, In s argv /\ asks_help s = true)
  end.
Proof.
  unfold Argparse.parse. fold options.
  pose proof (arg_strings_pattern_marks argv) as Hp.
  destruct (Argparse.arg_strings_pattern options argv) as [x|args]; [now left|].
  destruct Hp as [Hargv Hmarked].
  pose proof (consume_reads Hmarked false [] []) as Hc. rewrite Hargv in Hc.
  destruct (Argparse.consume options false args [] []) as [x|[ns extras]]; [exact Hc|].
  destruct (Argparse.missing parser ns); [|now left].
  destruct extras; [|now left].
  intros f Hf. destruct (Hc f Hf) as [Hl | Hs]; [now contradiction Hl | exact Hs].
Qed.

Lemma not_dash_led v :
  dash_led v = false ->
  Argparse.parse_optional options v = Argparse.Positional /\ text_eqb v (u "--") = false.
Proof.
  destruct v as [|c v]; [now split|]. cbn [dash_led]. intros H. split.
  - unfold Argparse.parse_optional. now rewrite H.
  - unfold Argparse.is_prefix_char in H. unfold u. cbn. now rewrite H.
Qed.

Lemma get_values_one v :
  text_eqb v (u "--") = false -> Argparse.get_values [v] = Str v.
Proof. intros H. unfold Argparse.get_values. cbn [Argparse.remove_dashes]. now rewrite H. Qed.

Lemma match_explicit_store m a o e next :
  Argparse.match_explicit m (Argparse.Store a) o e next
  = inr ([(Argparse.Store a, [e])], false).
Proof. now destruct e. Qed.

(** C7.  The command line of [main], read as [argparse] reads it.
    The URL is required: a command line with no argument string that
    names [--git-url] (in full, abbreviated, or with its value after an
    equals sign) yields no namespace; the program exits with status 2,
    or with status 0 when an argument string asks for the help.  The
    other two are optional: on an accepted command line that does not
    name [--branch-name] the branch is the literal [master], and on one
    that does not name [--repo-dir] the directory is [./].  A value that
    does not start with a dash is accepted after its option, in the three
    spellings of the URL option and for all three options together. *)
Theorem command_line_interface :
  (forall argv,
      (forall a, In a argv -> names (u "--git-url") a = false) ->
      parse_args argv = inl (SystemExit 2)
      \/ (parse_args argv = inl (SystemExit 0)
          /\ exists a, In a argv /\ asks_help a = true))
  /\ (forall argv args,
        parse_args argv = inr args ->
        ((forall a, In a argv -> names (u "--branch-name") a = false) ->
         args_branch_name args = Some (Str (u "master")))
        /\ ((forall a, In a argv -> names (u "--repo-dir") a = false) ->
            args_repo_dir args = Some (Str (u "./"))))
  /\ (forall url,
        dash_led url = false ->
        let args := {| args_git_url := Some (Str url);
                       args_branch_name := Some (Str (u "master"));
                       args_repo_dir := Some (Str (u "./")) |} in
        parse_args [u "--git-url"; url] = inr args
        /\ parse_args [u "--git-url=" ++ url] = inr args
        /\ parse_args [u "--git"; url] = inr args)
  /\ (forall url b d,
        dash_led url = false -> dash_led b = false -> dash_led d = false ->
        parse_args [u "--git-url"; url; u "--branch-name"; b; u "--repo-dir"; d]
        = inr {| args_git_url := Some (Str url);
                 args_branch_name := Some (Str b);
                 args_repo_dir := Some (Str d) |}).
Proof.
  split; [|split; [|split]].
  - intros argv Hnot. unfold parse_args.
    pose proof (parse_reads argv) as H.
    destruct (Argparse.parse parser argv) as [x|ns] eqn:Hp.
    + destruct H as [-> | [-> H]]; [now left | right; now split].
    + exfalso. revert Hp. unfold Argparse.parse. fold options.
      destruct (Argparse.arg_strings_pattern options argv) as [x|marks]; [discriminate|].
      destruct (Argparse.consume options false marks [] []) as [x|[ns' extras]];
        [discriminate|].
      destruct (Argparse.lookup (u "--git-url") ns') as [v|] eqn:Hl.
      * destruct (Argparse.missing parser ns'); [|discriminate].
        destruct extras; [|discriminate]. intros [= <-].
        destruct (H (u "--git-url")) as (s & Hin & Hs); [now rewrite Hl|].
        rewrite (Hnot s Hin) in Hs. discriminate Hs.
      * unfold Argparse.missing, parser. cbn [filter git_url_arg Argparse.required
          Argparse.flag andb]. rewrite Hl. discriminate.
  - intros argv args Hp. unfold parse_args in Hp.
    pose proof (parse_reads argv) as H.
    destruct (Argparse.parse parser argv) as [x|ns]; [discriminate|].
    injection Hp as <-. cbn [args_branch_name args_repo_dir]. unfold Argparse.attribute.
    split; intros Hnot.
    + destruct (Argparse.lookup (Argparse.flag branch_name_arg) ns) eqn:Hl; [|reflexivity].
      destruct (H (u "--branch-name")) as (s & Hin & Hs).
      { change (u "--branch-name") with (Argparse.flag branch_name_arg). now rewrite Hl. }
      rewrite (Hnot s Hin) in Hs. discriminate Hs.
    + destruct (Argparse.lookup (Argparse.flag repo_dir_arg) ns) eqn:Hl; [|reflexivity].
      destruct (H (u "--repo-dir")) as (s & Hin & Hs).
      { change (u "--repo-dir") with (Argparse.flag repo_dir_arg). now rewrite Hl. }
      rewrite (Hnot s Hin) in Hs. discriminate Hs.
  - intros url Hu args. destruct (not_dash_led _ Hu) as [Hpos Hsep].
    pose proof (get_values_one _ Hsep) as Hval.
    split; [|split]; unfold parse_args, Argparse.parse; fold options;
      cbn [Argparse.arg_strings_pattern].
    + change (text_eqb (u "--git-url") (u "--")) with false. cbv iota.
      rewrite Hsep, Hpos.
      change (Argparse.parse_optional options (u "--git-url"))
        with (Argparse.Optional (Some (Argparse.Store git_url_arg)) (u "--git-url") None).
      cbn [Argparse.consume Argparse.match_following Argparse.take_actions].
      rewrite Hval. reflexivity.
    + change (text_eqb (u "--git-url=" ++ url) (u "--")) with false. cbv iota.
      change (Argparse.parse_optional options (u "--git-url=" ++ url))
        with (Argparse.Optional (Some (Argparse.Store git_url_arg)) (u "--git-url")
                (Some url)).
      cbn [Argparse.consume]. rewrite match_explicit_store.
      cbn [Argparse.take_actions Argparse.consume]. rewrite Hval. reflexivity.
    + change (text_eqb (u "--git") (u "--")) with false. cbv iota.
      rewrite Hsep, Hpos.
      change (Argparse.parse_optional options (u "--git"))
        with (Argparse.Optional (Some (Argparse.Store git_url_arg)) (u "--git-url") None).
      cbn [Argparse.consume Argparse.match_following Argparse.take_actions].
      rewrite Hval. reflexivity.
  - intros url b d Hu Hb Hd.
    destruct (not_dash_led _ Hu) as [Hpos Hsep].
    destruct (not_dash_led _ Hb) as [Hposb Hsepb].
    destruct (not_dash_led _ Hd) as [Hposd Hsepd].
    unfold parse_args, Argparse.parse; fold options; cbn [Argparse.arg_strings_pattern].
    change (text_eqb (u "--git-url") (u "--")) with false.
    change (text_eqb (u "--branch-name") (u "--")) with false.
    change (text_eqb (u "--repo-dir") (u "--")) with false. cbv iota.
    rewrite Hsep, Hpos, Hsepb, Hposb, Hsepd, Hposd.
    change (Argparse.parse_optional options (u "--git-url"))
      with (Argparse.Optional (Some (Argparse.Store git_url_arg)) (u "--git-url") None).
    change (Argparse.parse_optional options (u "--branch-name"))
      with (Argparse.Optional (Some (Argparse.Store branch_name_arg)) (u "--branch-name")
              None).
    change (Argparse.parse_optional options (u "--repo-dir"))
      with (Argparse.Optional (Some (Argparse.Store repo_dir_arg)) (u "--repo-dir") None).
    cbn [Argparse.consume Argparse.match_following Argparse.take_actions].
    rewrite (get_values_one _ Hsep), (get_values_one _ Hsepb), (get_values_one _ Hsepd).
    reflexivity.
Qed.

(** * Further properties *)

(** ** The lines [execute_cmd] yields *)

Lemma length_snoc_nonzero (x : list byte) (b : byte) :
  Nat.eqb (List.length (x ++ [b])) 0 = false.
Proof. rewrite length_app. cbn. now rewrite Nat.add_comm. Qed.

Lemma read_loop_terminated cs :
  forall buf c_last,
    pending buf c_last ->
    Forall terminated_line (read_loop (fun b => b) cs buf c_last).
Proof.
  induction cs as [|c cs IH]; intros buf c_last Hp; [constructor|].
  cbn [read_loop].
  destruct Hp as (p & Hplain & [[-> Hlast] | [-> ->]]).
  - rewrite Hlast. cbn [andb app].
    destruct (byte_eq_dec c x0a) as [-> | Hn].
    + rewrite is_byte_refl. cbn [app]. constructor.
      * exists p. auto.
      * apply IH. exists []. split; [constructor|]. left. now split.
    + rewrite (is_byte_false Hn). cbn [app].
      destruct (byte_eq_dec c x0d) as [-> | Hr].
      * apply IH. exists p. split; [exact Hplain|]. right. now split.
      * apply IH. exists (p ++ [c]). split.
        -- apply Forall_app. split; [exact Hplain|]. constructor; [now split|constructor].
        -- left. split; [reflexivity|]. cbn. now apply is_byte_false.
  - rewrite is_byte_refl, length_snoc_nonzero. cbn [andb negb].
    destruct (byte_eq_dec c x0a) as [-> | Hn].
    + rewrite is_byte_refl. cbn [negb app]. constructor.
      * exists p. split; [exact Hplain|]. right. right. now rewrite <- app_assoc.
      * apply IH. exists []. split; [constructor|]. left. now split.
    + rewrite (is_byte_false Hn). cbn [negb app]. constructor.
      * exists p. auto.
      * destruct (byte_eq_dec c x0d) as [-> | Hr].
        -- apply IH. exists []. split; [constructor|]. right. now split.
        -- apply IH. exists [c]. split.
           ++ constructor; [now split|constructor].
           ++ left. split; [reflexivity|]. cbn. now apply is_byte_false.
Qed.

(** X1.  Every line [execute_cmd] yields after the echo is the decoding
    of a run of bytes free of newline and carriage return that is closed
    by a newline, a carriage return, or a carriage return and a newline;
    and these runs, in order, are the front of the output. *)
Theorem execute_cmd_lines_are_terminated
  (cmd : list text) (cwd : option text) (w : World) :
  exists chunks rest,
    yielded (trace (execute_cmd cmd cwd w)) = echo cmd :: map decode_replace chunks
    /\ Forall terminated_line chunks
    /\ output_of cmd cwd w = List.concat chunks ++ rest.
Proof.
  exists (read_loop (fun b => b) (output_of cmd cwd w) [] None),
         (leftover (output_of cmd cwd w) [] None).
  split; [apply yielded_execute_cmd|]. split.
  - apply read_loop_terminated. exists []. split; [constructor|]. left. now split.
  - symmetry. apply (chunks_and_leftover (output_of cmd cwd w) [] None).
Qed.

Lemma leftover_newline body :
  forall buf c_last, leftover (body ++ [x0a]) buf c_last = [].
Proof.
  intros buf c_last. rewrite leftover_app. cbn [leftover].
  now rewrite is_byte_refl.
Qed.

(** X2.  When the output of the child is empty or ends in a newline,
    nothing is lost: the lines yielded after the echo are the decodings
    of pieces that, put together, are the whole output. *)
Theorem execute_cmd_yields_all_of_terminated_output
  (cmd : list text) (cwd : option text) (w : World) :
  output_of cmd cwd w = [] \/ (exists body, output_of cmd cwd w = body ++ [x0a]) ->
  exists chunks,
    yielded (trace (execute_cmd cmd cwd w)) = echo cmd :: map decode_replace chunks
    /\ List.concat chunks = output_of cmd cwd w.
Proof.
  intros Hout.
  exists (read_loop (fun b => b) (output_of cmd cwd w) [] None).
  split; [apply yielded_execute_cmd|].
  pose proof (chunks_and_leftover (output_of cmd cwd w) [] None) as H.
  cbn [app] in H. rewrite <- H at 2.
  destruct Hout as [-> | [body ->]].
  - reflexivity.
  - rewrite leftover_newline. now rewrite app_nil_r.
Qed.

(** ** Errors name the command that failed *)

Lemma faithful_ret {A} (a : A) : faithful (ret a).
Proof. intros w rc cmd H. discriminate H. Qed.

Lemma faithful_logging_info msg : faithful (logging_info msg).
Proof. intros w rc cmd H. discriminate H. Qed.

Lemma faithful_os_path_exists p : faithful (os_path_exists p).
Proof. intros w rc cmd H. discriminate H. Qed.

Lemma faithful_decode b : faithful (decode b).
Proof. intros w rc cmd H. unfold decode in H. destruct (decode_strict b); discriminate H. Qed.

Lemma faithful_execute_cmd cmd cwd : faithful (execute_cmd cmd cwd).
Proof.
  intros w rc c H. rewrite execute_cmd_run in H. cbn [outcome] in H.
  destruct (exit_status cmd cwd w =? 0)%Z eqn:E; [discriminate H|].
  injection H as <- <-. apply Z.eqb_neq in E. split; [exact E|].
  exists []. apply (cmds_execute_cmd cmd cwd w).
Qed.

Lemma faithful_check_output cmd cwd : faithful (check_output cmd cwd).
Proof.
  intros w rc c H. unfold check_output in *.
  destruct (spawn cmd cwd false w) as [[out ret] w'].
  cbn [outcome trace] in *.
  destruct (ret =? 0)%Z eqn:E; [discriminate H|].
  injection H as <- <-. apply Z.eqb_neq in E. split; [exact E|].
  now exists [].
Qed.

Lemma faithful_bind {A B} (m : prog A) (f : A -> prog B) :
  faithful m -> (forall a, faithful (f a)) -> faithful (bind m f).
Proof.
  intros Hm Hf w rc cmd H. unfold bind in *.
  destruct (outcome (m w)) as [e|a] eqn:E; cbn [outcome trace] in *.
  - injection H as ->. exact (Hm w rc cmd E).
  - destruct (Hf a (final (m w)) rc cmd H) as [Hrc [t Ht]].
    split; [exact Hrc|]. exists (commands (trace (m w)) ++ t).
    now rewrite commands_app, Ht, app_assoc.
Qed.

Lemma faithful_try_except (m : prog unit) h :
  faithful m ->
  (forall rc cmd, reraises (h rc cmd) rc cmd \/ faithful (h rc cmd)) ->
  faithful (try_except m h).
Proof.
  intros Hm Hh w rc cmd H. unfold try_except in *.
  destruct (outcome (m w)) as [[rc0 cmd0| | | |]|[]] eqn:E;
    try (rewrite E in H; discriminate H).
  cbn [outcome trace] in *.
  destruct (Hh rc0 cmd0) as [Hre | Hf].
  - rewrite Hre in H |- *. cbn [outcome trace] in *. injection H as <- <-.
    rewrite app_nil_r. exact (Hm w rc0 cmd0 E).
  - destruct (Hf (final (m w)) rc cmd H) as [Hrc [t Ht]].
    split; [exact Hrc|]. exists (commands (trace (m w)) ++ t).
    now rewrite commands_app, Ht, app_assoc.
Qed.

Lemma faithful_for_each {A} (xs : list A) body :
  (forall x, faithful (body x)) -> faithful (for_each xs body).
Proof.
  intros Hb. induction xs as [|x xs IH]; [apply faithful_ret|].
  cbn [for_each]. apply faithful_bind; [apply Hb | intros _; exact IH].
Qed.

Lemma reraise_unless_cases code rc cmd :
  reraises (reraise_unless code rc cmd) rc cmd \/ faithful (reraise_unless code rc cmd).
Proof.
  unfold reraise_unless. destruct (negb (rc =? code)%Z).
  - left. intros w. reflexivity.
  - right. apply faithful_ret.
Qed.

Lemma faithful_make_commit self : faithful (_make_commit self).
Proof.
  unfold _make_commit.
  repeat (apply faithful_bind; [apply faithful_execute_cmd | intros _]).
  apply faithful_logging_info.
Qed.

Lemma faithful_reset_one self filename : faithful (reset_one self filename).
Proof.
  unfold reset_one, _raise_error_if_git_file_not_exists.
  apply faithful_try_except; [|apply reraise_unless_cases].
  apply faithful_bind.
  - apply faithful_bind; [|intros _; apply faithful_execute_cmd].
    apply faithful_try_except; [apply faithful_execute_cmd | apply reraise_unless_cases].
  - intros _. apply faithful_bind; [apply faithful_execute_cmd|].
    intros _. apply faithful_logging_info.
Qed.

Lemma faithful_reset_deleted_files self : faithful (_reset_deleted_files self).
Proof.
  unfold _reset_deleted_files.
  apply faithful_bind; [apply faithful_check_output | intros status].
  apply faithful_bind; [apply faithful_decode | intros status_text].
  apply faithful_for_each. intros f. apply faithful_reset_one.
Qed.

Lemma faithful_pull_and_resolve self : faithful (_pull_and_resolve_conflicts self).
Proof.
  unfold _pull_and_resolve_conflicts.
  apply faithful_bind; [apply faithful_logging_info | intros _].
  apply faithful_bind; [apply faithful_execute_cmd | intros _].
  apply faithful_bind; [apply faithful_execute_cmd | intros _].
  apply faithful_bind; [|intros _; apply faithful_logging_info].
  apply faithful_try_except; [apply faithful_execute_cmd|].
  intros rc cmd. destruct (rc =? 1)%Z.
  - right. apply faithful_bind; [apply faithful_make_commit|].
    intros _. apply faithful_execute_cmd.
  - left. intros w. reflexivity.
Qed.

Lemma faithful_update_repo self : faithful (_update_repo self).
Proof.
  unfold _update_repo, repo_is_dirty, _save_local_changes.
  apply faithful_bind; [apply faithful_reset_deleted_files | intros _].
  apply faithful_bind.
  - apply faithful_bind; [apply faithful_check_output | intros out].
    apply faithful_bind; [apply faithful_decode | intros t]. apply faithful_ret.
  - intros dirty. apply faithful_bind; [|intros _; apply faithful_pull_and_resolve].
    destruct dirty; [|apply faithful_ret].
    apply faithful_bind; [apply faithful_execute_cmd|].
    intros _. apply faithful_make_commit.
Qed.

Lemma faithful_initialize_repo self : faithful (_initialize_repo self).
Proof.
  unfold _initialize_repo.
  apply faithful_bind; [apply faithful_logging_info | intros _].
  apply faithful_bind; [apply faithful_execute_cmd | intros _].
  apply faithful_bind; [apply faithful_execute_cmd | intros _].
  apply faithful_logging_info.
Qed.

(** X3.  Whenever a run of [pull_from_remote] ends in a
    [CalledProcessError], the status the error carries is not 0 and the
    command it carries is the last command the run started: nothing is
    started after the failure that ends the run. *)
Theorem pull_from_remote_error_names_last_command
  (self : GitAutoSync) (w : World) (rc : Z) (cmd : list text) :
  outcome (pull_from_remote self w) = inl (CalledProcessError rc cmd) ->
  rc <> 0%Z
  /\ exists t, commands (trace (pull_from_remote self w)) = t ++ [cmd].
Proof.
  revert w rc cmd. change (faithful (pull_from_remote self)).
  unfold pull_from_remote.
  apply faithful_bind; [apply faithful_logging_info | intros _].
  apply faithful_bind; [apply faithful_os_path_exists | intros present].
  apply faithful_bind; [|intros _; apply faithful_logging_info].
  destruct (negb present); [apply faithful_initialize_repo | apply faithful_update_repo].
Qed.

(** ** A run that ends normally ended with a merge *)

Lemma bind_ok_inv {A B} (m : prog A) (f : A -> prog B) w b :
  outcome (bind m f w) = inr b ->
  exists a, outcome (m w) = inr a /\ outcome (f a (final (m w))) = inr b.
Proof.
  unfold bind. destruct (outcome (m w)) as [e|a]; cbn [outcome]; [discriminate|].
  intros H. now exists a.
Qed.

Lemma succeeds_after_execute_cmd cmd cwd : succeeds_after cmd (execute_cmd cmd cwd).
Proof. intros w a _. exists []. apply (cmds_execute_cmd cmd cwd w). Qed.

Lemma succeeds_after_raise {A} c e : succeeds_after c (raise (A:=A) e).
Proof. intros w a H. discriminate H. Qed.

Lemma succeeds_after_then {A B} c (m : prog A) (f : A -> prog B) :
  (forall a, succeeds_after c (f a)) -> succeeds_after c (bind m f).
Proof.
  intros Hf w b H. destruct (bind_ok_inv _ _ _ H) as (a & Hm & Hfa).
  destruct (Hf a _ _ Hfa) as [t Ht].
  exists (commands (trace (m w)) ++ t).
  rewrite (bind_ok _ _ _ Hm), cmds_after, Ht. now rewrite app_assoc.
Qed.

Lemma succeeds_after_silent {A B} c (m : prog A) (f : A -> prog B) :
  succeeds_after c m -> (forall a, silent (f a)) -> succeeds_after c (bind m f).
Proof.
  intros Hm Hf w b H. destruct (bind_ok_inv _ _ _ H) as (a & Hma & _).
  destruct (Hm _ _ Hma) as [t Ht]. exists t.
  rewrite (bind_ok _ _ _ Hma), cmds_after, Hf, app_nil_r. exact Ht.
Qed.

Lemma succeeds_after_try_except {A} c (m : prog A) h :
  succeeds_after c m -> (forall rc cmd, succeeds_after c (h rc cmd)) ->
  succeeds_after c (try_except m h).
Proof.
  intros Hm Hh w a H. unfold try_except in *.
  destruct (outcome (m w)) as [[rc cmd| | | |]|a'] eqn:E;
    try (rewrite E in H; discriminate H).
  - cbn [outcome trace] in *. destruct (Hh rc cmd _ _ H) as [t Ht].
    exists (commands (trace (m w)) ++ t). now rewrite commands_app, Ht, app_assoc.
  - exact (Hm w a' E).
Qed.

Lemma silent_logging_info msg : silent (logging_info msg).
Proof. intros w. reflexivity. Qed.

Lemma pull_and_resolve_succeeds_after_merge self :
  succeeds_after (merge_cmd self) (_pull_and_resolve_conflicts self).
Proof.
  unfold _pull_and_resolve_conflicts.
  do 3 (apply succeeds_after_then; intros _).
  apply succeeds_after_silent; [|intros _; apply silent_logging_info].
  apply succeeds_after_try_except; [apply succeeds_after_execute_cmd|].
  intros rc cmd. destruct (rc =? 1)%Z.
  - apply succeeds_after_then. intros _. apply succeeds_after_execute_cmd.
  - apply succeeds_after_raise.
Qed.

Lemma initialize_repo_success self w :
  outcome (_initialize_repo self w) = inr tt ->
  cmds (_initialize_repo self) w = [clone_cmd self; checkout_cmd self].
Proof.
  intros H. rewrite cmds_initialize_repo.
  unfold _initialize_repo in H.
  destruct (bind_ok_inv _ _ _ H) as (a0 & _ & H1).
  destruct (bind_ok_inv _ _ _ H1) as (a1 & Hclone & _).
  cbn [logging_info emit final] in Hclone.
  rewrite execute_cmd_run in Hclone. cbn [outcome] in Hclone.
  destruct (exit_status (clone_cmd self) None w =? 0)%Z; [reflexivity|discriminate].
Qed.

Lemma update_repo_succeeds_after_merge self :
  succeeds_after (merge_cmd self) (_update_repo self).
Proof.
  unfold _update_repo. do 3 (apply succeeds_after_then; intros ?).
  apply pull_and_resolve_succeeds_after_merge.
Qed.

(** X4.  A run of [pull_from_remote] that ends normally has started, as
    its last command, the merge when the local directory existed; when it
    did not, the run started the clone and the checkout of the branch and
    nothing else. *)
Theorem pull_from_remote_success_ends_with_merge (self : GitAutoSync) (w : World) :
  outcome (pull_from_remote self w) = inr tt ->
  if path_exists (repo_dir self) w
  then exists t, commands (trace (pull_from_remote self w)) = t ++ [merge_cmd self]
  else commands (trace (pull_from_remote self w))
       = [clone_cmd self; checkout_cmd self].
Proof.
  rewrite pull_from_remote_branch. cbn [outcome after]. intros H.
  destruct (bind_ok_inv _ _ _ H) as ([] & Hbody & _).
  rewrite cmds_after. change (commands [announce self]) with (@nil (list text)).
  cbn [app]. rewrite (bind_ok _ _ _ Hbody), cmds_after.
  change (commands (trace (logging_info (u "Pulled from repo: " ++ git_url self)
                             (final ((if negb (path_exists (repo_dir self) w)
                                      then _initialize_repo self
                                      else _update_repo self) w)))))
    with (@nil (list text)).
  rewrite app_nil_r.
  destruct (path_exists (repo_dir self) w); cbn [negb] in *.
  - exact (update_repo_succeeds_after_merge self w Hbody).
  - exact (initialize_repo_success self w Hbody).
Qed.

(** ** The deleted-file loop and status 128 *)

Lemma reset_one_never_128 self filename w cmd :
  outcome (reset_one self filename w) <> inl (CalledProcessError 128 cmd).
Proof.
  unfold reset_one, try_except.
  destruct (outcome (bind _ _ w)) as [[rc c| | | |]|[]] eqn:E;
    try (rewrite E; discriminate).
  unfold reraise_unless. destruct (rc =? 128)%Z eqn:Hrc; cbn [negb outcome raise ret].
  - discriminate.
  - intros H. injection H as H _. subst rc. discriminate Hrc.
Qed.

Lemma for_each_reset_never_128 self files :
  forall w cmd,
    outcome (for_each files (reset_one self) w) <> inl (CalledProcessError 128 cmd).
Proof.
  induction files as [|f files IH]; intros w cmd; [discriminate|].
  rewrite for_each_cons. unfold bind.
  destruct (outcome (reset_one self f w)) as [e|[]] eqn:E; cbn [outcome].
  - intros H. injection H as ->. exact (reset_one_never_128 self f w E).
  - apply IH.
Qed.

Lemma check_output_trace cmd cwd w : trace (check_output cmd cwd w) = [Exec cmd cwd].
Proof. unfold check_output. now destruct (spawn cmd cwd false w) as [[out rc] w']. Qed.

Lemma check_output_error cmd cwd w e :
  outcome (check_output cmd cwd w) = inl e -> exists rc, e = CalledProcessError rc cmd.
Proof.
  unfold check_output. destruct (spawn cmd cwd false w) as [[out rc] w'].
  cbn [outcome]. destruct (rc =? 0)%Z; [discriminate|].
  intros H. injection H as <-. now exists rc.
Qed.

(** X5.  The loop over the deleted files never ends in an error with
    status 128: when [_reset_deleted_files] does end in one, it is the
    [git status] query itself that failed, and no other command was
    started. *)
Theorem reset_deleted_files_128_is_status
  (self : GitAutoSync) (w : World) (cmd : list text) :
  outcome (_reset_deleted_files self w) = inl (CalledProcessError 128 cmd) ->
  cmd = status_cmd
  /\ commands (trace (_reset_deleted_files self w)) = [status_cmd].
Proof.
  unfold _reset_deleted_files.
  destruct (outcome (check_output status_cmd (cwd self) w)) as [e|out] eqn:E.
  - rewrite (bind_raise _ _ _ E). cbn [outcome trace].
    destruct (check_output_error _ _ _ E) as [rc ->].
    intros H. injection H as _ <-. rewrite check_output_trace. split; reflexivity.
  - rewrite (bind_ok _ _ _ E). cbn [outcome after].
    intros H. exfalso. unfold bind at 1, decode in H.
    destruct (decode_strict out) as [status_text|]; cbn [outcome trace final ret raise] in H.
    + exact (for_each_reset_never_128 self _ _ H).
    + discriminate H.
Qed.

(** ** Saving local changes *)

Lemma cmds_exec_then {B} c d (k : prog B) w :
  cmds (bind (execute_cmd c d) (fun _ => k)) w =
  c :: (if (exit_status c d w =? 0)%Z then cmds k (world_after c d w) else []).
Proof.
  rewrite cmds_bind, cmds_execute_cmd, execute_cmd_final.
  rewrite execute_cmd_run. cbn [outcome].
  now destruct (exit_status c d w =? 0)%Z.
Qed.

Lemma outcome_exec_then {B} c d (k : prog B) w :
  outcome (bind (execute_cmd c d) (fun _ => k) w) =
  if (exit_status c d w =? 0)%Z then outcome (k (world_after c d w))
  else inl (CalledProcessError (exit_status c d w) c).
Proof.
  unfold bind. rewrite execute_cmd_run. cbn [outcome final].
  now destruct (exit_status c d w =? 0)%Z.
Qed.

(** X6.  [_save_local_changes] starts its five commands in order and
    stops at the first one that fails: what it has started is always a
    front piece of the five; it is all five when the call ends normally,
    and when the call fails its error is the [CalledProcessError] of the
    last command started. *)
Theorem save_local_changes_commands (self : GitAutoSync) (w : World) :
  exists rest,
    save_commands self = cmds (_save_local_changes self) w ++ rest
    /\ match outcome (_save_local_changes self w) with
       | inr _ => rest = []
       | inl e =>
           exists rc cmd t,
             e = CalledProcessError rc cmd /\ rc <> 0%Z
             /\ cmds (_save_local_changes self) w = t ++ [cmd]
       end.
Proof.
  unfold _save_local_changes, _make_commit, save_commands.
  rewrite !cmds_exec_then, !outcome_exec_then.
  repeat match goal with
         | |- context [(exit_status ?c ?d ?w0 =? 0)%Z] =>
             destruct (exit_status c d w0 =? 0)%Z eqn:?
         end;
    (eexists; split; [cbn [app]; reflexivity|]);
    first [ reflexivity
          | match goal with
            | |- exists rc cmd t, _ = _ /\ _ /\ ?l = t ++ [cmd] =>
                eexists _, _, (removelast l)
            end;
            split; [reflexivity|];
            split; [apply Z.eqb_neq; eassumption | reflexivity] ].
Qed.

(** ** A status query that cannot be used *)

(** X7.  When the local directory exists and the [git status] query
    exits with a nonzero status or prints bytes that are not valid UTF-8,
    the run ends right there, in the error of the query or in
    [UnicodeDecodeError]: the query is the only command started. *)
Theorem pull_from_remote_unusable_status
  (self : GitAutoSync) (w w' : World) (out : list byte) (rc : Z) :
  path_exists (repo_dir self) w = true ->
  spawn status_cmd (cwd self) false w = (out, rc, w') ->
  rc <> 0%Z \/ decode_strict out = None ->
  commands (trace (pull_from_remote self w)) = [status_cmd]
  /\ outcome (pull_from_remote self w)
     = inl (if (rc =? 0)%Z then UnicodeDecodeError
            else CalledProcessError rc status_cmd).
Proof.
  intros Hpresent Hspawn Hbad.
  assert (Hreset : _reset_deleted_files self w
                   = Res [Exec status_cmd (cwd self)] w'
                         (inl (if (rc =? 0)%Z then UnicodeDecodeError
                               else CalledProcessError rc status_cmd))).
  { unfold _reset_deleted_files, bind at 1, check_output. rewrite Hspawn.
    cbn [outcome trace final].
    destruct (rc =? 0)%Z eqn:Hrc; cbn [outcome trace final]; [|reflexivity].
    destruct Hbad as [Hne | Hdec]; [apply Z.eqb_eq in Hrc; contradiction|].
    unfold bind, decode. rewrite Hdec. reflexivity. }
  rewrite pull_from_remote_branch, Hpresent. cbn [negb].
  assert (Hupd : outcome (_update_repo self w)
                 = inl (if (rc =? 0)%Z then UnicodeDecodeError
                        else CalledProcessError rc status_cmd)
                 /\ trace (_update_repo self w) = [Exec status_cmd (cwd self)]).
  { assert (Hr : outcome (_reset_deleted_files self w)
                 = inl (if (rc =? 0)%Z then UnicodeDecodeError
                        else CalledProcessError rc status_cmd)) by now rewrite Hreset.
    unfold _update_repo. rewrite (bind_raise _ _ _ Hr), Hreset. split; reflexivity. }
  destruct Hupd as [Hout Htr].
  rewrite (bind_raise _ _ _ Hout), Htr. split; reflexivity.
Qed.

(** ** Properties of traces that sequencing keeps *)

Lemma always_ret {A} P (a : A) : closed P -> always P (ret a).
Proof. intros [H0 _] w. exact H0. Qed.

Lemma always_raise {A} P e : closed P -> always P (raise (A:=A) e).
Proof. intros [H0 _] w. exact H0. Qed.

Lemma always_bind {A B} P (m : prog A) (f : A -> prog B) :
  closed P -> always P m -> (forall a, always P (f a)) -> always P (bind m f).
Proof.
  intros [_ Happ] Hm Hf w. unfold bind.
  destruct (outcome (m w)); cbn [trace]; [apply Hm|].
  apply Happ; [apply Hm | apply Hf].
Qed.

Lemma always_try_except {A} P (m : prog A) h :
  closed P -> always P m -> (forall rc cmd, always P (h rc cmd)) ->
  always P (try_except m h).
Proof.
  intros [_ Happ] Hm Hh w. unfold try_except.
  destruct (outcome (m w)) as [[]|]; cbn [trace]; try apply Hm.
  apply Happ; [apply Hm | apply Hh].
Qed.

Lemma always_for_each {A} P (xs : list A) body :
  closed P -> (forall x, In x xs -> always P (body x)) ->
  always P (for_each xs body).
Proof.
  intros HP. induction xs as [|x xs IH]; intros Hb.
  - now apply always_ret.
  - cbn [for_each]. apply always_bind; [exact HP | apply Hb; now left |].
    intros _. apply IH. intros y Hy. apply Hb. now right.
Qed.

Lemma always_reraise_unless P code rc cmd :
  closed P -> always P (reraise_unless code rc cmd).
Proof.
  intros HP. unfold reraise_unless.
  destruct (negb _); [now apply always_raise | now apply always_ret].
Qed.

Lemma always_decode P b : closed P -> always P (decode b).
Proof.
  intros HP. unfold decode.
  destruct (decode_strict b); [now apply always_ret | now apply always_raise].
Qed.

(** ** What is yielded belongs to a command *)

Lemma narrated_app a b : narrated a -> narrated b -> narrated (a ++ b).
Proof.
  intros Ha Hb. induction Ha as [|msg t Ht IH|cmd cwd t Hc Ht IH|cmd cwd ls t Ht IH].
  - exact Hb.
  - cbn [app]. now constructor.
  - cbn [app]. now constructor.
  - cbn [app]. rewrite <- app_assoc. now constructor.
Qed.

Lemma narrated_closed : closed narrated.
Proof. split; [constructor | exact narrated_app]. Qed.

Lemma narrated_execute_cmd cmd cwd : always narrated (execute_cmd cmd cwd).
Proof.
  intros w. rewrite execute_cmd_run. cbn [trace].
  rewrite <- (app_nil_r (map Yield _)). constructor. constructor.
Qed.

Lemma narrated_logging_info msg : always narrated (logging_info msg).
Proof. intros w. cbn. constructor. constructor. Qed.

Lemma narrated_check_output cmd cwd :
  cmd = status_cmd \/ cmd = porcelain_cmd -> always narrated (check_output cmd cwd).
Proof.
  intros Hc w. rewrite check_output_trace. constructor; [exact Hc | constructor].
Qed.

Lemma narrated_make_commit self : always narrated (_make_commit self).
Proof.
  unfold _make_commit.
  repeat (apply always_bind;
          [exact narrated_closed | apply narrated_execute_cmd | intros _]).
  apply narrated_logging_info.
Qed.

Ltac narrate :=
  repeat first
    [ apply narrated_execute_cmd
    | apply narrated_logging_info
    | apply narrated_make_commit
    | apply narrated_check_output; auto
    | apply always_ret; exact narrated_closed
    | apply always_raise; exact narrated_closed
    | apply always_decode; exact narrated_closed
    | apply always_reraise_unless; exact narrated_closed
    | apply always_bind; [exact narrated_closed | | intros ?]
    | apply always_try_except; [exact narrated_closed | | intros ? ?]
    | apply always_for_each; [exact narrated_closed | intros ? _]
    | match goal with
      | |- always narrated (if ?b then _ else _) => destruct b
      end ].

Lemma narrated_update_repo self : always narrated (_update_repo self).
Proof.
  unfold _update_repo, _reset_deleted_files, reset_one,
    _raise_error_if_git_file_not_exists, repo_is_dirty, _save_local_changes,
    _pull_and_resolve_conflicts.
  narrate.
Qed.

(** X8.  In every run of [pull_from_remote] each line that is yielded
    belongs to a command: the trace is made of log messages, of the two
    status queries (started without an echo), and of commands each
    announced by its echo line, then started, then followed by nothing
    but its own output lines. *)
Theorem pull_from_remote_trace_is_narrated (self : GitAutoSync) (w : World) :
  narrated (trace (pull_from_remote self w)).
Proof.
  revert w. change (always narrated (pull_from_remote self)).
  unfold pull_from_remote.
  apply always_bind; [exact narrated_closed | apply narrated_logging_info | intros _].
  apply always_bind; [exact narrated_closed | intros w; constructor | intros present].
  apply always_bind; [exact narrated_closed | | intros _; apply narrated_logging_info].
  destruct (negb present).
  - unfold _initialize_repo. narrate.
  - apply narrated_update_repo.
Qed.

(** ** What the deleted-file loop starts *)

Lemma confined_closed (Q : list text -> Prop) :
  closed (fun t => Forall Q (commands t)).
Proof.
  split; [constructor|]. intros a b Ha Hb. rewrite commands_app.
  apply Forall_app. now split.
Qed.

Lemma confined_execute_cmd (Q : list text -> Prop) cmd cwd :
  Q cmd -> always (fun t => Forall Q (commands t)) (execute_cmd cmd cwd).
Proof.
  intros HQ w. change (Forall Q (cmds (execute_cmd cmd cwd) w)).
  rewrite cmds_execute_cmd. now constructor.
Qed.

Lemma confined_logging_info (Q : list text -> Prop) msg :
  always (fun t => Forall Q (commands t)) (logging_info msg).
Proof. intros w. constructor. Qed.

Lemma reset_one_confined self files f :
  In f files ->
  always (fun t => Forall (reset_command self files) (commands t)) (reset_one self f).
Proof.
  intros Hin. pose proof (confined_closed (reset_command self files)) as HP.
  unfold reset_one, _raise_error_if_git_file_not_exists.
  apply always_try_except; [exact HP | | intros; now apply always_reraise_unless].
  apply always_bind; [exact HP | | intros _].
  - apply always_bind; [exact HP | | intros _].
    + apply always_try_except; [exact HP | | intros; now apply always_reraise_unless].
      apply confined_execute_cmd. now left.
    + apply confined_execute_cmd. right. exists f. auto.
  - apply always_bind; [exact HP | | intros _; apply confined_logging_info].
    apply confined_execute_cmd. right. exists f. auto.
Qed.

(** X9.  When the [git status] query succeeds and its output decodes to
    [status], what [_reset_deleted_files] starts after the query is
    confined to [git fetch] and, for the file names the pattern finds in
    [status], the [cat-file] existence query and the [checkout --]
    restore of that file: no other file is touched and nothing is
    committed, merged or cloned. *)
Theorem reset_deleted_files_is_confined
  (self : GitAutoSync) (w w' : World) (out : list byte) (status : text) :
  spawn status_cmd (cwd self) false w = (out, 0%Z, w') ->
  decode_strict out = Some status ->
  exists rest,
    commands (trace (_reset_deleted_files self w)) = status_cmd :: rest
    /\ Forall (reset_command self (Re.findall DELETED_FILE_REGEX status)) rest.
Proof.
  intros Hspawn Hdec.
  exists (cmds (for_each (Re.findall DELETED_FILE_REGEX status) (reset_one self)) w').
  split.
  - unfold _reset_deleted_files, bind at 1, check_output. rewrite Hspawn.
    cbn [outcome trace final Z.eqb]. unfold bind at 1, decode. rewrite Hdec.
    reflexivity.
  - apply (always_for_each
             (P := fun t => Forall (reset_command self
                                      (Re.findall DELETED_FILE_REGEX status))
                                   (commands t))).
    + apply confined_closed.
    + intros f Hin. now apply reset_one_confined.
Qed.

(** ** How often a run commits and merges *)

Lemma count_app c a b : count c (a ++ b) = (count c a + count c b)%nat.
Proof. unfold count. now rewrite filter_app, length_app. Qed.

Lemma at_most_bind {A B} n1 n2 n c (m : prog A) (f : A -> prog B) :
  at_most n1 c m -> (forall a, at_most n2 c (f a)) -> (n1 + n2 <= n)%nat ->
  at_most n c (bind m f).
Proof.
  intros Hm Hf Hn w. rewrite cmds_bind, count_app.
  pose proof (Hm w) as H1. destruct (outcome (m w)) as [e|a].
  - cbn. lia.
  - pose proof (Hf a (final (m w))) as H2. lia.
Qed.

Lemma at_most_try_except {A} n1 n2 n c (m : prog A) h :
  at_most n1 c m -> (forall rc cmd, at_most n2 c (h rc cmd)) -> (n1 + n2 <= n)%nat ->
  at_most n c (try_except m h).
Proof.
  intros Hm Hh Hn w. rewrite cmds_try_except, count_app.
  pose proof (Hm w) as H1. destruct (outcome (m w)) as [[rc cmd| | | |]|a];
    try (cbn; lia).
  pose proof (Hh rc cmd (final (m w))) as H2. lia.
Qed.

Lemma at_most_for_each {A} c (xs : list A) body :
  (forall x, at_most 0 c (body x)) -> at_most 0 c (for_each xs body).
Proof.
  intros Hb. induction xs as [|x xs IH]; [intros w; cbn; lia|].
  cbn [for_each]. apply (at_most_bind (n1:=0) (n2:=0)); [apply Hb | intros _; exact IH | lia].
Qed.

Lemma at_most_silent {A} n c (m : prog A) : silent m -> at_most n c m.
Proof. intros H w. unfold cmds. rewrite H. cbn. lia. Qed.

Lemma at_most_execute_other c cmd cwd :
  cmd_eqb c cmd = false -> at_most 0 c (execute_cmd cmd cwd).
Proof. intros H w. rewrite cmds_execute_cmd. unfold count. cbn [filter]. now rewrite H. Qed.

Lemma at_most_execute_cmd c cmd cwd : at_most 1 c (execute_cmd cmd cwd).
Proof.
  intros w. rewrite cmds_execute_cmd. unfold count. cbn [filter].
  destruct (cmd_eqb c cmd); cbn; lia.
Qed.

Lemma at_most_check_output c cmd cwd :
  cmd_eqb c cmd = false -> at_most 0 c (check_output cmd cwd).
Proof.
  intros H w. unfold cmds. rewrite check_output_trace. unfold count.
  cbn [commands flat_map app filter]. now rewrite H.
Qed.

Lemma silent_ret {A} (a : A) : silent (ret a).
Proof. intros w. reflexivity. Qed.

Lemma silent_raise {A} e : silent (raise (A:=A) e).
Proof. intros w. reflexivity. Qed.

Lemma silent_decode b : silent (decode b).
Proof. intros w. unfold decode. now destruct (decode_strict b). Qed.

Lemma silent_reraise_unless code rc cmd : silent (reraise_unless code rc cmd).
Proof. intros w. unfold reraise_unless. now destruct (negb _). Qed.

Lemma at_most_weaken {A} n n' c (m : prog A) :
  at_most n c m -> (n <= n')%nat -> at_most n' c m.
Proof. intros H Hn w. pose proof (H w). lia. Qed.

(** A piece that never starts [c]: it starts nothing, or starts a
    command whose first words differ from those of [c]. *)
Ltac zero :=
  first
    [ apply at_most_silent;
      first [ apply silent_logging_info | apply silent_ret | apply silent_raise
            | apply silent_decode | apply silent_reraise_unless
            | intros ?; reflexivity ]
    | apply at_most_execute_other; reflexivity
    | apply at_most_check_output; reflexivity ].

Ltac seq a b := apply (at_most_bind (n1:=a) (n2:=b)); [ | intros ? | lia].

Lemma make_commit_commits self : at_most 1 commit_cmd (_make_commit self).
Proof.
  unfold _make_commit.
  seq 0%nat 1%nat; [zero|]. seq 0%nat 1%nat; [zero|]. seq 0%nat 1%nat; [zero|].
  seq 1%nat 0%nat; [apply at_most_execute_cmd | zero].
Qed.

Lemma make_commit_merges self : at_most 0 (merge_cmd self) (_make_commit self).
Proof.
  unfold _make_commit.
  seq 0%nat 0%nat; [zero|]. seq 0%nat 0%nat; [zero|]. seq 0%nat 0%nat; [zero|].
  seq 0%nat 0%nat; zero.
Qed.

Lemma reset_deleted_files_never_starts self c :
  cmd_eqb c status_cmd = false ->
  cmd_eqb c fetch_cmd = false ->
  (forall f, cmd_eqb c (cat_file_cmd self f) = false) ->
  (forall f, cmd_eqb c (restore_cmd f) = false) ->
  at_most 0 c (_reset_deleted_files self).
Proof.
  intros Hs Hf Hc Hr. unfold _reset_deleted_files.
  seq 0%nat 0%nat; [now apply at_most_check_output|].
  seq 0%nat 0%nat; [zero|].
  apply at_most_for_each. intros f. unfold reset_one, _raise_error_if_git_file_not_exists.
  apply (at_most_try_except (n1:=0) (n2:=0)); [ | intros; zero | lia].
  seq 0%nat 0%nat.
  - seq 0%nat 0%nat; [|now apply at_most_execute_other].
    apply (at_most_try_except (n1:=0) (n2:=0)); [ | intros; zero | lia].
    now apply at_most_execute_other.
  - seq 0%nat 0%nat; [now apply at_most_execute_other | zero].
Qed.

Lemma pull_and_resolve_commits self :
  at_most 1 commit_cmd (_pull_and_resolve_conflicts self).
Proof.
  unfold _pull_and_resolve_conflicts.
  seq 0%nat 1%nat; [zero|]. seq 0%nat 1%nat; [zero|]. seq 0%nat 1%nat; [zero|].
  seq 1%nat 0%nat; [|zero].
  apply (at_most_try_except (n1:=0) (n2:=1)); [zero | intros rc cmd | lia].
  destruct (rc =? 1)%Z.
  - seq 1%nat 0%nat; [apply make_commit_commits | zero].
  - apply (at_most_weaken (n:=0)); [zero | lia].
Qed.

Lemma update_repo_budget self :
  at_most 2 commit_cmd (_update_repo self)
  /\ at_most 2 (merge_cmd self) (_update_repo self).
Proof.
  split; unfold _update_repo, repo_is_dirty, _save_local_changes.
  - seq 0%nat 2%nat; [apply reset_deleted_files_never_starts; reflexivity|].
    seq 0%nat 2%nat; [seq 0%nat 0%nat; [zero|]; seq 0%nat 0%nat; zero|].
    seq 1%nat 1%nat; [|apply pull_and_resolve_commits].
    match goal with |- at_most _ _ (if ?b then _ else _) => destruct b end.
    + seq 0%nat 1%nat; [zero | apply make_commit_commits].
    + apply (at_most_weaken (n:=0)); [zero | lia].
  - seq 0%nat 2%nat; [apply reset_deleted_files_never_starts; reflexivity|].
    seq 0%nat 2%nat; [seq 0%nat 0%nat; [zero|]; seq 0%nat 0%nat; zero|].
    seq 0%nat 2%nat; [|exact (pull_and_resolve_merges self)].
    match goal with |- at_most _ _ (if ?b then _ else _) => destruct b end.
    + seq 0%nat 0%nat; [zero | apply make_commit_merges].
    + zero.
Qed.

Lemma initialize_repo_budget self c :
  cmd_eqb c (clone_cmd self) = false ->
  cmd_eqb c (checkout_cmd self) = false ->
  at_most 0 c (_initialize_repo self).
Proof.
  intros Hc Hk. unfold _initialize_repo.
  seq 0%nat 0%nat; [zero|]. seq 0%nat 0%nat; [now apply at_most_execute_other|].
  seq 0%nat 0%nat; [now apply at_most_execute_other | zero].
Qed.

(** X10.  No run of [pull_from_remote] starts [git commit] more than
    twice (once to save local changes, once to settle a conflict), and
    none starts the merge more than twice. *)
Theorem pull_from_remote_commits_and_merges (self : GitAutoSync) (w : World) :
  (count commit_cmd (commands (trace (pull_from_remote self w))) <= 2)%nat
  /\ (count (merge_cmd self) (commands (trace (pull_from_remote self w))) <= 2)%nat.
Proof.
  destruct (update_repo_budget self) as [Hc Hm].
  split; revert w;
    [change (at_most 2 commit_cmd (pull_from_remote self))
    |change (at_most 2 (merge_cmd self) (pull_from_remote self))];
    unfold pull_from_remote;
    (seq 0%nat 2%nat; [zero|]); (seq 0%nat 2%nat; [zero|]); (seq 2%nat 0%nat; [|zero]);
    (match goal with |- at_most _ _ (if ?b then _ else _) => destruct b end;
     [apply (at_most_weaken (n:=0)); [apply initialize_repo_budget; reflexivity | lia]
     |assumption]).
Qed.

(** ** The names the deleted-file pattern finds *)

Lemma rmatch_group (P : char -> Prop) p :
  (forall k c, In (Re.One true k) p \/ In (Re.Star true k) p ->
               Re.accepts k c = true -> P c) ->
  forall prev s cap r,
    Re.rmatch p prev s cap = Some r ->
    exists added,
      Re.group1 r = cap ++ added /\ Forall P added /\ (ones p <= List.length added)%nat.
Proof.
  induction p as [|it p IH]; intros HP prev s cap r H.
  - cbn in H. injection H as <-. exists []. cbn. rewrite app_nil_r. auto.
  - assert (HP' : forall k c, In (Re.One true k) p \/ In (Re.Star true k) p ->
                              Re.accepts k c = true -> P c).
    { intros k c [Hin | Hin]; apply HP; [left | right]; now right. }
    destruct it as [| |g k|g k].
    + cbn [Re.rmatch] in H. destruct (Re.at_bol prev); [|discriminate].
      exact (IH HP' _ _ _ _ H).
    + cbn [Re.rmatch] in H. destruct (Re.at_eol s); [|discriminate].
      exact (IH HP' _ _ _ _ H).
    + cbn [Re.rmatch] in H. destruct s as [|c s]; [discriminate|].
      destruct (Re.accepts k c) eqn:Hc; [|discriminate].
      destruct (IH HP' _ _ _ _ H) as (added & Hg & Hall & Hn).
      destruct g; cbn [Re.capture] in Hg.
      * exists (c :: added). rewrite Hg, <- app_assoc. split; [reflexivity|]. split.
        -- constructor; [|exact Hall]. apply (HP k c); [left; now left | exact Hc].
        -- unfold ones in *. cbn [filter List.length]. lia.
      * exists added. unfold ones in *. cbn [filter]. auto.
    + assert (Hones : ones (Re.Star g k :: p) = ones p).
      { unfold ones. cbn [filter]. now destruct g. }
      rewrite Hones. revert prev cap H.
      induction s as [|c s IHs]; intros prev cap H.
      * rewrite rmatch_star_nil in H. exact (IH HP' _ _ _ _ H).
      * rewrite rmatch_star_cons in H.
        destruct (Re.accepts k c) eqn:Hc; [|exact (IH HP' _ _ _ _ H)].
        destruct (Re.rmatch (Re.Star g k :: p) (Some c) s (Re.capture g cap c))
          as [r0|] eqn:E; [|exact (IH HP' _ _ _ _ H)].
        injection H as <-.
        destruct (IHs _ _ E) as (added & Hg & Hall & Hn).
        destruct g; cbn [Re.capture] in Hg.
        -- exists (c :: added). rewrite Hg, <- app_assoc. split; [reflexivity|]. split.
           ++ constructor; [|exact Hall]. apply (HP k c); [right; now left | exact Hc].
           ++ cbn [List.length]. lia.
        -- exists added. auto.
Qed.

Lemma findall_from_in p g :
  forall n prev s,
    In g (Re.findall_from n p prev s) ->
    exists prev' s' r, Re.rmatch p prev' s' [] = Some r /\ g = Re.group1 r.
Proof.
  induction n as [|n IH]; intros prev s Hin; [contradiction|].
  cbn [Re.findall_from] in Hin.
  destruct (Re.rmatch p prev s []) as [r|] eqn:E.
  - destruct (List.length (Re.rest r) <? List.length s)%nat.
    + destruct Hin as [<- | Hin]; [now exists prev, s, r | exact (IH _ _ Hin)].
    + destruct Hin as [<- | Hin]; [now exists prev, s, r|].
      destruct s as [|c s]; [contradiction | exact (IH _ _ Hin)].
  - destruct s as [|c s]; [contradiction | exact (IH _ _ Hin)].
Qed.

Lemma accepts_inline c : Re.accepts Re.NotNlCr c = true <-> inline c.
Proof.
  cbn [Re.accepts]. unfold inline. rewrite andb_true_iff, !negb_true_iff, !N.eqb_neq.
  reflexivity.
Qed.

(** X11.  Every file name the deleted-file pattern finds in a status
    output is non-empty and contains neither a newline nor a carriage
    return, so each is one argument on one line of the commands built
    from it. *)
Theorem deleted_files_are_inline (status f : text) :
  In f (Re.findall DELETED_FILE_REGEX status) ->
  f <> [] /\ Forall inline f.
Proof.
  intros Hin. destruct (findall_from_in _ _ _ _ _ Hin) as (prev & s & r & Hr & ->).
  assert (HP : forall k c,
             In (Re.One true k) DELETED_FILE_REGEX
             \/ In (Re.Star true k) DELETED_FILE_REGEX ->
             Re.accepts k c = true -> inline c).
  { intros k c Hk Hc. apply accepts_inline.
    assert (k = Re.NotNlCr) as <-; [|exact Hc].
    destruct Hk as [Hk | Hk]; cbv in Hk;
      repeat (destruct Hk as [Hk | Hk]; [congruence|]); contradiction. }
  destruct (@rmatch_group inline DELETED_FILE_REGEX HP prev s [] r Hr)
    as (added & Hg & Hall & Hn).
  cbn [app] in Hg. rewrite Hg. split; [|exact Hall].
  change (ones DELETED_FILE_REGEX) with 1%nat in Hn.
  destruct added; [cbn in Hn; lia | discriminate].
Qed.

(** ** Reading back the deleted entries of a status output *)

Lemma rmatch_word ws p :
  forall prev s cap,
    Re.rmatch (map (fun c => Re.One false (Re.Lit c)) ws ++ p) prev (ws ++ s) cap
    = Re.rmatch p (lastc prev ws) s cap.
Proof.
  induction ws as [|c ws IH]; intros prev s cap; [reflexivity|].
  cbn [map app Re.rmatch Re.accepts Re.capture lastc fold_left].
  rewrite N.eqb_refl. apply IH.
Qed.

(** A starred set that can take all of [xs] and then go on takes it. *)
Lemma rmatch_star_take g k p xs s r :
  forall prev cap,
    forallb (Re.accepts k) xs = true ->
    Re.rmatch (Re.Star g k :: p) (lastc prev xs) s (caps g cap xs) = Some r ->
    Re.rmatch (Re.Star g k :: p) prev (xs ++ s) cap = Some r.
Proof.
  induction xs as [|x xs IH]; intros prev cap Hxs H.
  - unfold caps in H. cbn [app lastc fold_left] in *.
    destruct g; [now rewrite app_nil_r in H | exact H].
  - cbn [forallb] in Hxs. apply andb_true_iff in Hxs. destruct Hxs as [Hx Hxs].
    cbn [app]. rewrite rmatch_star_cons, Hx.
    rewrite (IH (Some x) (Re.capture g cap x) Hxs); [reflexivity|].
    cbn [lastc fold_left] in H.
    replace (caps g (Re.capture g cap x) xs) with (caps g cap (x :: xs)); [exact H|].
    unfold caps, Re.capture. destruct g; [|reflexivity].
    now rewrite <- app_assoc.
Qed.

Lemma forallb_inline n : Forall inline n -> forallb (Re.accepts Re.NotNlCr) n = true.
Proof.
  induction 1 as [|c n Hc _ IH]; [reflexivity|].
  cbn [forallb]. rewrite IH, andb_true_r. now apply accepts_inline.
Qed.

Lemma rmatch_one_ok g k p prev c s cap :
  Re.accepts k c = true ->
  Re.rmatch (Re.One g k :: p) prev (c :: s) cap
  = Re.rmatch p (Some c) s (Re.capture g cap c).
Proof. intros H. cbn [Re.rmatch]. now rewrite H. Qed.

Lemma rmatch_star_stop g k p prev c s cap :
  Re.accepts k c = false ->
  Re.rmatch (Re.Star g k :: p) prev (c :: s) cap = Re.rmatch p prev (c :: s) cap.
Proof. intros H. rewrite rmatch_star_cons. now rewrite H. Qed.

Lemma rmatch_deleted_entry n prev t :
  file_name n ->
  exists l,
    Re.rmatch DELETED_FILE_REGEX prev (u "deleted:" ++ u "    " ++ n ++ nl :: t) []
    = Some (Re.Found n l (nl :: t)).
Proof.
  intros (Hne & Hin & Hsp).
  destruct n as [|c n]; [contradiction|].
  inversion Hin as [|c' n' Hc Hn]; subst.
  unfold DELETED_FILE_REGEX, Re.word. rewrite rmatch_word.
  change (Re.plus false Re.Space ++ Re.plus true Re.NotNlCr)
    with (Re.One false Re.Space :: Re.Star false Re.Space
            :: Re.One true Re.NotNlCr :: [Re.Star true Re.NotNlCr]).
  change (u "    " ++ (c :: n) ++ nl :: t)
    with (32%N :: [32; 32; 32]%N ++ c :: n ++ nl :: t).
  rewrite rmatch_one_ok by reflexivity.
  eexists.
  apply (@rmatch_star_take false Re.Space _ [32; 32; 32]%N); [reflexivity|].
  rewrite rmatch_star_stop by exact (Hsp c n eq_refl).
  rewrite rmatch_one_ok by (now apply accepts_inline).
  apply (@rmatch_star_take true Re.NotNlCr _ n); [now apply forallb_inline|].
  rewrite rmatch_star_stop by reflexivity.
  reflexivity.
Qed.

Lemma rmatch_deleted_other prev c s :
  c <> 100%N -> Re.rmatch DELETED_FILE_REGEX prev (c :: s) [] = None.
Proof.
  intros Hc.
  change DELETED_FILE_REGEX
    with (Re.One false (Re.Lit 100%N)
            :: Re.word "eleted:" ++ Re.plus false Re.Space ++ Re.plus true Re.NotNlCr).
  cbn [Re.rmatch Re.accepts]. apply N.eqb_neq in Hc. now rewrite Hc.
Qed.

Lemma length_deleted_entry n t :
  List.length (deleted_entry n ++ t) = (14 + List.length n + List.length t)%nat.
Proof.
  unfold deleted_entry. cbn [app List.length].
  rewrite !length_app. cbn [List.length].
  change (List.length (u "deleted:")) with 8%nat.
  change (List.length (u "    ")) with 4%nat. lia.
Qed.

Lemma findall_deleted_entries names :
  Forall file_name names ->
  forall fuel prev,
    (List.length (flat_map deleted_entry names) < fuel)%nat ->
    Re.findall_from fuel DELETED_FILE_REGEX prev (flat_map deleted_entry names) = names.
Proof.
  induction 1 as [|n names Hn _ IH]; intros fuel prev Hfuel.
  - destruct fuel as [|fuel]; [cbn in Hfuel; lia|]. reflexivity.
  - cbn [flat_map] in *. rewrite length_deleted_entry in Hfuel.
    destruct fuel as [|[|[|fuel]]]; try lia.
    set (T := flat_map deleted_entry names) in *.
    assert (Hshape : deleted_entry n ++ T
                     = 9%N :: u "deleted:" ++ u "    " ++ n ++ nl :: T).
    { unfold deleted_entry. cbn [app]. now rewrite <- !app_assoc. }
    rewrite Hshape.
    cbn [Re.findall_from]. rewrite rmatch_deleted_other by discriminate.
    destruct (rmatch_deleted_entry (@Some char 9%N) T Hn) as [l Hm].
    rewrite Hm. cbn [Re.rest Re.group1 Re.last].
    assert (Hlt : (List.length (nl :: T)
                   <? List.length (u "deleted:" ++ u "    " ++ n ++ nl :: T))%nat = true).
    { apply Nat.ltb_lt. rewrite !length_app. cbn [List.length].
      change (List.length (u "deleted:")) with 8%nat. lia. }
    rewrite Hlt. f_equal.
    rewrite rmatch_deleted_other by discriminate.
    apply IH. lia.
Qed.

(** X12.  A status output made of the entries [git status] prints for
    deleted files (a tab, the word, four spaces, the name, a newline) is
    read back by the pattern as exactly those names, in the same order,
    for names that are non-empty, on one line, and do not start with
    white space. *)
Theorem deleted_entries_are_read_back (names : list text) :
  Forall file_name names ->
  Re.findall DELETED_FILE_REGEX (flat_map deleted_entry names) = names.
Proof.
  intros H. unfold Re.findall. apply findall_deleted_entries; [exact H | lia].
Qed.

(** ** What [main] prints *)

Lemma always_narrated_pull_from_remote self : always narrated (pull_from_remote self).
Proof.
  unfold pull_from_remote.
  apply always_bind; [exact narrated_closed | apply narrated_logging_info | intros _].
  apply always_bind; [exact narrated_closed | intros w; constructor | intros present].
  apply always_bind; [exact narrated_closed | | intros _; apply narrated_logging_info].
  destruct (negb present).
  - unfold _initialize_repo. narrate.
  - apply narrated_update_repo.
Qed.

Lemma print_yields ls :
  printed (flat_map echo_print (map Yield ls)) = ls
  /\ commands (flat_map echo_print (map Yield ls)) = [].
Proof.
  induction ls as [|l ls [IH1 IH2]]; [split; reflexivity|].
  unfold printed, commands in *. cbn [map flat_map echo_print app].
  rewrite IH1, IH2. split; reflexivity.
Qed.

Lemma printed_app a b : printed (a ++ b) = printed a ++ printed b.
Proof. apply flat_map_app. Qed.

Lemma yielded_app a b : yielded (a ++ b) = yielded a ++ yielded b.
Proof. apply flat_map_app. Qed.

Lemma print_narrated t :
  narrated t ->
  printed (flat_map echo_print t) = yielded t
  /\ commands (flat_map echo_print t) = commands t.
Proof.
  induction 1 as [|msg t Ht [IH1 IH2]|cmd cwd t Hc Ht [IH1 IH2]|cmd cwd ls t Ht [IH1 IH2]].
  - split; reflexivity.
  - change (Log msg :: t) with ([Log msg] ++ t).
    rewrite flat_map_app, printed_app, yielded_app, !commands_app, IH1, IH2.
    split; reflexivity.
  - change (Exec cmd cwd :: t) with ([Exec cmd cwd] ++ t).
    rewrite flat_map_app, printed_app, yielded_app, !commands_app, IH1, IH2.
    split; reflexivity.
  - destruct (print_yields ls) as [Hy1 Hy2].
    change (Yield (echo cmd) :: Exec cmd cwd :: map Yield ls ++ t)
      with ([Yield (echo cmd); Exec cmd cwd] ++ map Yield ls ++ t).
    rewrite !flat_map_app, !printed_app, !yielded_app, !commands_app.
    rewrite Hy1, Hy2, IH1, IH2, yielded_yields, commands_yields.
    split; reflexivity.
Qed.

(** X13.  When the command line is accepted and the constructor returns
    the instance [self], [main] prints exactly the lines
    [pull_from_remote] yields for [self], in their order and also when
    the run ends in an error; it starts the same commands and ends with
    the same outcome. *)
Theorem main_prints_what_is_yielded
  (argv : list text) (args : Namespace) (g b d : text) (self : GitAutoSync) (w : World) :
  parse_args argv = inr args ->
  args_git_url args = Some (Str g) ->
  args_branch_name args = Some (Str b) ->
  args_repo_dir args = Some (Str d) ->
  __init__ g b d = inr self ->
  printed (trace (main argv w)) = yielded (trace (pull_from_remote self w))
  /\ commands (trace (main argv w)) = commands (trace (pull_from_remote self w))
  /\ outcome (main argv w) = outcome (pull_from_remote self w).
Proof.
  intros Hp Hg Hb Hd Hi. unfold main. rewrite Hp, Hg, Hb, Hd, Hi.
  destruct (print_narrated (always_narrated_pull_from_remote self w)) as [H1 H2].
  repeat split; assumption.
Qed.

(** ** Where the commands run *)







End Host.

(** * The program on the scripted host *)

Abbreviation pe := Script.path_exists (only parsing).
Abbreviation sp := Script.spawn (only parsing).
Abbreviation dr := Script.decode_replace (only parsing).
Abbreviation ds := Script.decode_strict (only parsing).

(** ** What the patterns find *)

Example deleted_files_of_status :
  Re.findall DELETED_FILE_REGEX
    (u "	deleted:    gone.txt" ++ [nl] ++ u "	modified:   kept.txt" ++ [nl]
       ++ u "	deleted:    a b.txt" ++ [cr; nl])
  = [u "gone.txt"; u "a b.txt"].
Proof. reflexivity. Qed.

(** The white space after the letter may be the newline that ends its
    line. *)
Example letter_then_newline : modified_found (u "M" ++ [nl]) = true.
Proof. reflexivity. Qed.

Example letter_at_the_end : modified_found (u "M") = false.
Proof. reflexivity. Qed.

(** A file staged and then modified again has both columns set, and the
    pattern does not find it; neither does it find an added file. *)
Example both_columns_not_found :
  modified_found (porcelain_line 77%N 77%N (u "notes.txt")) = false
  /\ modified_found (porcelain_line 65%N 32%N (u "notes.txt")) = false.
Proof. split; reflexivity. Qed.

(** ** C1 *)

Lemma pull_from_remote_order_witness :
  commands (trace (pull_from_remote pe sp dr ds Sample.self Sample.fresh))
  = [clone_cmd Sample.self; checkout_cmd Sample.self]
  /\ commands (trace (pull_from_remote pe sp dr ds Sample.self Sample.clean))
     = [status_cmd; porcelain_cmd;
        checkout_cmd Sample.self; fetch_cmd; merge_cmd Sample.self]
  /\ commands (trace (pull_from_remote pe sp dr ds Sample.self Sample.modified))
     = [status_cmd; porcelain_cmd;
        checkout_cmd Sample.self; add_cmd; config_email_cmd; config_name_cmd; commit_cmd;
        checkout_cmd Sample.self; fetch_cmd; merge_cmd Sample.self].
Proof.
  split; [|split].
  - exact (proj1 (pull_from_remote_order pe sp dr ds Sample.self Sample.fresh) eq_refl).
  - destruct (proj2 (pull_from_remote_order pe sp dr ds Sample.self Sample.clean)
                eq_refl false eq_refl eq_refl) as [_ H].
    rewrite H. reflexivity.
  - destruct (proj2 (pull_from_remote_order pe sp dr ds Sample.self Sample.modified)
                eq_refl true eq_refl eq_refl) as [_ H].
    rewrite H. reflexivity.
Defined.

(** ** C2 *)

Lemma pull_and_resolve_single_remediation_witness :
  (commands (trace (_pull_and_resolve_conflicts sp dr Sample.self Sample.conflict))
   = [checkout_cmd Sample.self; fetch_cmd; merge_cmd Sample.self;
      add_cmd; config_email_cmd; config_name_cmd; commit_cmd; merge_cmd Sample.self]
   /\ outcome (_pull_and_resolve_conflicts sp dr Sample.self Sample.conflict)
      = inl (CalledProcessError 1 (merge_cmd Sample.self)))
  /\ (commands (trace (_pull_and_resolve_conflicts sp dr Sample.self Sample.fatal_merge))
      = [checkout_cmd Sample.self; fetch_cmd; merge_cmd Sample.self]
      /\ outcome (_pull_and_resolve_conflicts sp dr Sample.self Sample.fatal_merge)
         = inl (CalledProcessError 128 (merge_cmd Sample.self))).
Proof.
  split.
  - destruct (pull_and_resolve_single_remediation sp dr Sample.self Sample.conflict eq_refl)
      as (_ & H1 & _ & _).
    destruct (H1 eq_refl) as [Heq Hretry]. split.
    + rewrite Heq. reflexivity.
    + apply Hretry; [reflexivity | reflexivity | discriminate].
  - destruct (pull_and_resolve_single_remediation sp dr Sample.self Sample.fatal_merge
                eq_refl) as (_ & _ & H2 & _).
    destruct H2 as [Heq Hout]; [discriminate | discriminate |]. split.
    + rewrite Heq. reflexivity.
    + exact Hout.
Defined.

(** ** C3 *)

Lemma reset_deleted_file_cases_witness :
  (commands (trace (_reset_deleted_files sp dr ds Sample.self Sample.first_absent_upstream))
   = [status_cmd;
      fetch_cmd; cat_file_cmd Sample.self (u "gone.txt");
      fetch_cmd; cat_file_cmd Sample.self (u "next.txt"); restore_cmd (u "next.txt")]
   /\ outcome (_reset_deleted_files sp dr ds Sample.self Sample.first_absent_upstream)
      = inr tt)
  /\ (commands (trace (_reset_deleted_files sp dr ds Sample.self Sample.two_deleted))
      = [status_cmd;
         fetch_cmd; cat_file_cmd Sample.self (u "gone.txt"); restore_cmd (u "gone.txt");
         fetch_cmd; cat_file_cmd Sample.self (u "next.txt"); restore_cmd (u "next.txt")]
      /\ outcome (_reset_deleted_files sp dr ds Sample.self Sample.two_deleted) = inr tt)
  /\ (commands (trace (_reset_deleted_files sp dr ds Sample.self Sample.first_check_fails))
      = [status_cmd; fetch_cmd; cat_file_cmd Sample.self (u "gone.txt")]
      /\ outcome (_reset_deleted_files sp dr ds Sample.self Sample.first_check_fails)
         = inl (CalledProcessError 1 (cat_file_cmd Sample.self (u "gone.txt")))).
Proof.
  split; [|split].
  - destruct (@reset_deleted_file_cases _ sp dr ds Sample.self Sample.first_absent_upstream
                (Sample.queried Sample.first_absent_upstream) Sample.status_two_deleted
                (Script.decode_replace Sample.status_two_deleted)
                [] (u "gone.txt") [u "next.txt"]
                ltac:(vm_compute; reflexivity) ltac:(vm_compute; reflexivity)
                ltac:(vm_compute; reflexivity) ltac:(vm_compute; reflexivity))
      as (_ & Hskip & _ & _).
    rewrite (Hskip (cat_file_cmd Sample.self (u "gone.txt"))
               ltac:(vm_compute; reflexivity)).
    split; vm_compute; reflexivity.
  - destruct (@reset_deleted_file_cases _ sp dr ds Sample.self Sample.two_deleted
                (Sample.queried Sample.two_deleted) Sample.status_two_deleted
                (Script.decode_replace Sample.status_two_deleted)
                [] (u "gone.txt") [u "next.txt"]
                ltac:(vm_compute; reflexivity) ltac:(vm_compute; reflexivity)
                ltac:(vm_compute; reflexivity) ltac:(vm_compute; reflexivity))
      as (Hpass & _ & _ & _).
    destruct (Hpass ltac:(vm_compute; reflexivity)) as [_ Hrestored].
    rewrite (Hrestored ltac:(vm_compute; reflexivity)).
    split; vm_compute; reflexivity.
  - destruct (@reset_deleted_file_cases _ sp dr ds Sample.self Sample.first_check_fails
                (Sample.queried Sample.first_check_fails) Sample.status_two_deleted
                (Script.decode_replace Sample.status_two_deleted)
                [] (u "gone.txt") [u "next.txt"]
                ltac:(vm_compute; reflexivity) ltac:(vm_compute; reflexivity)
                ltac:(vm_compute; reflexivity) ltac:(vm_compute; reflexivity))
      as (_ & _ & Hfail & _).
    rewrite (Hfail 1%Z (cat_file_cmd Sample.self (u "gone.txt"))
               ltac:(vm_compute; reflexivity) ltac:(discriminate)).
    split; vm_compute; reflexivity.
Defined.

(** ** C4 *)

Lemma repo_is_dirty_marker_line_witness :
  outcome (repo_is_dirty sp ds Sample.self Sample.modified) = inr true
  /\ outcome (repo_is_dirty sp ds Sample.self Sample.untracked) = inr false
  /\ outcome (repo_is_dirty sp ds Sample.self Sample.staged_and_modified) = inr false.
Proof.
  split; [|split].
  - refine (proj1 (proj2 (proj2 (repo_is_dirty_marker_line sp ds Sample.self
                                   Sample.modified
                                   (output := u " M notes.txt" ++ [nl])
                                   eq_refl eq_refl)))
                  (u "notes.txt") _).
    right. left. reflexivity.
  - refine (proj1 (proj2 (repo_is_dirty_marker_line sp ds Sample.self Sample.untracked
                            (output := u "?? new.txt" ++ [nl]) eq_refl eq_refl)) _).
    intros l [<- | []]. now exists (u " new.txt" ++ [nl]).
  - refine (proj2 (proj2 (proj2 (repo_is_dirty_marker_line sp ds Sample.self
                                   Sample.staged_and_modified
                                   (output := u "MM notes.txt" ++ [nl])
                                   eq_refl eq_refl))) _).
    intros l [<- | []]. exists 77%N, 77%N, (u "notes.txt"). repeat split.
Defined.

(** A file staged and then modified again: the query prints one line
    with M in both columns, and the clone is not found dirty. *)
Lemma staged_and_modified_is_not_dirty :
  sp porcelain_cmd (cwd Sample.self) false Sample.staged_and_modified
  = (Script.bytes "MM notes.txt" ++ [x0a], 0%Z, Sample.queried Sample.staged_and_modified)
  /\ ds (Script.bytes "MM notes.txt" ++ [x0a])
     = Some (porcelain_line 77%N 77%N (u "notes.txt"))
  /\ outcome (repo_is_dirty sp ds Sample.self Sample.staged_and_modified) = inr false.
Proof. repeat split. Qed.

(** ** C5 *)

(** One path is listed as deleted and the fetch of its existence check
    exits with 128: the run of [_reset_deleted_files] ends normally, and
    the fetch is the last command it started.  The same failure of the
    fetch of [_pull_and_resolve_conflicts] ends the run. *)
Example fetch_128_is_not_fatal :
  Re.findall DELETED_FILE_REGEX (Script.decode_replace Sample.status_deleted)
  = [u "gone.txt"]
  /\ exit_status sp fetch_cmd (cwd Sample.self)
       (final (check_output sp status_cmd (cwd Sample.self) Sample.fetch_128))
     = 128%Z
  /\ outcome (_reset_deleted_files sp dr ds Sample.self Sample.fetch_128) = inr tt
  /\ commands (trace (_reset_deleted_files sp dr ds Sample.self Sample.fetch_128))
     = [status_cmd; fetch_cmd]
  /\ outcome (_pull_and_resolve_conflicts sp dr Sample.self Sample.fetch_128)
     = inl (CalledProcessError 128 fetch_cmd).
Proof. repeat split. Qed.

Lemma fetch_failure_in_existence_check_witness :
  outcome (_reset_deleted_files sp dr ds Sample.self Sample.two_deleted_fetch_128)
  = inr tt
  /\ commands (trace (_reset_deleted_files sp dr ds Sample.self
                        Sample.two_deleted_fetch_128))
     = [status_cmd; fetch_cmd; fetch_cmd].
Proof.
  destruct (@fetch_failure_in_existence_check _ sp dr ds Sample.self
              Sample.two_deleted_fetch_128
              (Sample.queried Sample.two_deleted_fetch_128) Sample.status_two_deleted
              (Script.decode_replace Sample.status_two_deleted)
              [] (u "gone.txt") [u "next.txt"]
              ltac:(vm_compute; reflexivity) ltac:(vm_compute; reflexivity)
              ltac:(vm_compute; reflexivity) ltac:(vm_compute; reflexivity))
    as (_ & _ & H128).
  rewrite (H128 ltac:(vm_compute; reflexivity)).
  split; vm_compute; reflexivity.
Defined.

(** ** C6 *)

(** C6 at an output that ends in a progress update closed by a carriage
    return: the child wrote two updates and exited with status 0, and
    after the echo only the first update is yielded. *)
Theorem execute_cmd_loses_final_progress_update :
  output_of sp fetch_cmd None Sample.progress
  = Script.bytes "10%" ++ [x0d] ++ Script.bytes "50%" ++ [x0d]
  /\ yielded (trace (execute_cmd sp dr fetch_cmd None Sample.progress))
     = [echo fetch_cmd; u "10%" ++ [cr]]
  /\ outcome (execute_cmd sp dr fetch_cmd None Sample.progress) = inr tt.
Proof. repeat split. Qed.

(** ** C8 *)

Lemma restore_failure_128_swallowed_witness :
  outcome (_reset_deleted_files sp dr ds Sample.self Sample.first_restore_128) = inr tt
  /\ commands (trace (_reset_deleted_files sp dr ds Sample.self Sample.first_restore_128))
     = [status_cmd;
        fetch_cmd; cat_file_cmd Sample.self (u "gone.txt"); restore_cmd (u "gone.txt");
        fetch_cmd; cat_file_cmd Sample.self (u "next.txt"); restore_cmd (u "next.txt")].
Proof.
  destruct (@restore_failure_128_swallowed _ sp dr ds Sample.self Sample.first_restore_128
              (Sample.queried Sample.first_restore_128) Sample.status_two_deleted
              (Script.decode_replace Sample.status_two_deleted)
              [] (u "gone.txt") [u "next.txt"]
              ltac:(vm_compute; reflexivity) ltac:(vm_compute; reflexivity)
              ltac:(vm_compute; reflexivity) ltac:(vm_compute; reflexivity)
              ltac:(vm_compute; reflexivity))
    as (_ & H128 & _).
  rewrite (H128 ltac:(vm_compute; reflexivity)).
  split; vm_compute; reflexivity.
Defined.

(** ** C9 *)

Lemma execute_cmd_drops_unterminated_tail_witness :
  (exists chunks,
      yielded (trace (execute_cmd sp dr fetch_cmd None Sample.partial_line))
      = echo fetch_cmd :: map Script.decode_replace chunks
      /\ List.concat chunks = Script.bytes "ok" ++ [x0a])
  /\ outcome (execute_cmd sp dr fetch_cmd None Sample.partial_line)
     = inl (CalledProcessError 3 fetch_cmd).
Proof.
  apply (execute_cmd_drops_unterminated_tail sp dr fetch_cmd None Sample.partial_line
           (body := Script.bytes "ok" ++ [x0a]) (tail := Script.bytes "partial")).
  - reflexivity.
  - right. exists (Script.bytes "ok"). left. reflexivity.
  - discriminate.
  - intros b Hb. cbn in Hb.
    repeat (destruct Hb as [<- | Hb]; [split; discriminate|]). contradiction.
Defined.

(** ** C7 *)

Lemma command_line_interface_witness :
  parse_args [u "--branch-name"; u "main"] = inl (SystemExit 2)
  /\ parse_args [u "--git-url"; git_url Sample.self]
     = inr {| args_git_url := Some (Str (git_url Sample.self));
              args_branch_name := Some (Str (u "master"));
              args_repo_dir := Some (Str (u "./")) |}
  /\ parse_args [u "--git-url=" ++ git_url Sample.self]
     = parse_args [u "--git-url"; git_url Sample.self].
Proof.
  split; [|split].
  - destruct (proj1 command_line_interface [u "--branch-name"; u "main"])
      as [H | [H _]].
    + intros a [<- | [<- | []]]; reflexivity.
    + exact H.
    + discriminate H.
  - exact (proj1 (proj1 (proj2 (proj2 command_line_interface))
                    (git_url Sample.self) eq_refl)).
  - destruct (proj1 (proj2 (proj2 command_line_interface)) (git_url Sample.self) eq_refl)
      as (H1 & H2 & _).
    now rewrite H1, H2.
Defined.

(** The URL alone on the command line, for a repository that has no
    branch called [master]: the branch asked for is [master] all the
    same, and the run ends with the error of the checkout. *)
Lemma default_branch_is_master_whatever_the_repository :
  parse_args [u "--git-url"; git_url Sample.self]
  = inr {| args_git_url := Some (Str (git_url Sample.self));
           args_branch_name := Some (Str (u "master"));
           args_repo_dir := Some (Str (u "./")) |}
  /\ commands (trace (main pe sp dr ds [u "--git-url"; git_url Sample.self]
                        Sample.no_master))
     = [git ["clone"%string] ++ [git_url Sample.self; u "./"];
        git ["checkout"%string; "master"%string]]
  /\ outcome (main pe sp dr ds [u "--git-url"; git_url Sample.self] Sample.no_master)
     = inl (CalledProcessError 1 (git ["checkout"%string; "master"%string])).
Proof. repeat split. Qed.

(** ** C10 *)

Lemma init_asserts_url_and_branch_witness :
  __init__ [] (u "main") (u "work") = inl AssertionError
  /\ __init__ (u "https://example.org/repo.git") [] (u "work") = inl AssertionError
  /\ __init__ (u "https://example.org/repo.git") (u "main") []
     = inr {| git_url := u "https://example.org/repo.git";
              branch_name := u "main";
              repo_dir := [] |}.
Proof.
  split; [|split].
  - apply (proj1 (init_asserts_url_and_branch [] (u "main") (u "work"))).
    now left.
  - apply (proj1 (init_asserts_url_and_branch (u "https://example.org/repo.git") []
                    (u "work"))).
    now right.
  - apply (proj2 (proj2 (init_asserts_url_and_branch (u "https://example.org/repo.git")
                           (u "main") []))); discriminate.
Defined.

(** ** Further properties on the scripted host *)

Lemma execute_cmd_yields_all_of_terminated_output_witness :
  exists chunks,
    yielded (trace (execute_cmd sp dr fetch_cmd None Sample.progress_done))
    = echo fetch_cmd :: map Script.decode_replace chunks
    /\ List.concat chunks
       = Script.bytes "10%" ++ [x0d] ++ Script.bytes "done" ++ [x0d; x0a].
Proof.
  apply (execute_cmd_yields_all_of_terminated_output sp dr fetch_cmd None
           Sample.progress_done).
  right. exists (Script.bytes "10%" ++ [x0d] ++ Script.bytes "done" ++ [x0d]).
  reflexivity.
Defined.

Lemma pull_from_remote_error_names_last_command_witness :
  128%Z <> 0%Z
  /\ exists t,
      commands (trace (pull_from_remote pe sp dr ds Sample.self Sample.fatal_merge))
      = t ++ [merge_cmd Sample.self].
Proof.
  apply (pull_from_remote_error_names_last_command pe sp dr ds Sample.self
           Sample.fatal_merge).
  reflexivity.
Defined.

Lemma pull_from_remote_success_ends_with_merge_witness :
  (exists t,
      commands (trace (pull_from_remote pe sp dr ds Sample.self Sample.modified))
      = t ++ [merge_cmd Sample.self])
  /\ commands (trace (pull_from_remote pe sp dr ds Sample.self Sample.fresh))
     = [clone_cmd Sample.self; checkout_cmd Sample.self].
Proof.
  split.
  - exact (pull_from_remote_success_ends_with_merge pe sp dr ds Sample.self
             Sample.modified eq_refl).
  - exact (pull_from_remote_success_ends_with_merge pe sp dr ds Sample.self
             Sample.fresh eq_refl).
Defined.

Lemma reset_deleted_files_128_is_status_witness :
  status_cmd = status_cmd
  /\ commands (trace (_reset_deleted_files sp dr ds Sample.self Sample.not_a_repository))
     = [status_cmd].
Proof.
  exact (reset_deleted_files_128_is_status sp dr ds Sample.self Sample.not_a_repository
           (cmd := status_cmd) eq_refl).
Defined.

Lemma pull_from_remote_unusable_status_witness :
  commands (trace (pull_from_remote pe sp dr ds Sample.self Sample.garbled_status))
  = [status_cmd]
  /\ outcome (pull_from_remote pe sp dr ds Sample.self Sample.garbled_status)
     = inl UnicodeDecodeError.
Proof.
  refine (pull_from_remote_unusable_status pe sp dr ds Sample.self
            Sample.garbled_status (out := [xff]) (rc := 0%Z) eq_refl eq_refl _).
  right. reflexivity.
Defined.

Lemma deleted_files_are_inline_witness :
  u "a b.txt" <> [] /\ Forall inline (u "a b.txt").
Proof.
  apply (deleted_files_are_inline
           (u "	deleted:    gone.txt" ++ [nl] ++ u "	modified:   kept.txt" ++ [nl]
              ++ u "	deleted:    a b.txt" ++ [cr; nl])).
  vm_compute. right. left. reflexivity.
Defined.

Lemma deleted_entries_are_read_back_witness :
  Re.findall DELETED_FILE_REGEX
    (flat_map deleted_entry [u "gone.txt"; u "docs/a b.md"])
  = [u "gone.txt"; u "docs/a b.md"].
Proof.
  apply deleted_entries_are_read_back.
  repeat constructor; try discriminate;
    intros c rest H; injection H as <- _; reflexivity.
Defined.

(** Both bounds are reached: local changes are saved and the merge then
    stops on a conflict. *)
Example two_commits_and_two_merges :
  count commit_cmd
    (commands (trace (pull_from_remote pe sp dr ds Sample.self Sample.modified_conflict)))
  = 2%nat
  /\ count (merge_cmd Sample.self)
       (commands (trace (pull_from_remote pe sp dr ds Sample.self
                           Sample.modified_conflict)))
     = 2%nat.
Proof. split; reflexivity. Qed.

Lemma main_prints_what_is_yielded_witness :
  printed (trace (main pe sp dr ds [u "--git-url"; git_url Sample.self] Sample.fresh))
  = [echo (clone_cmd {| git_url := git_url Sample.self;
                        branch_name := u "master";
                        repo_dir := u "./" |});
     echo (checkout_cmd {| git_url := git_url Sample.self;
                           branch_name := u "master";
                           repo_dir := u "./" |})].
Proof.
  destruct (main_prints_what_is_yielded pe sp dr ds
              [u "--git-url"; git_url Sample.self]
              (args := {| args_git_url := Some (Str (git_url Sample.self));
                          args_branch_name := Some (Str (u "master"));
                          args_repo_dir := Some (Str (u "./")) |})
              (self := {| git_url := git_url Sample.self;
                          branch_name := u "master";
                          repo_dir := u "./" |})
              Sample.fresh eq_refl eq_refl eq_refl eq_refl eq_refl) as (H & _ & _).
  rewrite H. reflexivity.
Defined.

Lemma reset_deleted_files_is_confined_witness :
  exists rest,
    commands (trace (_reset_deleted_files sp dr ds Sample.self Sample.deleted_one))
    = status_cmd :: rest
    /\ Forall (reset_command Sample.self
                 (Re.findall DELETED_FILE_REGEX
                    (Script.decode_replace Sample.status_deleted)))
              rest.
Proof.
  exact (reset_deleted_files_is_confined sp dr ds Sample.self Sample.deleted_one
           (status := Script.decode_replace Sample.status_deleted) eq_refl eq_refl).
Defined.

(** The run behind it: the file is looked up and restored. *)
Example deleted_file_is_restored :
  commands (trace (_reset_deleted_files sp dr ds Sample.self Sample.deleted_one))
  = [status_cmd; fetch_cmd; cat_file_cmd Sample.self (u "gone.txt");
     restore_cmd (u "gone.txt")].
Proof. reflexivity. Qed.
